(** * CubeMenu: the cube / net / menu animation sequencer

    A shallow embedding of [src/components/CubeMenu.vue] and of the route
    table of [src/router/index.ts].

    JavaScript numbers are modelled as exact rationals ([Q]); the values
    the component itself writes (layout constants, opacities, durations,
    timeline offsets) are all decimal literals, so they are represented
    exactly.  Objects that the script mutates or hands to the animation
    library (vectors, Euler angles, materials, the empty tween target)
    live in a heap and are addressed by reference, so that aliasing is
    visible.  The libraries the component calls but does not contain
    (three.js ray casting, [Math], the easing curve of the tween engine)
    are operations of the class [Platform].

    The tween engine is modelled by what the component relies on: a root
    timeline of tweens and calls with absolute start times, advanced by
    ticks; a tick renders every child whose start it has reached, a call
    once, a tween until its duration has elapsed; the [onStart] of a
    tween runs on its first render past its start.  Time is the engine's
    own clock, in seconds.  Rendering to the canvas, properties that are
    not numbers (material side and transparency flags, the scene
    background) and unmounting are left out. *)

From Stdlib Require Import QArith Lqa String List Bool Lia Permutation.
From stdpp Require Import base list.
Import ListNotations.

Local Open Scope string_scope.
Local Open Scope list_scope.
Local Open Scope Q_scope.

(** ** JavaScript objects with numeric properties *)

Abbreviation ref := nat (only parsing).

(** The own numeric properties of an object, in insertion order. *)
Abbreviation Props := (list (string * Q)) (only parsing).

Fixpoint propGet (k : string) (o : Props) : option Q :=
  match o with
  | [] => None
  | (k', v) :: o' => if String.eqb k k' then Some v else propGet k o'
  end.

(** [o[k] = v]: overwrite the property, or add it when absent. *)
Fixpoint propSet (k : string) (v : Q) (o : Props) : Props :=
  match o with
  | [] => [(k, v)]
  | (k', v') :: o' =>
      if String.eqb k k' then (k', v) :: o' else (k', v') :: propSet k v o'
  end.

Definition propsAssign (vars : Props) (o : Props) : Props :=
  fold_left (fun acc kv => propSet (fst kv) (snd kv) acc) vars o.

Abbreviation Heap := (list (list (string * Q))) (only parsing).

(** Reading a property that is not there gives [0] here (JavaScript gives
    [undefined]); [table_reads_defined] below shows that the component's
    reads of the layout table never hit that case. *)
Definition heapGet (h : Heap) (r : ref) (k : string) : Q :=
  match h !! r with
  | Some o => match propGet k o with Some v => v | None => 0 end
  | None => 0
  end.

(** [new]: the fresh object goes to the end of the heap. *)
Definition heapAlloc (h : Heap) (o : Props) : Heap := h ++ [o].

Definition heapUpdate (f : Props -> Props) (r : ref) (h : Heap) : Heap :=
  alter f r h.

Definition vec3 (x y z : Q) : Props := [("x", x); ("y", y); ("z", z)].

(** ** The three.js scene graph *)

(** An [Object3D] (a [Group], a [Mesh], the [Scene], a light).  Its
    transform vectors are heap objects; [userData_isEdge] is the marker
    flag [userData.isEdge]. *)
Record Object3D := mkObject3D {
  position : ref;
  rotation : ref;
  scale : ref;
  geometry : option ref;
  material : option ref;
  userData_isEdge : bool;
  children : list nat
}.

Definition addChild (c : nat) (o : Object3D) : Object3D :=
  mkObject3D (position o) (rotation o) (scale o) (geometry o) (material o)
             (userData_isEdge o) (children o ++ [c]).

Definition markEdge (o : Object3D) : Object3D :=
  mkObject3D (position o) (rotation o) (scale o) (geometry o) (material o)
             true (children o).

(** One entry of the array returned by [Raycaster.intersectObjects]. *)
Record Intersection := mkIntersection {
  distance : Q;
  object : nat
}.

(** ** Component data *)

Inductive CubeState := idle | net | transitioning | menu.

Definition CubeState_eqb (a b : CubeState) : bool :=
  match a, b with
  | idle, idle | net, net | transitioning, transitioning | menu, menu => true
  | _, _ => false
  end.

Record FaceData := mkFaceData {
  name : string;
  label : string;
  mesh : nat;
  cubePosition : ref;
  cubeRotation : ref;
  netPosition : ref;
  netRotation : ref;
  menuPosition : ref;
  menuRotation : ref
}.

Definition cubeSize : Q := 1.

Definition faceColors : list (string * Q) :=
  [("front", 0xff6b6b); ("right", 0x6bc1ff); ("left", 0x6bff95);
   ("top", 0xfff56b); ("bottom", 0xb66bff); ("back", 0xff9d6b)].

Definition faceMappings : list (string * string) :=
  [("front", "Web"); ("right", "3D"); ("left", "Fullstack");
   ("top", "About"); ("bottom", "Projects"); ("back", "Contact")].

Fixpoint lookupString {A} (k : string) (l : list (string * A)) : option A :=
  match l with
  | [] => None
  | (k', v) :: l' => if String.eqb k k' then Some v else lookupString k l'
  end.

Definition faceColor (k : string) : Q :=
  match lookupString k faceColors with Some c => c | None => 0 end.

Definition faceMapping (k : string) : string :=
  match lookupString k faceMappings with Some s => s | None => "" end.

Definition edgeThickness : Q := 0.05.
Definition edgeColor : Q := 0x888888.

Inductive Orientation := axis_x | axis_y | axis_z.

Definition edgesData : list (Orientation * (Q * Q * Q)) :=
  [ (axis_x, (0, -0.5, -0.5)); (axis_x, (0, 0.5, -0.5));
    (axis_x, (0, -0.5, 0.5));  (axis_x, (0, 0.5, 0.5));
    (axis_y, (0.5, 0, -0.5));  (axis_y, (-0.5, 0, -0.5));
    (axis_y, (0.5, 0, 0.5));   (axis_y, (-0.5, 0, 0.5));
    (axis_z, (-0.5, -0.5, 0)); (axis_z, (0.5, -0.5, 0));
    (axis_z, (0.5, 0.5, 0));   (axis_z, (-0.5, 0.5, 0)) ].

(** ** The tween engine (gsap) *)

(** The closures the component hands to the engine. *)
Inductive Callback :=
| cb_setNet                              (* () => { currentState = 'net'; } *)
| cb_edgesOpaque                         (* () => { setEdgeOpacity(1, 0); } *)
| cb_edgesFade                           (* () => { setEdgeOpacity(0, 0.5); } *)
| cb_menuNavigate (selectedFace : FaceData).

Record Tween := mkTween {
  tw_target : ref;
  tw_vars : Props;               (* end values *)
  tw_duration : Q;
  tw_onStart : option Callback;  (* the [onStart] that has not run yet *)
  tw_from : option Props         (* start values, recorded at first render *)
}.

Inductive Child :=
| CTween (tw : Tween)
| CCall (cb : Callback).

(** A child of the engine's root timeline, with its absolute start time. *)
Record Entry := mkEntry {
  e_start : Q;
  e_child : Child
}.

(** A [gsap.timeline()] handle: where it starts on the root timeline and
    how long its children make it so far. *)
Record Timeline := mkTimeline {
  tl_start : Q;
  tl_duration : Q
}.

Definition qmax (a b : Q) : Q := if Qle_bool a b then b else a.

(** The absolute time of an offset on a timeline that starts at [start]. *)
Definition after (start offset : Q) : Q := start + offset.

(** ** DOM events *)

Record MouseEvent := mkMouseEvent { clientX : Q; clientY : Q }.
Record Touch := mkTouch { touch_clientX : Q; touch_clientY : Q }.
Record TouchEvent := mkTouchEvent { touches : list Touch }.
Record DOMRect := mkDOMRect {
  rect_left : Q; rect_top : Q; rect_width : Q; rect_height : Q
}.

(** ** Component state *)

Record State := mkState {
  currentState : CubeState;
  heap : Heap;
  objects : list Object3D;
  faces : list FaceData;
  cubeGroup : nat;
  edgeGroup : nat;
  mouse : ref;
  camera_aspect : Q;
  clock : Q;                     (* time of the engine's last tick, seconds *)
  pending : list Entry;          (* newest first *)
  pushes : list string;          (* router.push calls, oldest first *)
  console : list string;
  prevented : nat                (* preventDefault() calls *)
}.

Definition set_currentState (v : CubeState) (s : State) : State :=
  mkState v (heap s) (objects s) (faces s) (cubeGroup s) (edgeGroup s)
          (mouse s) (camera_aspect s) (clock s) (pending s) (pushes s)
          (console s) (prevented s).
Definition set_heap (v : Heap) (s : State) : State :=
  mkState (currentState s) v (objects s) (faces s) (cubeGroup s) (edgeGroup s)
          (mouse s) (camera_aspect s) (clock s) (pending s) (pushes s)
          (console s) (prevented s).
Definition set_objects (v : list Object3D) (s : State) : State :=
  mkState (currentState s) (heap s) v (faces s) (cubeGroup s) (edgeGroup s)
          (mouse s) (camera_aspect s) (clock s) (pending s) (pushes s)
          (console s) (prevented s).
Definition set_faces (v : list FaceData) (s : State) : State :=
  mkState (currentState s) (heap s) (objects s) v (cubeGroup s) (edgeGroup s)
          (mouse s) (camera_aspect s) (clock s) (pending s) (pushes s)
          (console s) (prevented s).
Definition set_cubeGroup (v : nat) (s : State) : State :=
  mkState (currentState s) (heap s) (objects s) (faces s) v (edgeGroup s)
          (mouse s) (camera_aspect s) (clock s) (pending s) (pushes s)
          (console s) (prevented s).
Definition set_edgeGroup (v : nat) (s : State) : State :=
  mkState (currentState s) (heap s) (objects s) (faces s) (cubeGroup s) v
          (mouse s) (camera_aspect s) (clock s) (pending s) (pushes s)
          (console s) (prevented s).
Definition set_mouse (v : ref) (s : State) : State :=
  mkState (currentState s) (heap s) (objects s) (faces s) (cubeGroup s)
          (edgeGroup s) v (camera_aspect s) (clock s) (pending s) (pushes s)
          (console s) (prevented s).
Definition set_camera_aspect (v : Q) (s : State) : State :=
  mkState (currentState s) (heap s) (objects s) (faces s) (cubeGroup s)
          (edgeGroup s) (mouse s) v (clock s) (pending s) (pushes s)
          (console s) (prevented s).
Definition set_clock (v : Q) (s : State) : State :=
  mkState (currentState s) (heap s) (objects s) (faces s) (cubeGroup s)
          (edgeGroup s) (mouse s) (camera_aspect s) v (pending s) (pushes s)
          (console s) (prevented s).
Definition set_pending (v : list Entry) (s : State) : State :=
  mkState (currentState s) (heap s) (objects s) (faces s) (cubeGroup s)
          (edgeGroup s) (mouse s) (camera_aspect s) (clock s) v (pushes s)
          (console s) (prevented s).
Definition set_pushes (v : list string) (s : State) : State :=
  mkState (currentState s) (heap s) (objects s) (faces s) (cubeGroup s)
          (edgeGroup s) (mouse s) (camera_aspect s) (clock s) (pending s) v
          (console s) (prevented s).
Definition set_console (v : list string) (s : State) : State :=
  mkState (currentState s) (heap s) (objects s) (faces s) (cubeGroup s)
          (edgeGroup s) (mouse s) (camera_aspect s) (clock s) (pending s)
          (pushes s) v (prevented s).
Definition set_prevented (v : nat) (s : State) : State :=
  mkState (currentState s) (heap s) (objects s) (faces s) (cubeGroup s)
          (edgeGroup s) (mouse s) (camera_aspect s) (clock s) (pending s)
          (pushes s) (console s) v.

(** The module-level declarations: [currentState = 'idle'], [faces = []],
    everything else not yet assigned. *)
Definition initial : State :=
  mkState idle [] [] [] 0%nat 0%nat 0%nat 0 0 [] [] [] 0%nat.

(** ** A state monad with exceptions *)

Inductive Result (A : Type) :=
| Val (a : A) (st : State)
| Throw (e : string) (st : State).
Arguments Val {A} a st.
Arguments Throw {A} e st.

Definition M (A : Type) := State -> Result A.

Definition ret {A} (a : A) : M A := fun st => Val a st.
Definition bind {A B} (m : M A) (k : A -> M B) : M B :=
  fun st => match m st with
            | Val a st' => k a st'
            | Throw e st' => Throw e st'
            end.
Definition throw {A} (e : string) : M A := fun st => Throw e st.
Definition gets {A} (f : State -> A) : M A := fun st => Val (f st) st.
Definition modify (f : State -> State) : M unit := fun st => Val tt (f st).

Declare Scope js_scope.
Delimit Scope js_scope with js.
Notation "x <- m ;; k" := (bind m (fun x => k))
  (at level 100, m at next level, right associativity) : js_scope.
Notation "m ;; k" := (bind m (fun _ => k))
  (at level 100, right associativity) : js_scope.
Local Open Scope js_scope.

(** A loop that updates a local object (here: the timeline handle). *)
Fixpoint foldM {A B} (l : list A) (b : B) (f : B -> A -> M B) : M B :=
  match l with
  | [] => ret b
  | a :: l' => b' <- f b a ;; foldM l' b' f
  end.

Fixpoint forEach {A} (l : list A) (f : A -> M unit) : M unit :=
  match l with
  | [] => ret tt
  | a :: l' => f a ;; forEach l' f
  end.

(** The state a handler leaves behind, whether it returned or threw. *)
Definition stateOf {A} (r : Result A) : State :=
  match r with Val _ st => st | Throw _ st => st end.

Definition mapState {A} (f : State -> State) (r : Result A) : Result A :=
  match r with
  | Val a st => Val a (f st)
  | Throw e st => Throw e (f st)
  end.

Definition returned {A} (r : Result A) : bool :=
  match r with Val _ _ => true | Throw _ _ => false end.

(** ** Heap and scene primitives *)

Definition alloc (o : Props) : M ref :=
  fun st => Val (length (heap st)) (set_heap (heapAlloc (heap st) o) st).

Definition getProp (r : ref) (k : string) : M Q :=
  gets (fun st => heapGet (heap st) r k).

Definition setProp (r : ref) (k : string) (v : Q) : M unit :=
  modify (fun st => set_heap (heapUpdate (propSet k v) r (heap st)) st).

Definition assignProps (r : ref) (vars : Props) : M unit :=
  modify (fun st => set_heap (heapUpdate (propsAssign vars) r (heap st)) st).

Definition newVector3 (x y z : Q) : M ref := alloc (vec3 x y z).

(** [v.set(x, y, z)] and [v.copy(c)] *)
Definition vecSet (r : ref) (x y z : Q) : M unit :=
  setProp r "x" x ;; setProp r "y" y ;; setProp r "z" z.

(** [v.clone()]: a new object holding the current components. *)
Definition vecClone (r : ref) : M ref :=
  x <- getProp r "x" ;; y <- getProp r "y" ;; z <- getProp r "z" ;;
  newVector3 x y z.

(** [new THREE.Object3D()] and its subclasses: fresh position [(0,0,0)],
    rotation [(0,0,0)] and scale [(1,1,1)]. *)
Definition newObject3D (geo mat : option ref) : M nat :=
  p <- newVector3 0 0 0 ;;
  r <- newVector3 0 0 0 ;;
  s <- newVector3 1 1 1 ;;
  fun st => Val (length (objects st))
                (set_objects (objects st ++ [mkObject3D p r s geo mat false []]) st).

Definition getObject (i : nat) : M (option Object3D) :=
  gets (fun st => objects st !! i).

(** [o.children], a [TypeError] when the variable holds no object. *)
Definition childrenOf (i : nat) : M (list nat) :=
  o <- getObject i ;;
  match o with
  | Some o => ret (children o)
  | None => throw "TypeError"
  end.

(** [parent.add(child)] *)
Definition add (parent child : nat) : M unit :=
  modify (fun st => set_objects (alter (addChild child) parent (objects st)) st).

Definition positionOf (i : nat) : M ref :=
  gets (fun st => match objects st !! i with Some o => position o | None => 0%nat end).
Definition rotationOf (i : nat) : M ref :=
  gets (fun st => match objects st !! i with Some o => rotation o | None => 0%nat end).
Definition scaleOf (i : nat) : M ref :=
  gets (fun st => match objects st !! i with Some o => scale o | None => 0%nat end).

(** ** Engine primitives that need no platform operation *)

Definition schedule (e : Entry) : M unit :=
  modify (fun st => set_pending (e :: pending st) st).

(** [gsap.to(target, { ...vars, duration })].  A tween of duration zero is
    rendered at once; any other starts at the current engine time. *)
Definition gsap_to (target : ref) (vars : Props) (duration : Q) : M unit :=
  if Qeq_bool duration 0 then assignProps target vars
  else
    now <- gets clock ;;
    schedule (mkEntry now (CTween (mkTween target vars duration None None))).

(** [gsap.delayedCall(delay, cb)] *)
Definition gsap_delayedCall (delay : Q) (cb : Callback) : M unit :=
  now <- gets clock ;;
  schedule (mkEntry (after now delay) (CCall cb)).

(** [gsap.timeline()] *)
Definition gsap_timeline : M Timeline :=
  now <- gets clock ;;
  ret (mkTimeline now 0).

(** [tl.to(target, { ...vars, duration, onStart }, position)] *)
Definition tl_to (tl : Timeline) (target : ref) (vars : Props) (duration : Q)
    (onStart : option Callback) (pos : Q) : M Timeline :=
  schedule (mkEntry (after (tl_start tl) pos)
                    (CTween (mkTween target vars duration onStart None))) ;;
  ret (mkTimeline (tl_start tl) (qmax (tl_duration tl) (pos + duration))).

(** [tl.call(cb, null, position)]; without a position the call goes to the
    current end of the timeline. *)
Definition tl_call (tl : Timeline) (cb : Callback) (pos : option Q) : M Timeline :=
  let p := match pos with Some p => p | None => tl_duration tl end in
  schedule (mkEntry (after (tl_start tl) p) (CCall cb)) ;;
  ret (mkTimeline (tl_start tl) (qmax (tl_duration tl) p)).

(** [o.userData.isEdge] as a condition: true only on a marked object. *)
Definition isEdgeObject (st : State) (i : nat) : bool :=
  match objects st !! i with
  | Some o => userData_isEdge o
  | None => false
  end.

Definition setState (c : CubeState) : M unit := modify (set_currentState c).
Definition router_push (path : string) : M unit :=
  modify (fun st => set_pushes (pushes st ++ [path]) st).
Definition console_log (s : string) : M unit :=
  modify (fun st => set_console (console st ++ [s]) st).
Definition preventDefault : M unit :=
  modify (fun st => set_prevented (S (prevented st)) st).

(** ** What the component takes from the browser and its libraries *)

Class Platform := {
  Math_PI : Q;
  Math_sqrt : Q -> Q;
  Math_atan : Q -> Q;
  Math_sin : Q -> Q;
  (** the easing curve ["power2.inOut"], from progress to ratio *)
  power2_inOut : Q -> Q;
  (** [raycaster.setFromCamera(mouse, camera)] followed by
      [raycaster.intersectObjects(roots, true)]: camera aspect, heap,
      scene graph, roots, mouse x and y *)
  intersectObjects :
    Q -> Heap -> list Object3D -> list nat -> Q -> Q -> list Intersection
}.

(** A timeline keeps its children in order of start time, and children
    with the same start in the order they were added.  [insertByStart]
    puts [e] after the children that start earlier and ahead of those
    that start at the same time or later; [sortByStart] is the insertion
    sort it gives, which leaves children with equal starts in the order
    of the list. *)
Fixpoint insertByStart (e : Entry) (l : list Entry) : list Entry :=
  match l with
  | [] => [e]
  | e' :: l' =>
      if Qle_bool (e_start e) (e_start e') then e :: l
      else e' :: insertByStart e l'
  end.

Fixpoint sortByStart (l : list Entry) : list Entry :=
  match l with
  | [] => []
  | e :: l' => insertByStart e (sortByStart l')
  end.

(** The values a tween writes at ratio [r], going from [from] to [vars]. *)
Definition interpolate (from vars : Props) (r : Q) : Props :=
  map (fun kv =>
         let s := match propGet (fst kv) from with
                  | Some s => s
                  | None => snd kv
                  end in
         (fst kv, s + (snd kv - s) * r)) vars.

Definition routePathOf (faceName : string) : string :=
  if String.eqb faceName "front" then "/web"
  else if String.eqb faceName "right" then "/3d"
  else if String.eqb faceName "left" then "/fullstack"
  else if String.eqb faceName "top" then "/about"
  else if String.eqb faceName "bottom" then "/projects"
  else if String.eqb faceName "back" then "/contact"
  else "/".

(** [src/router/index.ts]: path and name of every route record. *)
Definition routes : list (string * string) :=
  [ ("/", "Home"); ("/web", "Web"); ("/3d", "ThreeD");
    ("/fullstack", "Fullstack"); ("/about", "About");
    ("/projects", "Projects"); ("/contact", "Contact") ].

(** A platform for worked examples: the ray caster reports the given
    intersections for every pointer position, the easing curve is linear,
    and the [Math] functions are constant. *)
Definition fixedHits (hits : list Intersection) : Platform :=
  {| Math_PI := 3.14;
     Math_sqrt := fun _ => 1;
     Math_atan := fun _ => 1;
     Math_sin := fun _ => 0;
     power2_inOut := fun p => p;
     intersectObjects := fun _ _ _ _ _ _ => hits |}.

(** A platform for worked examples where an edge decoration lies in
    front of the front face (mesh 16) for pointer positions in the right
    half of the canvas: there the ray meets edge mesh 4 first and the face
    behind it; in the left half it meets the face only. *)
Definition edgeOnRight : Platform :=
  {| Math_PI := 3.14;
     Math_sqrt := fun _ => 1;
     Math_atan := fun _ => 1;
     Math_sin := fun _ => 0;
     power2_inOut := fun p => p;
     intersectObjects := fun _ _ _ _ x _ =>
       if Qle_bool x 0 then [mkIntersection 1 16]
       else [mkIntersection 1 4; mkIntersection 2 16] |}.

(** Inputs of the worked examples: a 100 x 100 canvas at the origin, a
    click at its centre, and the record [init] pushes for the front
    face. *)
Definition exampleRect : DOMRect := mkDOMRect 0 0 100 100.
Definition exampleClick : MouseEvent := mkMouseEvent 50 50.
Definition frontFace : FaceData := mkFaceData "front" "Web" 16 78 79 80 81 82 83.

(** The face-to-route table as the specification words it. *)
Definition specRouteTable : list (string * string) :=
  [ ("front", "/web"); ("right", "/3d"); ("left", "/fullstack");
    ("top", "/about"); ("bottom", "/projects"); ("back", "/contact") ].

(** The seven paths the specification lists for the router. *)
Definition specRoutePaths : list string :=
  [ "/"; "/web"; "/3d"; "/fullstack"; "/about"; "/projects"; "/contact" ].

Section Component.
Context {P : Platform}.

Definition createFace (color : Q) : M nat :=
  geo <- alloc [("width", cubeSize); ("height", cubeSize)] ;;
  mat <- alloc [("color", color); ("opacity", 1)] ;;
  newObject3D (Some geo) (Some mat).

Definition createEdge (orientation : Orientation) (center : Q * Q * Q) : M nat :=
  geo <- match orientation with
         | axis_x => alloc [("width", 1); ("height", edgeThickness); ("depth", edgeThickness)]
         | axis_y => alloc [("width", edgeThickness); ("height", 1); ("depth", edgeThickness)]
         | axis_z => alloc [("width", edgeThickness); ("height", edgeThickness); ("depth", 1)]
         end ;;
  mat <- alloc [("color", edgeColor); ("opacity", 1)] ;;
  edgeMesh <- newObject3D (Some geo) (Some mat) ;;
  p <- positionOf edgeMesh ;;
  vecSet p (fst (fst center)) (snd (fst center)) (snd center) ;;
  modify (fun st => set_objects (alter markEdge edgeMesh (objects st)) st) ;;
  ret edgeMesh.

Definition setEdgeOpacity (value duration : Q) : M unit :=
  eg <- gets edgeGroup ;;
  cs <- childrenOf eg ;;
  forEach cs (fun child =>
    c <- getObject child ;;
    match c with
    | Some (mkObject3D _ _ _ _ (Some mat) _ _) =>
        gsap_to mat [("opacity", value)] duration
    | _ => ret tt
    end).

(** One face block of [init]: create the mesh, place it, add it to the
    cube group and push its [FaceData]. *)
Definition initFace (faceName : string) (pos : Q * Q * Q)
    (rot : option (Q * Q * Q)) (netPos menuPos : Q * Q * Q) : M unit :=
  m <- createFace (faceColor faceName) ;;
  p <- positionOf m ;;
  vecSet p (fst (fst pos)) (snd (fst pos)) (snd pos) ;;
  r <- rotationOf m ;;
  match rot with
  | Some rot => vecSet r (fst (fst rot)) (snd (fst rot)) (snd rot)
  | None => ret tt
  end ;;
  cg <- gets cubeGroup ;;
  add cg m ;;
  cp <- vecClone p ;;
  cr <- vecClone r ;;
  np <- newVector3 (fst (fst netPos)) (snd (fst netPos)) (snd netPos) ;;
  nr <- newVector3 0 0 0 ;;
  mp <- newVector3 (fst (fst menuPos)) (snd (fst menuPos)) (snd menuPos) ;;
  mr <- newVector3 0 0 0 ;;
  modify (fun st =>
    set_faces (faces st ++
      [mkFaceData faceName (faceMapping faceName) m cp cr np nr mp mr]) st).

Definition init (innerWidth innerHeight : Q) : M unit :=
  scene <- newObject3D None None ;;
  camera <- newObject3D None None ;;
  modify (set_camera_aspect (innerWidth / innerHeight)) ;;
  cp <- positionOf camera ;;
  setProp cp "z" 3 ;;
  cg <- newObject3D None None ;;
  modify (set_cubeGroup cg) ;;
  cr <- rotationOf cg ;;
  setProp cr "x" (- Math_atan (Math_sqrt 2)) ;;
  setProp cr "y" (Math_PI / 4) ;;
  add scene cg ;;
  eg <- newObject3D None None ;;
  modify (set_edgeGroup eg) ;;
  add cg eg ;;
  forEach edgesData (fun edgeDef =>
    edgeMesh <- createEdge (fst edgeDef) (snd edgeDef) ;;
    add eg edgeMesh) ;;
  m <- alloc [("x", 0); ("y", 0)] ;;
  modify (set_mouse m) ;;
  initFace "front" (0, 0, cubeSize / 2) None
           (-0.5, 0, 0) (0, 1.5, 0) ;;
  initFace "right" (cubeSize / 2, 0, 0) (Some (0, Math_PI / 2, 0))
           (0.5, 0, 0) (0, -0.5, 0) ;;
  initFace "left" (- cubeSize / 2, 0, 0) (Some (0, - Math_PI / 2, 0))
           (-1.5, 0, 0) (0, 0.5, 0) ;;
  initFace "top" (0, cubeSize / 2, 0) (Some (- Math_PI / 2, 0, 0))
           (-0.5, 1, 0) (0, 2.5, 0) ;;
  initFace "bottom" (0, - cubeSize / 2, 0) (Some (Math_PI / 2, 0, 0))
           (-0.5, -1, 0) (0, -1.5, 0) ;;
  initFace "back" (0, 0, - cubeSize / 2) (Some (0, Math_PI, 0))
           (1.5, 0, 0) (0, -2.5, 0) ;;
  ambient <- newObject3D None None ;;
  add scene ambient.

Definition onWindowResize (innerWidth innerHeight : Q) : M unit :=
  modify (set_camera_aspect (innerWidth / innerHeight)).

(** One turn of the render loop; [now] is [Date.now()]. *)
Definition animate (now : Q) : M unit :=
  cs <- gets currentState ;;
  if CubeState_eqb cs idle then
    let time := now * 0.002 in
    cg <- gets cubeGroup ;;
    p <- positionOf cg ;;
    setProp p "y" (Math_sin (time * 0.8) * 0.1) ;;
    let sc := 1 + Math_sin (time * 0.5) * 0.03 in
    s <- scaleOf cg ;;
    vecSet s sc sc sc
  else ret tt.

Definition unfoldCubeNet : M unit :=
  console_log "Unfolding cube net" ;;
  setState transitioning ;;
  cg <- gets cubeGroup ;;
  r <- rotationOf cg ;;
  gsap_to r [("x", 0); ("y", 0)] 1 ;;
  p <- positionOf cg ;;
  gsap_to p [("y", 0)] 0.5 ;;
  s <- scaleOf cg ;;
  gsap_to s [("x", 1); ("y", 1); ("z", 1)] 0.5 ;;
  fs <- gets faces ;;
  forEach fs (fun face =>
    mp <- positionOf (mesh face) ;;
    x <- getProp (netPosition face) "x" ;;
    y <- getProp (netPosition face) "y" ;;
    z <- getProp (netPosition face) "z" ;;
    gsap_to mp (vec3 x y z) 1 ;;
    mr <- rotationOf (mesh face) ;;
    x <- getProp (netRotation face) "x" ;;
    y <- getProp (netRotation face) "y" ;;
    z <- getProp (netRotation face) "z" ;;
    gsap_to mr (vec3 x y z) 1) ;;
  setEdgeOpacity 0 1 ;;
  gsap_delayedCall 1 cb_setNet.

Definition transitionToMenuAndNavigate (selectedFace : FaceData) : M unit :=
  cs <- gets currentState ;;
  if negb (CubeState_eqb cs net) && negb (CubeState_eqb cs menu) then ret tt
  else
    setState transitioning ;;
    tl <- gsap_timeline ;;
    tl <- tl_call tl cb_edgesOpaque (Some 0) ;;
    fs <- gets faces ;;
    tl <- foldM fs tl (fun tl face =>
      mp <- positionOf (mesh face) ;;
      x <- getProp (cubePosition face) "x" ;;
      y <- getProp (cubePosition face) "y" ;;
      z <- getProp (cubePosition face) "z" ;;
      tl <- tl_to tl mp (vec3 x y z) 0.5 None 0 ;;
      mr <- rotationOf (mesh face) ;;
      x <- getProp (cubeRotation face) "x" ;;
      y <- getProp (cubeRotation face) "y" ;;
      z <- getProp (cubeRotation face) "z" ;;
      tl_to tl mr (vec3 x y z) 0.5 None 0) ;;
    cg <- gets cubeGroup ;;
    s <- scaleOf cg ;;
    tl <- tl_to tl s [("x", 0.5); ("y", 0.5); ("z", 0.5)] 0.5 None 0.6 ;;
    p <- positionOf cg ;;
    tl <- tl_to tl p [("x", -2.5); ("y", 1.5); ("z", 0)] 0.5 None 0.6 ;;
    tl <- foldM fs tl (fun tl face =>
      mp <- positionOf (mesh face) ;;
      x <- getProp (menuPosition face) "x" ;;
      y <- getProp (menuPosition face) "y" ;;
      z <- getProp (menuPosition face) "z" ;;
      tl <- tl_to tl mp (vec3 x y z) 0.5 None 1.2 ;;
      mr <- rotationOf (mesh face) ;;
      x <- getProp (menuRotation face) "x" ;;
      y <- getProp (menuRotation face) "y" ;;
      z <- getProp (menuRotation face) "z" ;;
      tl_to tl mr (vec3 x y z) 0.5 None 1.2) ;;
    empty <- alloc [] ;;
    tl <- tl_to tl empty [] 0.5 (Some cb_edgesFade) 1.2 ;;
    tl <- tl_call tl (cb_menuNavigate selectedFace) None ;;
    ret tt.

Definition onCanvasClick (rect : DOMRect) (event : MouseEvent) : M unit :=
  m <- gets mouse ;;
  setProp m "x" (((clientX event - rect_left rect) / rect_width rect) * 2 - 1) ;;
  setProp m "y" (- ((clientY event - rect_top rect) / rect_height rect) * 2 + 1) ;;
  cg <- gets cubeGroup ;;
  roots <- childrenOf cg ;;
  intersects <- gets (fun st =>
    intersectObjects (camera_aspect st) (heap st) (objects st) roots
                     (heapGet (heap st) m "x") (heapGet (heap st) m "y")) ;;
  if (0 <? length intersects)%nat then
    match intersects !! 0%nat with
    | None => throw "TypeError"
    | Some first =>
        let clickedMesh := object first in
        isEdge <- gets (fun st => isEdgeObject st clickedMesh) ;;
        if isEdge then ret tt
        else
          cs <- gets currentState ;;
          if CubeState_eqb cs idle then unfoldCubeNet
          else if CubeState_eqb cs net || CubeState_eqb cs menu then
            fs <- gets faces ;;
            match List.find (fun f => Nat.eqb (mesh f) clickedMesh) fs with
            | Some face => transitionToMenuAndNavigate face
            | None => ret tt
            end
          else ret tt
    end
  else ret tt.

Definition onCanvasTouch (rect : DOMRect) (event : TouchEvent) : M unit :=
  preventDefault ;;
  match touches event !! 0%nat with
  | None => throw "TypeError"
  | Some touch =>
      let syntheticEvent :=
        mkMouseEvent (touch_clientX touch) (touch_clientY touch) in
      onCanvasClick rect syntheticEvent
  end.

(** *** Running the engine *)

Definition runCallback (cb : Callback) : M unit :=
  match cb with
  | cb_setNet => setState net
  | cb_edgesOpaque => setEdgeOpacity 1 0
  | cb_edgesFade => setEdgeOpacity 0 0.5
  | cb_menuNavigate selectedFace =>
      setState menu ;;
      router_push (routePathOf (name selectedFace))
  end.

(** The playhead of the child [e] is past its start at engine time [t]. *)
Definition started (t : Q) (e : Entry) : bool :=
  negb (Qle_bool t (e_start e)).

(** Render one child at engine time [t] (its start is not after [t]).  A
    call runs.  A tween records its start values the first time it is
    rendered, which may be on the very tick of its start; its [onStart]
    runs on the first render with the playhead past the start, and only
    once.  The tween writes its end values once its duration has elapsed,
    and an eased intermediate value (and stays on the timeline) before
    that. *)
Definition render (t : Q) (e : Entry) : M unit :=
  match e_child e with
  | CCall cb => runCallback cb
  | CTween tw =>
      from <- match tw_from tw with
              | Some f => ret f
              | None =>
                  gets (fun st =>
                    map (fun kv =>
                           (fst kv, heapGet (heap st) (tw_target tw) (fst kv)))
                        (tw_vars tw))
              end ;;
      match tw_onStart tw with
      | Some cb => if started t e then runCallback cb else ret tt
      | None => ret tt
      end ;;
      if Qle_bool (e_start e + tw_duration tw) t then
        assignProps (tw_target tw) (tw_vars tw)
      else
        let ratio := power2_inOut ((t - e_start e) / tw_duration tw) in
        assignProps (tw_target tw) (interpolate from (tw_vars tw) ratio) ;;
        schedule (mkEntry (e_start e)
                    (CTween (mkTween (tw_target tw) (tw_vars tw)
                               (tw_duration tw)
                               (if started t e then None else tw_onStart tw)
                               (Some from))))
  end.

(** The engine's ticker moves the root timeline to time [t]: every child
    whose start has been reached is taken off the timeline and rendered,
    in order of start time (insertion order among equal starts).  Time
    does not run backwards. *)
Definition tick (t : Q) : M unit :=
  now <- gets clock ;;
  if Qle_bool now t then
    due <- gets (fun st =>
      sortByStart
        (List.filter (fun e => Qle_bool (e_start e) t) (rev (pending st)))) ;;
    modify (fun st =>
      set_clock t
        (set_pending
           (List.filter (fun e => negb (Qle_bool (e_start e) t)) (pending st))
           st)) ;;
    forEach due (render t)
  else ret tt.

(** *** The component as a transition system *)

Inductive Event :=
| Click (rect : DOMRect) (e : MouseEvent)
| TouchStart (rect : DOMRect) (e : TouchEvent)
| Frame (now : Q)                 (* requestAnimationFrame -> animate *)
| Tick (t : Q)                    (* the tween engine's ticker *)
| Resize (innerWidth innerHeight : Q).

Definition handle (ev : Event) : M unit :=
  match ev with
  | Click rect e => onCanvasClick rect e
  | TouchStart rect e => onCanvasTouch rect e
  | Frame now => animate now
  | Tick t => tick t
  | Resize w h => onWindowResize w h
  end.

(** An exception that escapes a handler is reported by the browser and
    the page goes on with the state the handler left. *)
Definition step (st : State) (ev : Event) : State := stateOf (handle ev st).

Definition run (evs : list Event) (st : State) : State := fold_left step evs st.

(** [onMounted]: [init(); animate();] *)
Definition mounted (innerWidth innerHeight now : Q) : State :=
  stateOf ((init innerWidth innerHeight ;; animate now) initial).

Inductive ReachableFrom (s0 : State) : State -> Prop :=
| reach_start : ReachableFrom s0 s0
| reach_step st ev : ReachableFrom s0 st -> ReachableFrom s0 (step st ev).

Definition Reachable (st : State) : Prop :=
  exists w h now, ReachableFrom (mounted w h now) st.

(** *** Notions used in the statements *)

(** Normalized device coordinates of a pointer position. *)
Definition ndcX (rect : DOMRect) (event : MouseEvent) : Q :=
  ((clientX event - rect_left rect) / rect_width rect) * 2 - 1.
Definition ndcY (rect : DOMRect) (event : MouseEvent) : Q :=
  - ((clientY event - rect_top rect) / rect_height rect) * 2 + 1.

(** The state with the [mouse] vector set from a pointer position, which
    is all a click changes when it starts no transition. *)
Definition withMouse (rect : DOMRect) (event : MouseEvent) (st : State) : State :=
  set_heap
    (heapUpdate (propSet "y" (ndcY rect event)) (mouse st)
       (heapUpdate (propSet "x" (ndcX rect event)) (mouse st) (heap st)))
    st.

(** What the ray caster returns for a click in state [st]. *)
Definition intersectionsAt (rect : DOMRect) (event : MouseEvent) (st : State)
    : list Intersection :=
  let st' := withMouse rect event st in
  intersectObjects (camera_aspect st') (heap st') (objects st')
    (match objects st' !! cubeGroup st' with
     | Some o => children o
     | None => []
     end)
    (heapGet (heap st') (mouse st') "x") (heapGet (heap st') (mouse st') "y").

(** The face the click handler hands on: the first intersection decides. *)
Definition selectedFace (rect : DOMRect) (event : MouseEvent) (st : State)
    : option FaceData :=
  match intersectionsAt rect event st !! 0%nat with
  | Some first =>
      if isEdgeObject st (object first) then None
      else List.find (fun f => Nat.eqb (mesh f) (object first)) (faces st)
  | None => None
  end.

(** The hit test as the specification words it: decorations are left
    out, and the nearest remaining intersection that is a face wins. *)
Definition specNearestFace (rect : DOMRect) (event : MouseEvent) (st : State)
    : option FaceData :=
  match List.filter (fun i => negb (isEdgeObject st (object i)))
                    (intersectionsAt rect event st) !! 0%nat with
  | Some first =>
      List.find (fun f => Nat.eqb (mesh f) (object first)) (faces st)
  | None => None
  end.

(** Entries that still carry a callback, and those whose callback ends a
    transition. *)
Definition armed (e : Entry) : option Callback :=
  match e_child e with
  | CCall cb => Some cb
  | CTween tw => tw_onStart tw
  end.

Definition isCompletion (cb : Callback) : bool :=
  match cb with
  | cb_setNet | cb_menuNavigate _ => true
  | cb_edgesOpaque | cb_edgesFade => false
  end.

Definition completing (e : Entry) : bool :=
  match armed e with
  | Some cb => isCompletion cb
  | None => false
  end.

(** The transitions in flight: the completion callbacks still on the
    timeline. *)
Definition inFlight (st : State) : list Entry :=
  List.filter completing (pending st).

(** The state a completion callback leaves. *)
Definition targetOf (cb : Callback) : CubeState :=
  match cb with
  | cb_setNet => net
  | cb_menuNavigate _ => menu
  | _ => transitioning
  end.

Definition pushOf (cb : Callback) : list string :=
  match cb with
  | cb_menuNavigate f => [routePathOf (name f)]
  | _ => []
  end.

(** All engine ticks of [evs] come before time [T]. *)
Definition before (T : Q) (evs : list Event) : Prop :=
  Forall (fun ev => match ev with Tick t => t < T | _ => True end) evs.

(** No engine tick of [evs] comes after time [T]. *)
Definition upTo (T : Q) (evs : list Event) : Prop :=
  Forall (fun ev => match ev with Tick t => t <= T | _ => True end) evs.

(** The tweens that fade the edge decorations: target opacities of the
    pending tweens on the materials of the edge group's children. *)
Definition edgeMaterials (st : State) : list ref :=
  match objects st !! edgeGroup st with
  | Some eg =>
      omap (fun c => match objects st !! c with
                     | Some o => material o
                     | None => None
                     end) (children eg)
  | None => []
  end.

Definition opacityTargets (st : State) (mat : ref) : list Q :=
  omap (fun e => match e_child e with
                 | CTween tw =>
                     if Nat.eqb (tw_target tw) mat
                     then propGet "opacity" (tw_vars tw) else None
                 | CCall _ => None
                 end) (pending st).

Definition opacityOf (st : State) (mat : ref) : Q :=
  heapGet (heap st) mat "opacity".

(** *** The scene after [init] *)

Definition faces0 : list FaceData :=
  Eval vm_compute in faces (mounted 1 1 0).
Definition scene0 : list Object3D :=
  Eval vm_compute in objects (mounted 1 1 0).

Definition tableRefsOf (f : FaceData) : list ref :=
  [ cubePosition f; cubeRotation f; netPosition f; netRotation f;
    menuPosition f; menuRotation f ].

(** The heap objects that hold the layout table. *)
Definition tableRefs : list ref :=
  Eval vm_compute in flat_map tableRefsOf faces0.

(** Objects the tween engine and the render loop must leave alone: the
    layout table and the [mouse] vector. *)
Definition protected (r : ref) : bool :=
  Nat.eqb r 72 || existsb (Nat.eqb r) tableRefs.

(** A tween that animates an opacity takes it to zero. *)
Definition fadesOut (vars : list (string * Q)) : bool :=
  match propGet "opacity" vars with
  | Some v => Qeq_bool v 0
  | None => true
  end.

(** An [onStart] that ends no transition. *)
Definition quietStart (onStart : option Callback) : bool :=
  match onStart with
  | Some cb => negb (isCompletion cb)
  | None => true
  end.

Definition safeEntry (e : Entry) : bool :=
  match e_child e with
  | CTween tw =>
      negb (protected (tw_target tw))
      && (fadesOut (tw_vars tw) && quietStart (tw_onStart tw))
  | CCall _ => true
  end.

Definition benign (e : Entry) : Prop :=
  completing e = false /\ safeEntry e = true.

Definition Struct (st : State) : Prop :=
  faces st = faces0 /\ objects st = scene0 /\ cubeGroup st = 2%nat /\
  edgeGroup st = 3%nat /\ mouse st = 72%nat.

(** Effect on state and route pushes of running callbacks in order. *)
Definition applyCb (cp : CubeState * list string) (cb : Callback)
    : CubeState * list string :=
  match cb with
  | cb_setNet => (net, snd cp)
  | cb_menuNavigate f => (menu, snd cp ++ [routePathOf (name f)])
  | _ => cp
  end.

Definition completionOf (e : Entry) : list Callback :=
  match armed e with
  | Some cb => if isCompletion cb then [cb] else []
  | None => []
  end.

(** [Effect cbs st st']: [st'] comes from [st] by running the completion
    callbacks [cbs], writing unprotected heap objects, allocating, and
    putting benign entries on the timeline. *)
Definition Effect (cbs : list Callback) (st st' : State) : Prop :=
  Struct st' /\
  clock st' = clock st /\
  camera_aspect st' = camera_aspect st /\
  prevented st' = prevented st /\
  (length (heap st) <= length (heap st'))%nat /\
  (forall r, protected r = true -> heap st' !! r = heap st !! r) /\
  (exists new, pending st' = new ++ pending st /\ Forall benign new) /\
  (currentState st', pushes st')
    = fold_left applyCb cbs (currentState st, pushes st).

Definition ControlInv (st : State) : Prop :=
  match currentState st with
  | transitioning =>
      exists T cb, inFlight st = [mkEntry T (CCall cb)] /\
                   isCompletion cb = true /\ clock st < T
  | _ => inFlight st = []
  end.

Definition Inv (s0 st : State) : Prop :=
  Struct st /\
  (142 <= length (heap st))%nat /\
  (forall r, In r tableRefs -> heap st !! r = heap s0 !! r) /\
  (exists x y, heap st !! 72%nat = Some [("x", x); ("y", y)]) /\
  Forall (fun e => safeEntry e = true) (pending st) /\
  ControlInv st /\
  Forall (fun p => In p (map fst routes)) (pushes st).

Definition Good (st : State) : Prop :=
  Struct st /\ (142 <= length (heap st))%nat.

Definition HeapExt (h h' : Heap) : Prop :=
  (length h <= length h')%nat /\
  (forall r, protected r = true -> h' !! r = h !! r).

Definition PendExt (p p' : list Entry) : Prop :=
  exists new, p' = new ++ p /\ Forall benign new.

(** *** Notions used in further properties *)

(** The transform vectors of an object of the scene graph. *)
Definition objPosition (st : State) (i : nat) : ref :=
  match objects st !! i with Some o => position o | None => 0%nat end.
Definition objRotation (st : State) (i : nat) : ref :=
  match objects st !! i with Some o => rotation o | None => 0%nat end.
Definition objScale (st : State) (i : nat) : ref :=
  match objects st !! i with Some o => scale o | None => 0%nat end.

(** The paths of the six face routes. *)
Definition faceRoutePaths : list string := map snd specRouteTable.

(** *** Tweens and what they write *)

(** The materials of the twelve edge meshes of the scene. *)
Definition edgeMats0 : list ref :=
  Eval vm_compute in edgeMaterials (mounted 1 1 0).

Definition isEdgeMat (r : ref) : bool := existsb (Nat.eqb r) edgeMats0.

(** A tween on [r]. *)
Definition writer (r : ref) (e : Entry) : bool :=
  match e_child e with
  | CTween tw => Nat.eqb (tw_target tw) r
  | CCall _ => false
  end.

Definition e_duration (e : Entry) : Q :=
  match e_child e with
  | CTween tw => tw_duration tw
  | CCall _ => 0
  end.

Definition e_end (e : Entry) : Q := e_start e + e_duration e.

Definition e_vars (e : Entry) : Props :=
  match e_child e with
  | CTween tw => tw_vars tw
  | CCall _ => []
  end.

(** Children that carry one of the two edge callbacks: rendering them
    runs it, for a tween once the playhead is past its start. *)
Definition opaques (e : Entry) : bool :=
  match armed e with
  | Some cb_edgesOpaque => true
  | _ => false
  end.

Definition fades (e : Entry) : bool :=
  match armed e with
  | Some cb_edgesFade => true
  | _ => false
  end.

(** Rendering [e] can write the object [r]. *)
Definition reaches (r : ref) (e : Entry) : bool :=
  writer r e || (opaques e && isEdgeMat r).

(** A child is done at time [t]: a call always, a tween when its
    duration has elapsed. *)
Definition completes (t : Q) (e : Entry) : bool :=
  match e_child e with
  | CTween tw => Qle_bool (e_start e + tw_duration tw) t
  | CCall _ => true
  end.

(** [e'] is what [render] puts back for the unfinished tween [e]: the
    same tween with its start values, and without its [onStart] if that
    has run. *)
Definition rescheduled (e e' : Entry) : Prop :=
  exists tw from onStart,
    e_child e = CTween tw /\
    (onStart = None \/ onStart = tw_onStart tw) /\
    e' = mkEntry (e_start e)
           (CTween (mkTween (tw_target tw) (tw_vars tw) (tw_duration tw)
                      onStart (Some from))).

(** The callback that rendering [e] at engine time [t] runs. *)
Definition fired (t : Q) (e : Entry) : option Callback :=
  match e_child e with
  | CCall cb => Some cb
  | CTween tw => if started t e then tw_onStart tw else None
  end.

(** Rendering [e] at engine time [t] starts the fade of the edges. *)
Definition fadesAt (t : Q) (e : Entry) : bool :=
  match fired t e with
  | Some cb_edgesFade => true
  | _ => false
  end.

(** The tweens [setEdgeOpacity value duration] puts on the timeline at
    engine time [c], newest first. *)
Definition fadeEntries (value duration c : Q) : list Entry :=
  map (fun m =>
         mkEntry c (CTween (mkTween m [("opacity", value)] duration None None)))
      (rev edgeMats0).

(** The heap after [setEdgeOpacity 1 0]. *)
Definition opaqueHeap (h : Heap) : Heap :=
  fold_left (fun h m => heapUpdate (propsAssign [("opacity", 1)]) m h)
            edgeMats0 h.

(** The state a callback leaves. *)
Definition afterCallback (cb : Callback) (st : State) : State :=
  match cb with
  | cb_setNet => set_currentState net st
  | cb_edgesOpaque => set_heap (opaqueHeap (heap st)) st
  | cb_edgesFade =>
      set_pending (fadeEntries 0 0.5 (clock st) ++ pending st) st
  | cb_menuNavigate f =>
      set_pushes (pushes st ++ [routePathOf (name f)])
                 (set_currentState menu st)
  end.

(** The object [r] has the values [vars]. *)
Definition holds (h : Heap) (r : ref) (vars : Props) : Prop :=
  Forall (fun kv => heapGet h r (fst kv) = snd kv) vars.

(** A tween that starts at [s], lasts [d] and ends on [vars]. *)
Definition finalTween (s d : Q) (vars : Props) (e : Entry) : Prop :=
  e_start e = s /\ e_duration e = d /\ e_vars e = vars.

(** [Settled st T r vars]: whatever the ticks, once the engine clock has
    reached [T] the object [r] has the values [vars] and no tween on it is
    left.  Either nothing is going to write [r] and it has the values
    already, or the tweens on [r] that start last all end on [vars], and
    every other tween on [r] starts before them and ends no later. *)
Definition Settled (st : State) (T : Q) (r : ref) (vars : Props) : Prop :=
  let W := List.filter (writer r) (pending st) in
  Forall (fun e => 0 <= e_duration e /\ e_end e <= T) W /\
  ((W = [] /\ holds (heap st) r vars) \/
   exists s d,
     Exists (finalTween s d vars) W /\
     Forall (fun e => finalTween s d vars e \/
                      (e_start e < s /\ e_end e <= s + d)) W).

(** *** The layouts the two transitions end in *)

Definition readVec (h : Heap) (r : ref) : Props :=
  vec3 (heapGet h r "x") (heapGet h r "y") (heapGet h r "z").

Definition posRef (i : nat) : ref :=
  match scene0 !! i with Some o => position o | None => 0%nat end.
Definition rotRef (i : nat) : ref :=
  match scene0 !! i with Some o => rotation o | None => 0%nat end.
Definition scaleRef (i : nat) : ref :=
  match scene0 !! i with Some o => scale o | None => 0%nat end.

(** Where [unfoldCubeNet] takes the scene; [h0] holds the layout table. *)
Definition netGoals (h0 : Heap) : list (ref * Props) :=
  [ (rotRef 2, [("x", 0); ("y", 0)]);
    (posRef 2, [("y", 0)]);
    (scaleRef 2, [("x", 1); ("y", 1); ("z", 1)]) ]
  ++ flat_map (fun f =>
                 [ (posRef (mesh f), readVec h0 (netPosition f));
                   (rotRef (mesh f), readVec h0 (netRotation f)) ]) faces0
  ++ map (fun m => (m, [("opacity", 0)])) edgeMats0.

(** Where [transitionToMenuAndNavigate] takes the scene. *)
Definition menuGoals (h0 : Heap) : list (ref * Props) :=
  [ (rotRef 2, [("x", 0); ("y", 0)]);
    (scaleRef 2, [("x", 0.5); ("y", 0.5); ("z", 0.5)]);
    (posRef 2, [("x", -2.5); ("y", 1.5); ("z", 0)]) ]
  ++ flat_map (fun f =>
                 [ (posRef (mesh f), readVec h0 (menuPosition f));
                   (rotRef (mesh f), readVec h0 (menuRotation f)) ]) faces0.

Definition Layout (gs : list (ref * Props)) (h : Heap) : Prop :=
  Forall (fun g => holds h (fst g) (snd g)) gs.

(** A tween that fades an edge material out. *)
Definition Fading (e : Entry) : Prop :=
  exists m s d from,
    In m edgeMats0 /\ 0 <= d /\
    e = mkEntry s (CTween (mkTween m [("opacity", 0)] d None from)).

(** A child that is over by [T]. *)
Definition Timed (T : Q) (e : Entry) : Prop :=
  e_start e <= T /\ 0 <= e_duration e /\ e_end e <= T.

Definition onEdge (e : Entry) : bool :=
  match e_child e with
  | CTween tw => isEdgeMat (tw_target tw)
  | CCall _ => false
  end.

(** What the timeline and the scene look like in each state. *)
Definition Motion (s0 st : State) : Prop :=
  match currentState st with
  | idle => pending st = []
  | net => pending st = [] /\ Layout (netGoals (heap s0)) (heap st)
  | menu =>
      Forall Fading (pending st) /\ Layout (menuGoals (heap s0)) (heap st)
  | transitioning =>
      exists T cb,
        inFlight st = [mkEntry T (CCall cb)] /\
        match cb with
        | cb_setNet =>
            Forall (fun e => Timed T e /\ opaques e = false /\ fades e = false)
                   (pending st) /\
            Forall (fun g => Settled st T (fst g) (snd g))
                   (netGoals (heap s0))
        | cb_menuNavigate _ =>
            Forall (fun e => Fading e \/ (Timed T e /\ onEdge e = false))
                   (pending st) /\
            Forall (fun g => Settled st T (fst g) (snd g))
                   (menuGoals (heap s0))
        | _ => False
        end
  end.

(** *** What is animated *)

(** The objects the component writes after [init]: the [mouse] vector,
    the three transform vectors of the cube group, position and rotation
    of every face mesh, and the edge materials. *)
Definition animated (r : ref) : bool :=
  Nat.eqb r 72
  || existsb (Nat.eqb r) [posRef 2; rotRef 2; scaleRef 2]
  || existsb (fun f => Nat.eqb r (posRef (mesh f))
                       || Nat.eqb r (rotRef (mesh f))) faces0
  || isEdgeMat r.

(** A tween on an animated object, or on an object made after [init]. *)
Definition aimed (e : Entry) : bool :=
  match e_child e with
  | CTween tw => animated (tw_target tw) || (142 <=? tw_target tw)%nat
  | CCall _ => true
  end.

Definition Frozen (s0 st : State) : Prop :=
  Forall (fun e => aimed e = true) (pending st) /\
  forall r, (r < 142)%nat -> animated r = false -> heap st !! r = heap s0 !! r.

Definition objMaterial (st : State) (i : nat) : option ref :=
  match objects st !! i with Some o => material o | None => None end.

Definition edgeMeshes (st : State) : list nat :=
  match objects st !! edgeGroup st with
  | Some eg => children eg
  | None => []
  end.

(** *** The fold of the menu transition *)

(** While the faces fold back: the transition ends no earlier than [B],
    nothing on the timeline writes an edge material or makes the edges
    opaque again, no fade starts before [B], and every edge is opaque. *)
Definition Folding (B : Q) (st : State) : Prop :=
  (exists T cb, inFlight st = [mkEntry T (CCall cb)] /\ B <= T) /\
  Forall (fun e => onEdge e = false /\ opaques e = false /\
                   (fades e = true -> B <= e_start e)) (pending st) /\
  Forall (fun m => opacityOf st m = 1) edgeMats0.

(** *** The cube at rest *)

(** In Idle: the corner view [init] set, only the vertical bob, and a
    uniform scale. *)
Definition IdlePose (st : State) : Prop :=
  heap st !! rotRef 2
    = Some [("x", - Math_atan (Math_sqrt 2)); ("y", Math_PI / 4); ("z", 0)] /\
  (exists y, heap st !! posRef 2 = Some (vec3 0 y 0)) /\
  (exists sc, heap st !! scaleRef 2 = Some (vec3 sc sc sc)).

(** *** The fade at the end of the menu transition *)

(** A running fade of half a second that started no later than now. *)
Definition Fade05 (st : State) (e : Entry) : Prop :=
  Fading e /\ e_duration e = 0.5 /\ e_start e <= clock st.

(** Every edge is transparent or has a tween on the timeline. *)
Definition EdgeFate (st : State) : Prop :=
  forall m, In m edgeMats0 ->
    opacityOf st m = 0 \/ exists e, In e (pending st) /\ writer m e = true.

(** The tween whose [onStart] fades the edges. *)
Definition fadeStarter (e : Entry) : Prop :=
  exists s target from,
    e = mkEntry s (CTween (mkTween target [] 0.5 (Some cb_edgesFade) from)).

(** What a menu transition has planned for the edges: the only tweens on
    edge materials are half-second fades, the call that makes the edges
    opaque comes before the tween that starts the fade, and either that
    tween is still waiting, or no call is left and every edge is
    transparent or fading. *)
Definition EdgePlan (st : State) : Prop :=
  Forall (fun e => Fade05 st e \/ onEdge e = false) (pending st) /\
  (exists c,
     Forall (fun e => (opaques e = true -> e_start e <= c) /\
                      (fades e = true -> c < e_start e /\ fadeStarter e))
            (pending st)) /\
  ((exists e, In e (pending st) /\ fades e = true) \/
   ((forall e, In e (pending st) -> opaques e = false) /\ EdgeFate st)).

Definition EdgeInv (st : State) : Prop :=
  currentState st = menu \/
  (exists T f, inFlight st = [mkEntry T (CCall (cb_menuNavigate f))]) ->
  EdgePlan st.

(** *** The window *)

(** The size of the window after the events [evs], when it was [size] at
    mount: that of the last resize, if there was one. *)
Definition windowAfter (evs : list Event) (size : Q * Q) : Q * Q :=
  fold_left (fun sz ev =>
               match ev with
               | Resize w h => (w, h)
               | _ => sz
               end) evs size.

(** No resize of [evs] reports a window of height zero. *)
Definition tall (evs : list Event) : Prop :=
  Forall (fun ev => match ev with
                    | Resize _ h => ~ h == 0
                    | _ => True
                    end) evs.

(** *** Counting touches *)

Definition isTouchStart (ev : Event) : bool :=
  match ev with
  | TouchStart _ _ => true
  | _ => false
  end.

(** ** Proofs *)

(** *** The mounted component *)

Lemma mounted_struct w h now : Struct (mounted w h now).
Proof. repeat split; vm_compute; reflexivity. Qed.

Lemma mounted_heap_length w h now : length (heap (mounted w h now)) = 142%nat.
Proof. vm_compute; reflexivity. Qed.

Lemma mounted_idle w h now : currentState (mounted w h now) = idle.
Proof. vm_compute; reflexivity. Qed.

Lemma mounted_pending w h now : pending (mounted w h now) = [].
Proof. vm_compute; reflexivity. Qed.

Lemma mounted_pushes w h now : pushes (mounted w h now) = [].
Proof. vm_compute; reflexivity. Qed.

Lemma mounted_mouse w h now :
  heap (mounted w h now) !! 72%nat = Some [("x", 0); ("y", 0)].
Proof. vm_compute; reflexivity. Qed.

(** *** Protected references *)

Lemma protected_lt r : protected r = true -> (r < 142)%nat.
Proof.
  unfold protected. rewrite orb_true_iff, existsb_exists.
  intros [H | [x [Hin Heq]]].
  - apply Nat.eqb_eq in H. lia.
  - apply Nat.eqb_eq in Heq. subst x. unfold tableRefs in Hin.
    simpl in Hin. repeat (destruct Hin as [<- | Hin]; [lia |]). contradiction.
Qed.

Lemma protected_ge r : (142 <= r)%nat -> protected r = false.
Proof.
  intros H. destruct (protected r) eqn:E; [| reflexivity].
  apply protected_lt in E. lia.
Qed.

Lemma protected_table r : In r tableRefs -> protected r = true.
Proof.
  intros H. unfold protected. apply orb_true_iff. right.
  apply existsb_exists. exists r. split; [assumption | apply Nat.eqb_refl].
Qed.

Lemma protected_mouse : protected 72%nat = true.
Proof. reflexivity. Qed.

(** *** Heap and timeline extension *)

Lemma HeapExt_refl h : HeapExt h h.
Proof. split; [lia | reflexivity]. Qed.

Lemma HeapExt_trans h1 h2 h3 : HeapExt h1 h2 -> HeapExt h2 h3 -> HeapExt h1 h3.
Proof.
  intros [L1 F1] [L2 F2]. split; [lia |].
  intros r Hr. rewrite F2, F1 by assumption. reflexivity.
Qed.

Lemma HeapExt_update h h' f t :
  protected t = false -> HeapExt h h' -> HeapExt h (heapUpdate f t h').
Proof.
  intros Ht [L F]. unfold heapUpdate. split.
  - rewrite length_alter. exact L.
  - intros r Hr. rewrite list_lookup_alter_ne; [apply F; exact Hr |].
    intros ->. congruence.
Qed.

Lemma HeapExt_alloc h h' o :
  (142 <= length h)%nat -> HeapExt h h' -> HeapExt h (heapAlloc h' o).
Proof.
  intros Hl [L F]. unfold heapAlloc. split.
  - rewrite length_app. simpl. lia.
  - intros r Hr. rewrite lookup_app_l; [apply F; exact Hr |].
    apply protected_lt in Hr. lia.
Qed.

Lemma PendExt_refl p : PendExt p p.
Proof. exists []. split; [reflexivity | constructor]. Qed.

Lemma PendExt_cons p p' e : benign e -> PendExt p p' -> PendExt p (e :: p').
Proof.
  intros He [new [-> Hnew]]. exists (e :: new).
  split; [reflexivity | constructor; assumption].
Qed.

Lemma PendExt_trans p1 p2 p3 : PendExt p1 p2 -> PendExt p2 p3 -> PendExt p1 p3.
Proof.
  intros [n1 [-> H1]] [n2 [-> H2]]. exists (n2 ++ n1).
  split; [apply app_assoc | apply Forall_app; split; assumption].
Qed.

(** *** Effects *)

Lemma Effect_intro cbs st st' :
  Struct st' ->
  clock st' = clock st ->
  camera_aspect st' = camera_aspect st ->
  prevented st' = prevented st ->
  HeapExt (heap st) (heap st') ->
  PendExt (pending st) (pending st') ->
  (currentState st', pushes st')
    = fold_left applyCb cbs (currentState st, pushes st) ->
  Effect cbs st st'.
Proof.
  intros Hs Hc Ha Hp [Hl Hf] He Hcb. unfold Effect. tauto.
Qed.

Lemma Effect_refl st : Struct st -> Effect [] st st.
Proof.
  intros Hs. apply Effect_intro; try reflexivity; try assumption.
  - apply HeapExt_refl.
  - apply PendExt_refl.
Qed.

Lemma Effect_trans a b st1 st2 st3 :
  Effect a st1 st2 -> Effect b st2 st3 -> Effect (a ++ b) st1 st3.
Proof.
  intros (S1 & C1 & A1 & P1 & L1 & F1 & N1 & K1)
         (S2 & C2 & A2 & P2 & L2 & F2 & N2 & K2).
  apply Effect_intro; try congruence.
  - apply HeapExt_trans with (heap st2); split; assumption.
  - apply PendExt_trans with (pending st2); assumption.
  - rewrite fold_left_app, <- K1. exact K2.
Qed.

Lemma Effect_Good cbs st st' : Good st -> Effect cbs st st' -> Good st'.
Proof.
  intros [Hs Hl] (S1 & _ & _ & _ & L1 & _). split; [assumption | lia].
Qed.

(** *** Symbolic execution on the scene of [init] *)

Ltac pe :=
  cbv -[heapGet heapUpdate heapAlloc after app length Qplus Qmult Qdiv
        Qminus Qopp Qinv intersectObjects isEdgeObject List.find
        Math_sin Math_PI Math_atan Math_sqrt power2_inOut].

(** The same, computing the arithmetic on timeline offsets. *)
Ltac pe_offsets :=
  cbv -[heapGet heapUpdate heapAlloc after app length
        intersectObjects isEdgeObject List.find
        Math_sin Math_PI Math_atan Math_sqrt power2_inOut].

Ltac heap_ext :=
  repeat first [ apply HeapExt_update; [reflexivity |]
               | apply HeapExt_alloc; [assumption |] ];
  apply HeapExt_refl.

Ltac benign_tac :=
  split;
  [ reflexivity
  | first [ reflexivity
          | cbn; rewrite protected_ge by assumption; reflexivity ] ].

Ltac pend_ext :=
  repeat (apply PendExt_cons; [benign_tac |]); apply PendExt_refl.

Ltac on_scene st :=
  let Hs := fresh "Hs" in
  let Hl := fresh "Hl" in
  intros [Hs Hl];
  destruct st as [cs h objs fs cg eg m ca cl pend pu co pr];
  destruct Hs as (? & ? & ? & ? & ?); simpl in *; subst.

Lemma animate_effect now st :
  Good st -> exists st', animate now st = Val tt st' /\ Effect [] st st'.
Proof.
  on_scene st. destruct cs.
  all: eexists; split; [pe; reflexivity |].
  all: apply Effect_intro; simpl; try reflexivity;
    [ repeat split | heap_ext | pend_ext ].
Qed.

Lemma setEdgeOpacity_opaque_effect st :
  Good st ->
  exists st', setEdgeOpacity 1 0 st = Val tt st' /\ Effect [] st st'.
Proof.
  on_scene st.
  eexists; split; [pe_offsets; reflexivity |].
  apply Effect_intro; simpl; try reflexivity;
    [ repeat split | heap_ext | pend_ext ].
Qed.

Lemma setEdgeOpacity_fade_effect st :
  Good st ->
  exists st',
    setEdgeOpacity 0 0.5 st = Val tt st' /\ Effect [] st st' /\
    length (edgeMaterials st) = 12%nat /\
    Forall (fun mat =>
              In (mkEntry (clock st)
                    (CTween (mkTween mat [("opacity", 0)] 0.5 None None)))
                 (pending st'))
           (edgeMaterials st).
Proof.
  on_scene st.
  eexists; split; [pe_offsets; reflexivity |].
  split; [| split; [reflexivity |]].
  - apply Effect_intro; simpl; try reflexivity;
      [ repeat split | heap_ext | pend_ext ].
  - cbv [edgeMaterials objects edgeGroup]. simpl.
    repeat (constructor; [tauto |]). constructor.
Qed.

Lemma unfoldCubeNet_effect st :
  Good st ->
  exists st' p',
    unfoldCubeNet st = Val tt st' /\
    Struct st' /\ heap st' = heap st /\ clock st' = clock st /\
    camera_aspect st' = camera_aspect st /\ prevented st' = prevented st /\
    pushes st' = pushes st /\ currentState st' = transitioning /\
    pending st' = mkEntry (after (clock st) 1) (CCall cb_setNet) :: p' /\
    PendExt (pending st) p'.
Proof.
  on_scene st. eexists. eexists. split; [pe; reflexivity |].
  simpl. repeat split. pend_ext.
Qed.

Lemma transition_effect f st :
  Good st -> currentState st = net \/ currentState st = menu ->
  exists st' p' d,
    transitionToMenuAndNavigate f st = Val tt st' /\
    Struct st' /\ heap st' = heapAlloc (heap st) [] /\ clock st' = clock st /\
    camera_aspect st' = camera_aspect st /\ prevented st' = prevented st /\
    pushes st' = pushes st /\ currentState st' = transitioning /\
    pending st' = mkEntry (after (clock st) d) (CCall (cb_menuNavigate f)) :: p' /\
    d == 1.7 /\
    In (mkEntry (after (clock st) 1.2)
          (CTween (mkTween (length (heap st)) [] 0.5 (Some cb_edgesFade) None)))
       p' /\
    PendExt (pending st) p'.
Proof.
  on_scene st. intros [-> | ->].
  all: eexists; eexists; eexists; split; [pe_offsets; reflexivity |].
  all: simpl; repeat split; try reflexivity; try pend_ext.
  all: left; reflexivity.
Qed.

(** The click handler, case by case: it sets the [mouse] vector and then
    either returns or starts one of the two transitions. *)
Lemma onCanvasClick_cases rect ev st :
  Good st ->
  onCanvasClick rect ev st =
    let st1 := withMouse rect ev st in
    match intersectionsAt rect ev st !! 0%nat with
    | None => Val tt st1
    | Some first =>
        if isEdgeObject st (object first) then Val tt st1
        else match currentState st with
             | idle => unfoldCubeNet st1
             | transitioning => Val tt st1
             | net | menu =>
                 match List.find (fun f => Nat.eqb (mesh f) (object first))
                                 (faces st) with
                 | Some face => transitionToMenuAndNavigate face st1
                 | None => Val tt st1
                 end
             end
    end.
Proof.
  on_scene st.
  unfold onCanvasClick, intersectionsAt, withMouse, ndcX, ndcY.
  cbv [bind gets modify setProp childrenOf getObject ret throw
       objects mouse cubeGroup heap camera_aspect currentState faces set_heap].
  change (scene0 !! 2%nat)
    with (Some (mkObject3D 6 7 8 None None false [3; 16; 17; 18; 19; 20; 21]%nat)).
  cbv beta iota.
  match goal with
  | |- context [intersectObjects ?a ?b ?c ?d ?e ?f] =>
      destruct (intersectObjects a b c d e f) as [|first rest]
  end.
  - reflexivity.
  - cbn [length Nat.ltb Nat.leb lookup list_lookup].
    unfold isEdgeObject at 1 2. cbn [objects].
    destruct (match scene0 !! object first with
              | Some o => userData_isEdge o
              | None => false
              end).
    + reflexivity.
    + destruct cs; try reflexivity.
      all: cbn [CubeState_eqb orb].
      all: destruct (List.find _ _); reflexivity.
Qed.

Lemma withMouse_Good rect ev st : Good st -> Good (withMouse rect ev st).
Proof.
  intros [Hs Hl]. split; [exact Hs |].
  unfold withMouse, heapUpdate. simpl. rewrite !length_alter. exact Hl.
Qed.

Lemma withMouse_table rect ev st r :
  Struct st -> In r tableRefs -> heap (withMouse rect ev st) !! r = heap st !! r.
Proof.
  intros (_ & _ & _ & _ & Hm) Hr. unfold withMouse, heapUpdate. simpl.
  rewrite Hm. rewrite !list_lookup_alter_ne; [reflexivity | |].
  all: intros <-; revert Hr; unfold tableRefs; simpl; intuition lia.
Qed.

Lemma withMouse_mouse rect ev st :
  Struct st ->
  (exists x y, heap st !! 72%nat = Some [("x", x); ("y", y)]) ->
  heap (withMouse rect ev st) !! 72%nat
    = Some [("x", ndcX rect ev); ("y", ndcY rect ev)].
Proof.
  intros (_ & _ & _ & _ & Hm) (x & y & Hxy). unfold withMouse, heapUpdate.
  simpl. rewrite Hm.
  rewrite list_lookup_alter, list_lookup_alter, Hxy. reflexivity.
Qed.

(** *** Rendering *)

Lemma started_false t e : started t e = false <-> t <= e_start e.
Proof.
  unfold started. rewrite negb_false_iff. apply Qle_bool_iff.
Qed.

Lemma started_true t e : started t e = true <-> e_start e < t.
Proof.
  unfold started. rewrite negb_true_iff. split.
  - intros H. destruct (Qlt_le_dec (e_start e) t) as [Hlt | Hle]; [exact Hlt |].
    apply Qle_bool_iff in Hle. congruence.
  - intros H. destruct (Qle_bool t (e_start e)) eqn:Hc; [| reflexivity].
    apply Qle_bool_iff in Hc. lra.
Qed.

Lemma runCallback_effect cb st :
  Good st ->
  exists st', runCallback cb st = Val tt st' /\
              Effect (if isCompletion cb then [cb] else []) st st'.
Proof.
  intros HG. destruct cb as [| | | f]; simpl.
  - eexists. split; [reflexivity |].
    apply Effect_intro; try reflexivity;
      [exact (proj1 HG) | apply HeapExt_refl | apply PendExt_refl].
  - apply setEdgeOpacity_opaque_effect; exact HG.
  - destruct (setEdgeOpacity_fade_effect st HG) as (st' & Hrun & Heff & _).
    exists st'. auto.
  - eexists. split; [reflexivity |].
    apply Effect_intro; try reflexivity;
      [exact (proj1 HG) | apply HeapExt_refl | apply PendExt_refl].
Qed.

Lemma tween_write_effect t s target vars d onStart from st :
  Good st -> protected target = false -> fadesOut vars = true ->
  quietStart onStart = true ->
  exists st',
    (if Qle_bool (s + d) t then assignProps target vars
     else
       assignProps target
         (interpolate from vars (power2_inOut ((t - s) / d))) ;;
       schedule (mkEntry s (CTween (mkTween target vars d onStart (Some from)))))
      st = Val tt st' /\
    Effect [] st st'.
Proof.
  intros [Hs Hl] Ht Hv Hq. destruct (Qle_bool (s + d) t).
  - eexists. split; [reflexivity |].
    apply Effect_intro; try reflexivity; simpl;
      [exact Hs | apply HeapExt_update; [exact Ht | apply HeapExt_refl]
      | apply PendExt_refl].
  - eexists. split; [reflexivity |].
    apply Effect_intro; try reflexivity; simpl;
      [exact Hs | apply HeapExt_update; [exact Ht | apply HeapExt_refl] |].
    apply PendExt_cons; [| apply PendExt_refl].
    split.
    + unfold completing, armed. simpl.
      destruct onStart as [cb |]; [| reflexivity].
      apply negb_true_iff. exact Hq.
    + unfold safeEntry. simpl. rewrite Ht, Hv, Hq. reflexivity.
Qed.

Lemma safeEntry_tween s target vars d onStart from :
  safeEntry (mkEntry s (CTween (mkTween target vars d onStart from))) = true ->
  protected target = false /\ fadesOut vars = true /\
  quietStart onStart = true.
Proof.
  unfold safeEntry. simpl. intros H.
  apply andb_true_iff in H. destruct H as [H1 H2].
  apply andb_true_iff in H2. destruct H2 as [H2 H3].
  apply negb_true_iff in H1. auto.
Qed.

Lemma quietStart_completing e :
  safeEntry e = true -> (exists tw, e_child e = CTween tw) ->
  completing e = false /\ completionOf e = [].
Proof.
  destruct e as [s [[target vars d onStart from] | cb]];
    intros Hsafe (tw & Htw); [| discriminate].
  destruct (safeEntry_tween _ _ _ _ _ _ Hsafe) as (_ & _ & Hq).
  unfold completing, completionOf, armed. simpl.
  destruct onStart as [cb |]; [| auto].
  simpl in Hq. apply negb_true_iff in Hq. rewrite Hq. auto.
Qed.

Lemma render_effect t e st :
  Good st -> safeEntry e = true ->
  exists st', render t e st = Val tt st' /\ Effect (completionOf e) st st'.
Proof.
  intros HG Hsafe. destruct e as [s [[target vars d onStart from] | cb]].
  - destruct (quietStart_completing _ Hsafe) as (_ & Hnone); [eexists; reflexivity |].
    rewrite Hnone.
    destruct (safeEntry_tween _ _ _ _ _ _ Hsafe) as (Hprot & Hfade & Hq).
    set (e := mkEntry s (CTween (mkTween target vars d onStart from))).
    set (from' := match from with
                  | Some f => f
                  | None =>
                      map (fun kv => (fst kv, heapGet (heap st) target (fst kv)))
                          vars
                  end).
    assert (Hcb : exists st1,
              match onStart with
              | Some cb => if started t e then runCallback cb else ret tt
              | None => ret tt
              end st = Val tt st1 /\ Effect [] st st1).
    { destruct onStart as [cb |]; [destruct (started t e) |];
        try (exists st; split; [reflexivity | apply Effect_refl; exact (proj1 HG)]).
      destruct (runCallback_effect cb st HG) as (st1 & Hcb & Heff1).
      exists st1. split; [exact Hcb |].
      simpl in Hq. apply negb_true_iff in Hq. rewrite Hq in Heff1. exact Heff1. }
    destruct Hcb as (st1 & Hcb & Heff1).
    destruct (tween_write_effect t s target vars d
                (if started t e then None else onStart) from' st1
                (Effect_Good _ _ _ HG Heff1) Hprot Hfade)
      as (st' & Hrun & Heff).
    { destruct (started t e); [reflexivity | exact Hq]. }
    exists st'. split.
    + subst e. unfold render.
      cbn [e_child e_start tw_from tw_onStart tw_target tw_vars tw_duration].
      unfold bind, ret, gets in Hrun, Hcb |- *.
      destruct from as [f |]; cbv beta iota; rewrite Hcb; exact Hrun.
    + exact (Effect_trans [] [] _ _ _ Heff1 Heff).
  - unfold render, completionOf, armed. simpl.
    apply runCallback_effect; exact HG.
Qed.

Lemma forEach_render_effect t l : forall st,
  Good st -> Forall (fun e => safeEntry e = true) l ->
  exists st', forEach l (render t) st = Val tt st' /\
              Effect (flat_map completionOf l) st st'.
Proof.
  induction l as [| e l IH]; intros st HG Hsafe.
  - exists st. split; [reflexivity | apply Effect_refl; exact (proj1 HG)].
  - inversion Hsafe as [| ? ? He Hl]; subst.
    destruct (render_effect t e st HG He) as (st1 & Hr & Heff1).
    destruct (IH st1 (Effect_Good _ _ _ HG Heff1) Hl) as (st' & Hrun & Heff).
    exists st'. split.
    + simpl. unfold bind. rewrite Hr. exact Hrun.
    + simpl. eapply Effect_trans; eassumption.
Qed.

(** *** Sorting keeps the entries *)

Lemma insertByStart_perm e l : Permutation (insertByStart e l) (e :: l).
Proof.
  induction l as [| e' l IH]; simpl.
  - apply Permutation_refl.
  - destruct (Qle_bool (e_start e) (e_start e')).
    + apply Permutation_refl.
    + eapply perm_trans; [apply perm_skip; exact IH | apply perm_swap].
Qed.

Lemma sortByStart_perm l : Permutation (sortByStart l) l.
Proof.
  induction l as [| e l IH]; simpl.
  - apply perm_nil.
  - eapply perm_trans; [apply insertByStart_perm | apply perm_skip; exact IH].
Qed.

Lemma filter_perm {A} (p : A -> bool) l l' :
  Permutation l l' -> Permutation (List.filter p l) (List.filter p l').
Proof.
  induction 1 as [| x l l' _ IH | x y l | l l' l'' _ IH1 _ IH2]; simpl.
  - apply perm_nil.
  - destruct (p x); [apply perm_skip |]; exact IH.
  - destruct (p x), (p y); try apply Permutation_refl. apply perm_swap.
  - eapply perm_trans; eassumption.
Qed.

Lemma filter_filter_comm {A} (p q : A -> bool) l :
  List.filter p (List.filter q l) = List.filter q (List.filter p l).
Proof.
  induction l as [| x l IH]; simpl; [reflexivity |].
  destruct (q x) eqn:Hq, (p x) eqn:Hp; simpl; rewrite ?Hq, ?Hp, IH; reflexivity.
Qed.

Lemma completionOf_filter l :
  flat_map completionOf l = flat_map completionOf (List.filter completing l).
Proof.
  induction l as [| e l IH]; simpl; [reflexivity |].
  unfold completing at 1, completionOf at 1.
  destruct (armed e) as [cb |] eqn:Ha.
  - destruct (isCompletion cb) eqn:Hc; simpl.
    + unfold completionOf at 2. rewrite Ha, Hc. simpl. rewrite IH. reflexivity.
    + exact IH.
  - exact IH.
Qed.

Lemma benign_not_completing new :
  Forall benign new -> List.filter completing new = [].
Proof.
  induction 1 as [| e l [Hc _] _ IH]; simpl; [reflexivity |].
  rewrite Hc. exact IH.
Qed.

Lemma benign_safe new :
  Forall benign new -> Forall (fun e => safeEntry e = true) new.
Proof.
  induction 1 as [| e l [_ Hs] _ IH]; constructor; assumption.
Qed.

(** *** The invariant *)

Lemma inFlight_ext st st' :
  PendExt (pending st) (pending st') -> inFlight st' = inFlight st.
Proof.
  intros (new & Hp & Hnew). unfold inFlight. rewrite Hp, List.filter_app.
  rewrite (benign_not_completing new Hnew). reflexivity.
Qed.

Lemma ControlInv_quiet st st' :
  currentState st' = currentState st -> inFlight st' = inFlight st ->
  clock st' = clock st -> ControlInv st -> ControlInv st'.
Proof.
  unfold ControlInv. intros -> -> ->. exact (fun H => H).
Qed.

Lemma ControlInv_transitioning st :
  ControlInv st -> inFlight st <> [] -> currentState st = transitioning.
Proof.
  unfold ControlInv. destruct (currentState st); congruence.
Qed.

Lemma ControlInv_clock st T cb :
  ControlInv st -> inFlight st = [mkEntry T (CCall cb)] ->
  currentState st = transitioning /\ isCompletion cb = true /\ clock st < T.
Proof.
  intros HC HF.
  assert (Ht : currentState st = transitioning)
    by (apply ControlInv_transitioning; [exact HC | rewrite HF; discriminate]).
  unfold ControlInv in HC. rewrite Ht in HC.
  destruct HC as (T' & cb' & HF' & Hc & Hlt).
  rewrite HF in HF'. injection HF' as <- <-. auto.
Qed.

Lemma Inv_start w h now : Inv (mounted w h now) (mounted w h now).
Proof.
  unfold Inv. split; [apply mounted_struct |].
  split; [rewrite mounted_heap_length; lia |].
  split; [reflexivity |].
  split; [exists 0, 0; apply mounted_mouse |].
  rewrite mounted_pending, mounted_pushes.
  split; [constructor |]. split; [| constructor].
  unfold ControlInv, inFlight. rewrite mounted_idle, mounted_pending.
  reflexivity.
Qed.

Lemma Inv_Good s0 st : Inv s0 st -> Good st.
Proof. intros (Hs & Hl & _). split; assumption. Qed.

Lemma Inv_Effect_nil s0 st st' : Inv s0 st -> Effect [] st st' -> Inv s0 st'.
Proof.
  intros (Hs & Hl & Ht & Hm & Hp & Hc & Hr)
         (S1 & C1 & A1 & P1 & L1 & F1 & N1 & K1).
  simpl in K1. injection K1 as Kc Kp.
  unfold Inv. split; [exact S1 |]. split; [lia |].
  split; [intros r Hin; rewrite F1 by (apply protected_table; exact Hin);
          apply Ht; exact Hin |].
  split; [rewrite F1 by apply protected_mouse; exact Hm |].
  split.
  - destruct N1 as (new & -> & Hnew). apply Forall_app.
    split; [apply benign_safe; exact Hnew | exact Hp].
  - split; [| rewrite Kp; exact Hr].
    apply ControlInv_quiet with st; try assumption.
    apply inFlight_ext; exact N1.
Qed.

Lemma Inv_withMouse s0 rect ev st : Inv s0 st -> Inv s0 (withMouse rect ev st).
Proof.
  intros (Hs & Hl & Ht & Hm & Hp & Hc & Hr). unfold Inv.
  split; [exact Hs |].
  split; [apply (withMouse_Good rect ev st); split; assumption |].
  split; [intros r Hin; rewrite withMouse_table by assumption;
          apply Ht; exact Hin |].
  split; [rewrite withMouse_mouse by assumption; eauto |].
  split; [exact Hp |]. split; [exact Hc | exact Hr].
Qed.

Lemma Inv_set_prevented s0 n st : Inv s0 st -> Inv s0 (set_prevented n st).
Proof. intros H. exact H. Qed.

Lemma Inv_set_camera_aspect s0 a st :
  Inv s0 st -> Inv s0 (set_camera_aspect a st).
Proof. intros H. exact H. Qed.

(** Starting the unfold in a state with nothing in flight. *)
Lemma unfold_launch s0 st :
  Inv s0 st -> inFlight st = [] ->
  exists st',
    unfoldCubeNet st = Val tt st' /\ Inv s0 st' /\
    currentState st' = transitioning /\ pushes st' = pushes st /\
    clock st' = clock st /\ heap st' = heap st /\
    prevented st' = prevented st /\
    inFlight st' = [mkEntry (after (clock st) 1) (CCall cb_setNet)].
Proof.
  intros HI HF. pose proof HI as (Hs & Hl & Ht & Hm & Hp & Hc & Hr).
  destruct (unfoldCubeNet_effect st (Inv_Good _ _ HI))
    as (st' & p' & Hrun & S1 & H1 & C1 & A1 & P1 & U1 & T1 & N1 & E1).
  assert (HF' : inFlight st' = [mkEntry (after (clock st) 1) (CCall cb_setNet)]).
  { unfold inFlight. rewrite N1. simpl.
    destruct E1 as (new & -> & Hnew). rewrite List.filter_app.
    rewrite (benign_not_completing new Hnew). fold (inFlight st).
    rewrite HF. reflexivity. }
  exists st'. split; [exact Hrun |]. split; [| repeat split; assumption].
  unfold Inv. split; [exact S1 |].
  split; [rewrite H1; exact Hl |].
  split; [intros r Hin; rewrite H1; apply Ht; exact Hin |].
  split; [rewrite H1; exact Hm |].
  split.
  - rewrite N1. constructor; [reflexivity |].
    destruct E1 as (new & -> & Hnew). apply Forall_app.
    split; [apply benign_safe; exact Hnew | exact Hp].
  - split; [| rewrite U1; exact Hr].
    unfold ControlInv. rewrite T1. eexists. eexists.
    split; [exact HF' |]. split; [reflexivity |].
    rewrite C1. unfold after. lra.
Qed.

(** Starting the menu transition for face [f]. *)
Lemma menu_launch s0 f st :
  Inv s0 st -> inFlight st = [] ->
  currentState st = net \/ currentState st = menu ->
  exists st' d,
    transitionToMenuAndNavigate f st = Val tt st' /\ Inv s0 st' /\
    currentState st' = transitioning /\ pushes st' = pushes st /\
    clock st' = clock st /\ heap st' = heapAlloc (heap st) [] /\
    prevented st' = prevented st /\ d == 1.7 /\
    inFlight st' = [mkEntry (after (clock st) d) (CCall (cb_menuNavigate f))] /\
    In (mkEntry (after (clock st) 1.2)
          (CTween (mkTween (length (heap st)) [] 0.5 (Some cb_edgesFade) None)))
       (pending st').
Proof.
  intros HI HF Hcs. pose proof HI as (Hs & Hl & Ht & Hm & Hp & Hc & Hr).
  destruct (transition_effect f st (Inv_Good _ _ HI) Hcs)
    as (st' & p' & d & Hrun & S1 & H1 & C1 & A1 & P1 & U1 & T1 & N1 & D1
        & Hfade & E1).
  assert (HF' : inFlight st'
                = [mkEntry (after (clock st) d) (CCall (cb_menuNavigate f))]).
  { unfold inFlight. rewrite N1. simpl.
    destruct E1 as (new & -> & Hnew). rewrite List.filter_app.
    rewrite (benign_not_completing new Hnew). fold (inFlight st).
    rewrite HF. reflexivity. }
  assert (Hlook : forall r, (r < 142)%nat -> heap st' !! r = heap st !! r).
  { intros r Hr'. rewrite H1. unfold heapAlloc. apply lookup_app_l. lia. }
  exists st', d. split; [exact Hrun |].
  split; [| repeat split; try assumption; rewrite N1; right; exact Hfade].
  unfold Inv. split; [exact S1 |].
  split; [rewrite H1; unfold heapAlloc; rewrite length_app; simpl; lia |].
  split; [intros r Hin; rewrite Hlook; [apply Ht; exact Hin |];
          apply protected_lt, protected_table; exact Hin |].
  split; [rewrite Hlook by lia; exact Hm |].
  split.
  - rewrite N1. constructor; [reflexivity |].
    destruct E1 as (new & -> & Hnew). apply Forall_app.
    split; [apply benign_safe; exact Hnew | exact Hp].
  - split; [| rewrite U1; exact Hr].
    unfold ControlInv. rewrite T1. eexists. eexists.
    split; [exact HF' |]. split; [reflexivity |].
    rewrite C1. unfold after. rewrite D1. lra.
Qed.

(** *** Ticks *)

Lemma tick_late t st : Qle_bool (clock st) t = false -> tick t st = Val tt st.
Proof. intros H. unfold tick, bind, gets. rewrite H. reflexivity. Qed.

Lemma tick_spec t st :
  Good st -> Forall (fun e => safeEntry e = true) (pending st) ->
  Qle_bool (clock st) t = true ->
  exists st' dueC,
    tick t st = Val tt st' /\
    Permutation dueC
      (List.filter (fun e => Qle_bool (e_start e) t) (rev (inFlight st))) /\
    Effect (flat_map completionOf dueC)
      (set_clock t
         (set_pending
            (List.filter (fun e => negb (Qle_bool (e_start e) t)) (pending st))
            st))
      st'.
Proof.
  intros HG Hp Hc.
  set (due := sortByStart
                (List.filter (fun e => Qle_bool (e_start e) t) (rev (pending st)))).
  set (st1 := set_clock t
                (set_pending
                   (List.filter (fun e => negb (Qle_bool (e_start e) t))
                                (pending st)) st)).
  assert (HG1 : Good st1) by exact HG.
  assert (Hdue : Forall (fun e => safeEntry e = true) due).
  { eapply Permutation_Forall;
      [apply Permutation_sym, sortByStart_perm |].
    apply List.Forall_forall. intros e He.
    apply List.filter_In in He. destruct He as [He _].
    apply in_rev in He.
    rewrite List.Forall_forall in Hp. apply Hp. exact He. }
  destruct (forEach_render_effect t due st1 HG1 Hdue) as (st' & Hrun & Heff).
  exists st', (List.filter completing due). split; [| split].
  - unfold tick, bind, gets, modify. rewrite Hc. exact Hrun.
  - unfold due, inFlight.
    eapply perm_trans; [apply filter_perm, sortByStart_perm |].
    rewrite filter_filter_comm, List.filter_rev. apply Permutation_refl.
  - rewrite <- completionOf_filter. exact Heff.
Qed.

Lemma routePathOf_in_routes n : In (routePathOf n) (map fst routes).
Proof.
  unfold routePathOf.
  repeat match goal with
         | |- context [if ?b then _ else _] => destruct b
         end; simpl; tauto.
Qed.

Lemma step_tick s0 st t :
  Inv s0 st ->
  Inv s0 (step st (Tick t)) /\
  returned (handle (Tick t) st) = true /\
  (forall T cb, inFlight st = [mkEntry T (CCall cb)] -> T <= t ->
     currentState (step st (Tick t)) = targetOf cb /\
     pushes (step st (Tick t)) = pushes st ++ pushOf cb /\
     inFlight (step st (Tick t)) = []) /\
  (inFlight st = [] \/
   (exists T cb, inFlight st = [mkEntry T (CCall cb)] /\ t < T) ->
     currentState (step st (Tick t)) = currentState st /\
     pushes (step st (Tick t)) = pushes st /\
     inFlight (step st (Tick t)) = inFlight st).
Proof.
  intros HI. pose proof HI as (Hs & Hl & Ht & Hm & Hp & Hc & Hr).
  unfold step, handle. destruct (Qle_bool (clock st) t) eqn:Hg.
  - destruct (tick_spec t st (Inv_Good _ _ HI) Hp Hg)
      as (st' & dueC & Hrun & Hperm & S1 & C1 & A1 & P1 & L1 & F1 & N1 & K1).
    rewrite Hrun. simpl stateOf. simpl in C1, L1, F1, N1, K1.
    assert (HF' : inFlight st'
                  = List.filter (fun e => negb (Qle_bool (e_start e) t))
                                (inFlight st)).
    { destruct N1 as (new & Hn & Hnew). unfold inFlight.
      rewrite Hn, List.filter_app, (benign_not_completing new Hnew).
      simpl. apply filter_filter_comm. }
    assert (Hbase : forall (HC : ControlInv st')
                      (HR : Forall (fun p => In p (map fst routes)) (pushes st')),
               Inv s0 st').
    { intros HC HR. unfold Inv. split; [exact S1 |]. split; [lia |].
      split; [intros r Hin; rewrite F1 by (apply protected_table; exact Hin);
              apply Ht; exact Hin |].
      split; [rewrite F1 by apply protected_mouse; exact Hm |].
      split; [| split; assumption].
      destruct N1 as (new & -> & Hnew). apply Forall_app.
      split; [apply benign_safe; exact Hnew |].
      apply List.Forall_forall. intros e He. apply List.filter_In in He.
      rewrite List.Forall_forall in Hp. apply Hp. tauto. }
    destruct (inFlight st) as [| e0 rest] eqn:HF.
    + (* nothing in flight *)
      simpl in Hperm. apply Permutation_sym, Permutation_nil in Hperm.
      subst dueC. simpl in K1. injection K1 as Kc Kp.
      assert (HI' : Inv s0 st').
      { apply Hbase; [| rewrite Kp; exact Hr].
        unfold ControlInv. rewrite Kc, HF', C1.
        unfold ControlInv in Hc. rewrite HF in Hc.
        destruct (currentState st); try exact Hc.
        destruct Hc as (? & ? & ? & _). discriminate. }
      split; [exact HI' |]. split; [reflexivity |]. split.
      * intros T cb Habs. discriminate.
      * intros _. rewrite HF'. auto.
    + (* one transition in flight *)
      assert (Hne : inFlight st <> []) by (rewrite HF; discriminate).
      pose proof (ControlInv_transitioning st Hc Hne) as Hcs.
      unfold ControlInv in Hc. rewrite Hcs in Hc.
      destruct Hc as (T0 & cb0 & HF0 & Hcomp & Hlt).
      rewrite HF in HF0. injection HF0 as -> ->.
      simpl in Hperm, HF'.
      destruct (Qle_bool T0 t) eqn:Hdue.
      * (* it completes *)
        simpl in Hperm, HF'.
        apply Permutation_sym, Permutation_length_1_inv in Hperm. subst dueC.
        assert (Hk : (currentState st', pushes st')
                     = (targetOf cb0, pushes st ++ pushOf cb0)).
        { rewrite K1. unfold completionOf, armed. simpl. rewrite Hcomp.
          destruct cb0; try discriminate; simpl;
            rewrite ?app_nil_r; reflexivity. }
        injection Hk as Kc Kp.
        assert (HI' : Inv s0 st').
        { apply Hbase.
          - unfold ControlInv. rewrite Kc, HF'.
            destruct cb0; try discriminate; reflexivity.
          - rewrite Kp. apply Forall_app. split; [exact Hr |].
            destruct cb0; try discriminate; simpl;
              [constructor
              | constructor; [apply routePathOf_in_routes | constructor]]. }
        split; [exact HI' |]. split; [reflexivity |]. split.
        -- intros T cb Heq _. injection Heq as <- <-. auto.
        -- intros [Habs | (T & cb & Heq & Hlt')]; [discriminate |].
           injection Heq as <- <-.
           apply Qle_bool_iff in Hdue. lra.
      * (* it stays in flight *)
        simpl in Hperm, HF'.
        apply Permutation_sym, Permutation_nil in Hperm. subst dueC.
        simpl in K1. injection K1 as Kc Kp.
        assert (Hlt' : t < T0).
        { destruct (Qlt_le_dec t T0) as [H | H]; [exact H |].
          apply Qle_bool_iff in H. congruence. }
        assert (HI' : Inv s0 st').
        { apply Hbase; [| rewrite Kp; exact Hr].
          unfold ControlInv. rewrite Kc, Hcs. exists T0, cb0.
          rewrite HF', C1. auto. }
        split; [exact HI' |]. split; [reflexivity |]. split.
        -- intros T cb Heq Hle. injection Heq as <- <-. lra.
        -- intros _. rewrite HF', Kc, Kp. auto.
  - rewrite (tick_late t st Hg). simpl.
    split; [exact HI |]. split; [reflexivity |]. split; [| auto].
    intros T cb HF Hle.
    destruct (ControlInv_clock st T cb Hc HF) as (_ & _ & Hlt).
    assert (Hcl : clock st <= t) by lra.
    apply Qle_bool_iff in Hcl. congruence.
Qed.

(** *** Clicks and touches *)

Lemma click_outcome s0 rect ev st :
  Inv s0 st ->
  returned (handle (Click rect ev) st) = true /\
  Inv s0 (step st (Click rect ev)) /\
  pushes (step st (Click rect ev)) = pushes st /\
  clock (step st (Click rect ev)) = clock st /\
  prevented (step st (Click rect ev)) = prevented st /\
  match intersectionsAt rect ev st !! 0%nat with
  | None => step st (Click rect ev) = withMouse rect ev st
  | Some first =>
      if isEdgeObject st (object first)
      then step st (Click rect ev) = withMouse rect ev st
      else
        match currentState st with
        | idle =>
            currentState (step st (Click rect ev)) = transitioning /\
            heap (step st (Click rect ev)) = heap (withMouse rect ev st) /\
            inFlight (step st (Click rect ev))
              = [mkEntry (after (clock st) 1) (CCall cb_setNet)]
        | transitioning => step st (Click rect ev) = withMouse rect ev st
        | net | menu =>
            match List.find (fun f => Nat.eqb (mesh f) (object first))
                            (faces st) with
            | None => step st (Click rect ev) = withMouse rect ev st
            | Some face =>
                currentState (step st (Click rect ev)) = transitioning /\
                heap (step st (Click rect ev))
                  = heapAlloc (heap (withMouse rect ev st)) [] /\
                In (mkEntry (after (clock st) 1.2)
                      (CTween (mkTween (length (heap (withMouse rect ev st)))
                                 [] 0.5 (Some cb_edgesFade) None)))
                   (pending (step st (Click rect ev))) /\
                exists d, d == 1.7 /\
                  inFlight (step st (Click rect ev))
                    = [mkEntry (after (clock st) d)
                               (CCall (cb_menuNavigate face))]
            end
        end
  end.
Proof.
  intros HI. pose proof (Inv_withMouse s0 rect ev st HI) as HI1.
  pose proof HI as (_ & _ & _ & _ & _ & Hc & _).
  unfold step, handle. rewrite onCanvasClick_cases by (eapply Inv_Good; eauto).
  cbv zeta.
  destruct (intersectionsAt rect ev st !! 0%nat) as [first |];
    [| simpl; auto 10].
  destruct (isEdgeObject st (object first)); [simpl; auto 10 |].
  unfold ControlInv in Hc.
  destruct (currentState st) eqn:Hcs.
  - destruct (unfold_launch s0 (withMouse rect ev st) HI1 Hc)
      as (st' & Hrun & HI' & Ht & Hp & Hcl & Hh & Hpr & HF).
    rewrite Hrun. simpl. auto 10.
  - destruct (List.find _ (faces st)) as [face |]; [| simpl; auto 10].
    destruct (menu_launch s0 face (withMouse rect ev st) HI1 Hc)
      as (st' & d & Hrun & HI' & Ht & Hp & Hcl & Hh & Hpr & Hd & HF & Hfd);
      [left; exact Hcs |].
    rewrite Hrun. simpl.
    split; [reflexivity |]. split; [exact HI' |]. split; [exact Hp |].
    split; [exact Hcl |]. split; [exact Hpr |]. split; [exact Ht |].
    split; [exact Hh |]. split; [exact Hfd |]. exists d. auto.
  - simpl. auto 10.
  - destruct (List.find _ (faces st)) as [face |]; [| simpl; auto 10].
    destruct (menu_launch s0 face (withMouse rect ev st) HI1 Hc)
      as (st' & d & Hrun & HI' & Ht & Hp & Hcl & Hh & Hpr & Hd & HF & Hfd);
      [right; exact Hcs |].
    rewrite Hrun. simpl.
    split; [reflexivity |]. split; [exact HI' |]. split; [exact Hp |].
    split; [exact Hcl |]. split; [exact Hpr |]. split; [exact Ht |].
    split; [exact Hh |]. split; [exact Hfd |]. exists d. auto.
Qed.

Lemma onCanvasTouch_cases rect tev st :
  onCanvasTouch rect tev st =
    match touches tev !! 0%nat with
    | None => Throw "TypeError" (set_prevented (S (prevented st)) st)
    | Some touch =>
        onCanvasClick rect
          (mkMouseEvent (touch_clientX touch) (touch_clientY touch))
          (set_prevented (S (prevented st)) st)
    end.
Proof.
  unfold onCanvasTouch, bind, preventDefault, modify.
  destruct (touches tev !! 0%nat); reflexivity.
Qed.

Lemma step_touch rect tev st :
  step st (TouchStart rect tev) =
    match touches tev !! 0%nat with
    | None => set_prevented (S (prevented st)) st
    | Some touch =>
        step (set_prevented (S (prevented st)) st)
             (Click rect (mkMouseEvent (touch_clientX touch) (touch_clientY touch)))
    end.
Proof.
  unfold step, handle. rewrite onCanvasTouch_cases.
  destruct (touches tev !! 0%nat); reflexivity.
Qed.

(** *** Every step keeps the invariant *)

Lemma Inv_step s0 st ev : Inv s0 st -> Inv s0 (step st ev).
Proof.
  intros HI. destruct ev as [rect e | rect e | now | t | w h].
  - apply (click_outcome s0 rect e st HI).
  - rewrite step_touch. destruct (touches e !! 0%nat) as [touch |].
    + apply click_outcome. apply Inv_set_prevented. exact HI.
    + apply Inv_set_prevented. exact HI.
  - destruct (animate_effect now st (Inv_Good _ _ HI)) as (st' & Hrun & Heff).
    unfold step, handle. rewrite Hrun. simpl.
    eapply Inv_Effect_nil; eassumption.
  - apply (step_tick s0 st t HI).
  - exact HI.
Qed.

Lemma Inv_reachable s0 st : Inv s0 s0 -> ReachableFrom s0 st -> Inv s0 st.
Proof.
  intros H0. induction 1 as [| st ev _ IH]; [exact H0 |].
  apply Inv_step. exact IH.
Qed.

Lemma Reachable_Inv st : Reachable st -> exists s0, Inv s0 st.
Proof.
  intros (w & h & now & Hr). exists (mounted w h now).
  apply Inv_reachable; [apply Inv_start | exact Hr].
Qed.

Lemma Inv_run s0 evs : forall st, Inv s0 st -> Inv s0 (run evs st).
Proof.
  induction evs as [| ev evs IH]; intros st HI; [exact HI |].
  simpl. apply IH, Inv_step, HI.
Qed.

Lemma Reachable_step st ev : Reachable st -> Reachable (step st ev).
Proof.
  intros (w & h & now & Hr). exists w, h, now. constructor. exact Hr.
Qed.

Lemma Reachable_run evs : forall st, Reachable st -> Reachable (run evs st).
Proof.
  induction evs as [| ev evs IH]; intros st Hr; [exact Hr |].
  simpl. apply IH, Reachable_step, Hr.
Qed.

(** *** The layout table after [init] *)

Lemma mounted_layout w h now :
  map (fun r => heap (mounted w h now) !! r) tableRefs
  = map Some
      [ (* front *)
        vec3 0 0 (cubeSize / 2); vec3 0 0 0;
        vec3 (-0.5) 0 0; vec3 0 0 0; vec3 0 1.5 0; vec3 0 0 0;
        (* right *)
        vec3 (cubeSize / 2) 0 0; vec3 0 (Math_PI / 2) 0;
        vec3 0.5 0 0; vec3 0 0 0; vec3 0 (-0.5) 0; vec3 0 0 0;
        (* left *)
        vec3 (- cubeSize / 2) 0 0; vec3 0 (- Math_PI / 2) 0;
        vec3 (-1.5) 0 0; vec3 0 0 0; vec3 0 0.5 0; vec3 0 0 0;
        (* top *)
        vec3 0 (cubeSize / 2) 0; vec3 (- Math_PI / 2) 0 0;
        vec3 (-0.5) 1 0; vec3 0 0 0; vec3 0 2.5 0; vec3 0 0 0;
        (* bottom *)
        vec3 0 (- cubeSize / 2) 0; vec3 (Math_PI / 2) 0 0;
        vec3 (-0.5) (-1) 0; vec3 0 0 0; vec3 0 (-1.5) 0; vec3 0 0 0;
        (* back *)
        vec3 0 0 (- cubeSize / 2); vec3 0 Math_PI 0;
        vec3 1.5 0 0; vec3 0 0 0; vec3 0 (-2.5) 0; vec3 0 0 0 ].
Proof. vm_compute. reflexivity. Qed.

(** Every layout vector is there, with its three components, in every
    reachable state. *)
Lemma table_reads_defined st r :
  Reachable st -> In r tableRefs ->
  exists x y z, heap st !! r = Some (vec3 x y z).
Proof.
  intros (w & h & now & Hr) Hin.
  pose proof (Inv_reachable _ _ (Inv_start w h now) Hr) as (_ & _ & Ht & _).
  rewrite (Ht r Hin).
  apply (in_map (fun r => heap (mounted w h now) !! r)) in Hin.
  rewrite mounted_layout in Hin. apply in_map_iff in Hin.
  destruct Hin as (o & <- & Ho). simpl in Ho.
  repeat (destruct Ho as [<- | Ho]; [eauto |]). contradiction.
Qed.

(** While a transition is in flight, nothing but the tick that reaches
    its end changes the sequencer. *)
Lemma step_in_flight s0 st ev T cb :
  Inv s0 st -> inFlight st = [mkEntry T (CCall cb)] ->
  match ev with Tick t => t < T | _ => True end ->
  currentState (step st ev) = transitioning /\
  pushes (step st ev) = pushes st /\
  inFlight (step st ev) = inFlight st.
Proof.
  intros HI HF Hev. pose proof HI as (_ & _ & _ & _ & _ & Hc & _).
  destruct (ControlInv_clock st T cb Hc HF) as (Hcs & _ & _).
  assert (Hclick : forall rect e st0,
             Inv s0 st0 -> currentState st0 = transitioning ->
             step st0 (Click rect e) = withMouse rect e st0).
  { intros rect e st0 HI0 Hcs0.
    destruct (click_outcome s0 rect e st0 HI0) as (_ & _ & _ & _ & _ & Hm).
    destruct (intersectionsAt rect e st0 !! 0%nat) as [first |]; [| exact Hm].
    destruct (isEdgeObject st0 (object first)); [exact Hm |].
    rewrite Hcs0 in Hm. exact Hm. }
  destruct ev as [rect e | rect e | now | t | w h].
  - rewrite Hclick by assumption. auto.
  - rewrite step_touch. destruct (touches e !! 0%nat) as [touch |].
    + rewrite Hclick; [auto | apply Inv_set_prevented; exact HI | exact Hcs].
    + auto.
  - destruct (animate_effect now st (Inv_Good _ _ HI)) as (st' & Hrun & Heff).
    unfold step, handle. rewrite Hrun. simpl.
    destruct Heff as (_ & _ & _ & _ & _ & _ & N1 & K1).
    simpl in K1. injection K1 as Kc Kp.
    rewrite Kc, Kp, (inFlight_ext st st' N1). auto.
  - destruct (step_tick s0 st t HI) as (_ & _ & _ & Hstay).
    destruct Hstay as (Kc & Kp & Kf); [right; eauto |].
    rewrite Kc, Kp, Kf. auto.
  - auto.
Qed.

Lemma run_in_flight s0 T cb evs : forall st,
  Inv s0 st -> inFlight st = [mkEntry T (CCall cb)] -> before T evs ->
  Inv s0 (run evs st) /\
  currentState (run evs st) = transitioning /\
  pushes (run evs st) = pushes st /\
  inFlight (run evs st) = [mkEntry T (CCall cb)].
Proof.
  induction evs as [| ev evs IH]; intros st HI HF Hb.
  - simpl. pose proof HI as (_ & _ & _ & _ & _ & Hc & _).
    destruct (ControlInv_clock st T cb Hc HF) as (Hcs & _ & _). auto.
  - inversion Hb as [| ? ? Hev Hrest]; subst.
    destruct (step_in_flight s0 st ev T cb HI HF Hev) as (Kc & Kp & Kf).
    simpl.
    destruct (IH (step st ev) (Inv_step s0 st ev HI)
                 (eq_trans Kf HF) Hrest) as (HI' & Hc' & Hp' & Hf').
    rewrite Hp', Kp. auto.
Qed.

(** *** Faces of the scene *)

Lemma face_facts st face :
  Struct st -> In face (faces st) ->
  isEdgeObject st (mesh face) = false /\
  List.find (fun f => Nat.eqb (mesh f) (mesh face)) (faces st) = Some face /\
  lookupString (name face) specRouteTable = Some (routePathOf (name face)).
Proof.
  intros (Hf & Ho & _) Hin. unfold isEdgeObject. rewrite Hf in *. rewrite Ho.
  unfold faces0 in Hin. simpl in Hin.
  repeat (destruct Hin as [<- | Hin]; [repeat split |]); contradiction.
Qed.

Lemma edgeMaterials_struct st st' :
  Struct st -> Struct st' -> edgeMaterials st' = edgeMaterials st.
Proof.
  intros (_ & Ho & _ & He & _) (_ & Ho' & _ & He' & _).
  unfold edgeMaterials. rewrite Ho, Ho', He, He'. reflexivity.
Qed.

(** *** Entries that wait on the timeline *)

Lemma forEach_app {A} (f : A -> M unit) l1 l2 : forall st,
  forEach (l1 ++ l2) f st = (forEach l1 f ;; forEach l2 f) st.
Proof.
  induction l1 as [| a l1 IH]; intros st; simpl.
  - reflexivity.
  - unfold bind. destruct (f a st) as [[] st1 | err st1]; [| reflexivity].
    rewrite IH. reflexivity.
Qed.

(** A tick that lands exactly on the start of a tween whose [onStart]
    fades the edges renders the tween without running [onStart]: the
    tween stays on the timeline, with its [onStart]. *)
Lemma tick_on_start s0 st t s target from :
  Inv s0 st ->
  In (mkEntry s (CTween (mkTween target [] 0.5 (Some cb_edgesFade) from)))
     (pending st) ->
  t == s -> clock st <= t ->
  exists from',
    In (mkEntry s (CTween (mkTween target [] 0.5 (Some cb_edgesFade) from')))
       (pending (step st (Tick t))).
Proof.
  intros HI Hin Hs Hcl. pose proof HI as (HS & _ & _ & _ & Hp & _).
  set (e := mkEntry s (CTween (mkTween target [] 0.5 (Some cb_edgesFade) from)))
    in *.
  assert (Hst : started t e = false).
  { apply started_false. unfold e. simpl. lra. }
  assert (Hrunning : Qle_bool (s + 0.5) t = false).
  { destruct (Qle_bool (s + 0.5) t) eqn:Hc; [| reflexivity].
    apply Qle_bool_iff in Hc. lra. }
  set (from' := match from with Some f => f | None => [] end).
  apply Qle_bool_iff in Hcl.
  unfold step, handle, tick, bind, gets, modify. rewrite Hcl.
  set (due := sortByStart
                (List.filter (fun e => Qle_bool (e_start e) t) (rev (pending st)))).
  set (st1 := set_clock t
                (set_pending
                   (List.filter (fun e => negb (Qle_bool (e_start e) t))
                                (pending st)) st)).
  assert (HG1 : Good st1) by exact (Inv_Good _ _ HI).
  assert (Hdue : Forall (fun e => safeEntry e = true) due).
  { eapply Permutation_Forall;
      [apply Permutation_sym, sortByStart_perm |].
    apply List.Forall_forall. intros e' He'.
    apply List.filter_In in He'. destruct He' as [He' _].
    apply in_rev in He'.
    rewrite List.Forall_forall in Hp. apply Hp. exact He'. }
  assert (Hine : In e due).
  { eapply Permutation_in; [apply Permutation_sym, sortByStart_perm |].
    apply List.filter_In. split; [apply in_rev; rewrite rev_involutive; exact Hin |].
    apply Qle_bool_iff. unfold e. simpl. lra. }
  apply in_split in Hine. destruct Hine as (l1 & l2 & Hsplit).
  rewrite Hsplit in Hdue |- *.
  apply Forall_app in Hdue. destruct Hdue as [Hl1 Hl2].
  inversion Hl2 as [| ? ? He Hl2']; subst.
  destruct (forEach_render_effect t l1 st1 HG1 Hl1) as (stA & HrunA & HeffA).
  pose proof (Effect_Good _ _ _ HG1 HeffA) as HGA.
  destruct (tween_write_effect t s target [] 0.5 (Some cb_edgesFade) from'
              stA HGA) as (stC & HrunC & HeffC).
  { apply (safeEntry_tween _ _ _ _ _ _ He). }
  { reflexivity. }
  { reflexivity. }
  pose proof (Effect_Good _ _ _ HGA HeffC) as HGC.
  destruct (forEach_render_effect t l2 stC HGC Hl2') as (stD & HrunD & HeffD).
  assert (Hre : render t e stA = Val tt stC).
  { unfold render, e.
    cbn [e_child e_start tw_from tw_onStart tw_target tw_vars tw_duration].
    fold e. rewrite Hst.
    unfold bind, ret, gets in HrunC |- *.
    destruct from as [f |]; cbv beta iota; cbn [map]; exact HrunC. }
  assert (Hrun : forEach (l1 ++ e :: l2) (render t) st1 = Val tt stD).
  { rewrite forEach_app. unfold bind at 1. rewrite HrunA.
    simpl forEach. unfold bind at 1. rewrite Hre. exact HrunD. }
  rewrite Hrun. simpl stateOf.
  exists (Some from').
  destruct HeffD as (_ & _ & _ & _ & _ & _ & (newD & HnD & _) & _).
  rewrite HnD. apply in_or_app. right.
  rewrite Hrunning in HrunC.
  unfold bind, assignProps, schedule, modify in HrunC.
  injection HrunC as <-. left. reflexivity.
Qed.

Lemma step_keeps_starter s0 st ev T cb s target from :
  Inv s0 st -> inFlight st = [mkEntry T (CCall cb)] ->
  In (mkEntry s (CTween (mkTween target [] 0.5 (Some cb_edgesFade) from)))
     (pending st) ->
  clock st <= s ->
  match ev with Tick t => t <= s | _ => True end ->
  (exists from',
     In (mkEntry s (CTween (mkTween target [] 0.5 (Some cb_edgesFade) from')))
        (pending (step st ev))) /\
  clock (step st ev) <= s.
Proof.
  intros HI HF Hin Hcl Hev. pose proof HI as (_ & _ & _ & _ & Hp & Hc & _).
  destruct (ControlInv_clock st T cb Hc HF) as (Hcs & _ & _).
  assert (Hclick : forall rect e0 st0,
             Inv s0 st0 -> currentState st0 = transitioning ->
             step st0 (Click rect e0) = withMouse rect e0 st0).
  { intros rect e0 st0 HI0 Hcs0.
    destruct (click_outcome s0 rect e0 st0 HI0) as (_ & _ & _ & _ & _ & Hm).
    destruct (intersectionsAt rect e0 st0 !! 0%nat) as [first |]; [| exact Hm].
    destruct (isEdgeObject st0 (object first)); [exact Hm |].
    rewrite Hcs0 in Hm. exact Hm. }
  destruct ev as [rect e0 | rect e0 | now | t | w h].
  - rewrite Hclick by assumption. split; [exists from; exact Hin | exact Hcl].
  - rewrite step_touch. destruct (touches e0 !! 0%nat) as [touch |].
    + rewrite Hclick; [| apply Inv_set_prevented; exact HI | exact Hcs].
      split; [exists from; exact Hin | exact Hcl].
    + split; [exists from; exact Hin | exact Hcl].
  - destruct (animate_effect now st (Inv_Good _ _ HI)) as (st' & Hrun & Heff).
    unfold step, handle. rewrite Hrun. simpl.
    destruct Heff as (_ & C1 & _ & _ & _ & _ & (new & Hn & _) & _).
    rewrite Hn, C1.
    split; [exists from; apply in_or_app; right; exact Hin | exact Hcl].
  - destruct (Qle_bool (clock st) t) eqn:Hg.
    2: { unfold step, handle. rewrite (tick_late t st Hg). simpl.
         split; [exists from; exact Hin | exact Hcl]. }
    assert (Hclock : clock (step st (Tick t)) = t).
    { unfold step, handle.
      destruct (tick_spec t st (Inv_Good _ _ HI) Hp Hg)
        as (st' & dueC & Hrun & _ & _ & C1 & _).
      rewrite Hrun. exact C1. }
    rewrite Hclock. split; [| exact Hev].
    destruct (Qlt_le_dec t s) as [Hlt | Hle].
    + (* the tween is not due *)
      unfold step, handle.
      destruct (tick_spec t st (Inv_Good _ _ HI) Hp Hg)
        as (st' & dueC & Hrun & _ & _ & _ & _ & _ & _ & _ & (new & Hn & _) & _).
      rewrite Hrun. simpl stateOf. simpl in Hn. rewrite Hn.
      exists from. apply in_or_app. right.
      apply List.filter_In. split; [exact Hin |].
      apply negb_true_iff. simpl.
      destruct (Qle_bool s t) eqn:Hd; [| reflexivity].
      apply Qle_bool_iff in Hd. lra.
    + (* the tick lands on its start *)
      apply Qle_bool_iff in Hg.
      apply (tick_on_start s0 st t s target from HI Hin); [lra | exact Hg].
  - split; [exists from; exact Hin | exact Hcl].
Qed.

Lemma run_keeps_starter s0 T cb s target evs : forall st from,
  Inv s0 st -> inFlight st = [mkEntry T (CCall cb)] ->
  In (mkEntry s (CTween (mkTween target [] 0.5 (Some cb_edgesFade) from)))
     (pending st) ->
  clock st <= s -> s < T -> upTo s evs ->
  Inv s0 (run evs st) /\
  (exists from',
     In (mkEntry s (CTween (mkTween target [] 0.5 (Some cb_edgesFade) from')))
        (pending (run evs st))) /\
  clock (run evs st) <= s.
Proof.
  induction evs as [| ev evs IH]; intros st from HI HF Hin Hcl HT Hb.
  - simpl. eauto.
  - inversion Hb as [| ? ? Hev Hrest]; subst. simpl.
    assert (Hev1 : match ev with Tick t => t < T | _ => True end)
      by (destruct ev; auto; lra).
    destruct (step_in_flight s0 st ev T cb HI HF Hev1) as (_ & _ & Kf).
    destruct (step_keeps_starter s0 st ev T cb s target from HI HF Hin Hcl Hev)
      as ((from' & Hin') & Hcl').
    apply (IH (step st ev) from'); try assumption.
    + apply Inv_step; exact HI.
    + rewrite Kf. exact HF.
Qed.

(** A tick past the start of a tween whose [onStart] fades the edges
    leaves a fade tween for every edge material on the timeline. *)
Lemma tick_fades s0 st t s target from :
  Inv s0 st ->
  In (mkEntry s (CTween (mkTween target [] 0.5 (Some cb_edgesFade) from)))
     (pending st) ->
  s < t -> clock st <= t ->
  length (edgeMaterials st) = 12%nat /\
  Forall (fun mat =>
            In (mkEntry t (CTween (mkTween mat [("opacity", 0)] 0.5 None None)))
               (pending (step st (Tick t))))
         (edgeMaterials st).
Proof.
  intros HI Hin Hs Hcl. pose proof HI as (HS & _ & _ & _ & Hp & _).
  set (e := mkEntry s (CTween (mkTween target [] 0.5 (Some cb_edgesFade) from)))
    in *.
  assert (Hst : started t e = true).
  { unfold started, e. simpl. apply negb_true_iff.
    destruct (Qle_bool t s) eqn:Hc; [| reflexivity].
    apply Qle_bool_iff in Hc. lra. }
  set (from' := match from with Some f => f | None => [] end).
  apply Qle_bool_iff in Hcl.
  unfold step, handle, tick, bind, gets, modify. rewrite Hcl.
  set (due := sortByStart
                (List.filter (fun e => Qle_bool (e_start e) t) (rev (pending st)))).
  set (st1 := set_clock t
                (set_pending
                   (List.filter (fun e => negb (Qle_bool (e_start e) t))
                                (pending st)) st)).
  assert (HG1 : Good st1) by exact (Inv_Good _ _ HI).
  assert (Hdue : Forall (fun e => safeEntry e = true) due).
  { eapply Permutation_Forall;
      [apply Permutation_sym, sortByStart_perm |].
    apply List.Forall_forall. intros e' He'.
    apply List.filter_In in He'. destruct He' as [He' _].
    apply in_rev in He'.
    rewrite List.Forall_forall in Hp. apply Hp. exact He'. }
  assert (Hine : In e due).
  { eapply Permutation_in; [apply Permutation_sym, sortByStart_perm |].
    apply List.filter_In. split; [apply in_rev; rewrite rev_involutive; exact Hin |].
    apply Qle_bool_iff. apply Qlt_le_weak. exact Hs. }
  apply in_split in Hine. destruct Hine as (l1 & l2 & Hsplit).
  rewrite Hsplit in Hdue |- *.
  apply Forall_app in Hdue. destruct Hdue as [Hl1 Hl2].
  inversion Hl2 as [| ? ? He Hl2']; subst.
  destruct (forEach_render_effect t l1 st1 HG1 Hl1) as (stA & HrunA & HeffA).
  pose proof (Effect_Good _ _ _ HG1 HeffA) as HGA.
  destruct (setEdgeOpacity_fade_effect stA HGA)
    as (stB & HrunB & HeffB & Hlen & Hall).
  pose proof (Effect_Good _ _ _ HGA HeffB) as HGB.
  destruct (tween_write_effect t s target [] 0.5 None from'
              stB HGB) as (stC & HrunC & HeffC).
  { apply (safeEntry_tween _ _ _ _ _ _ He). }
  { reflexivity. }
  { reflexivity. }
  pose proof (Effect_Good _ _ _ HGB HeffC) as HGC.
  destruct (forEach_render_effect t l2 stC HGC Hl2') as (stD & HrunD & HeffD).
  assert (Hrun : forEach (l1 ++ e :: l2) (render t) st1 = Val tt stD).
  { rewrite forEach_app. unfold bind at 1. rewrite HrunA.
    simpl forEach. unfold bind at 1.
    assert (Hre : render t e stA = Val tt stC).
    { unfold render, e.
      cbn [e_child e_start tw_from tw_onStart tw_target tw_vars tw_duration].
      fold e. rewrite Hst. unfold runCallback.
      unfold bind, ret, gets in HrunC |- *.
      destruct from as [f |]; cbv beta iota; cbn [map];
        rewrite HrunB; exact HrunC. }
    rewrite Hre. exact HrunD. }
  rewrite Hrun. simpl stateOf.
  assert (HSA : Struct stA) by exact (proj1 HGA).
  rewrite (edgeMaterials_struct st stA HS HSA) in Hlen, Hall.
  split; [exact Hlen |].
  assert (HclA : clock stA = t)
    by (destruct HeffA as (_ & C1 & _); exact C1).
  rewrite HclA in Hall.
  destruct HeffC as (_ & _ & _ & _ & _ & _ & (newC & HnC & _) & _).
  destruct HeffD as (_ & _ & _ & _ & _ & _ & (newD & HnD & _) & _).
  eapply List.Forall_impl; [| exact Hall].
  intros mat Hmat. rewrite HnD, HnC.
  apply in_or_app; right. apply in_or_app; right. exact Hmat.
Qed.

(** *** A transition in flight runs to its end *)

Lemma before_weaken B B' evs : B <= B' -> before B evs -> before B' evs.
Proof.
  intros HB. unfold before. apply List.Forall_impl.
  intros [] H; auto. lra.
Qed.

Lemma in_flight_completion s0 st T cb :
  Inv s0 st -> inFlight st = [mkEntry T (CCall cb)] ->
  (forall evs, before T evs ->
     currentState (run evs st) = transitioning /\
     pushes (run evs st) = pushes st) /\
  (forall evs t, before T evs -> T <= t ->
     currentState (step (run evs st) (Tick t)) = targetOf cb /\
     pushes (step (run evs st) (Tick t)) = pushes st ++ pushOf cb).
Proof.
  intros HI HF. split.
  - intros evs Hb.
    destruct (run_in_flight s0 T cb evs st HI HF Hb) as (_ & Hc & Hp & _).
    auto.
  - intros evs t Hb Ht.
    destruct (run_in_flight s0 T cb evs st HI HF Hb) as (HI' & _ & Hp & HF').
    destruct (step_tick s0 (run evs st) t HI') as (_ & _ & Hdone & _).
    destruct (Hdone T cb HF' Ht) as (Kc & Kp & _).
    rewrite Kc, Kp, Hp. auto.
Qed.

(** ** The claims *)

(** C1.  A pointer hit on a face while the state is Net or Menu ends in
    state Menu with exactly one route push, to the path the static
    one-to-one table gives for that face; the push is issued when the menu
    timeline completes (1.7 s of engine time after the hit) and not
    before. *)
Theorem menu_transition_navigates st rect ev first face :
  Reachable st ->
  currentState st = net \/ currentState st = menu ->
  intersectionsAt rect ev st !! 0%nat = Some first ->
  In face (faces st) -> object first = mesh face ->
  lookupString (name face) specRouteTable = Some (routePathOf (name face)) /\
  List.NoDup (map fst specRouteTable) /\
  List.NoDup (map snd specRouteTable) /\
  currentState (step st (Click rect ev)) = transitioning /\
  pushes (step st (Click rect ev)) = pushes st /\
  (forall evs, before (clock st + 1.7) evs ->
     currentState (run evs (step st (Click rect ev))) = transitioning /\
     pushes (run evs (step st (Click rect ev))) = pushes st) /\
  (forall evs t, before (clock st + 1.7) evs -> clock st + 1.7 <= t ->
     currentState (step (run evs (step st (Click rect ev))) (Tick t)) = menu /\
     pushes (step (run evs (step st (Click rect ev))) (Tick t))
       = pushes st ++ [routePathOf (name face)]).
Proof.
  intros Hr Hcs Hhit Hin Hobj.
  destruct (Reachable_Inv st Hr) as (s0 & HI).
  pose proof HI as (HS & _).
  destruct (face_facts st face HS Hin) as (Hedge & Hfind & Hroute).
  destruct (click_outcome s0 rect ev st HI) as (_ & HI1 & Hp & _ & _ & Hm).
  rewrite Hhit, Hobj, Hedge, Hfind in Hm.
  assert (Hm' : currentState (step st (Click rect ev)) = transitioning /\
                exists d, d == 1.7 /\
                  inFlight (step st (Click rect ev))
                    = [mkEntry (after (clock st) d)
                               (CCall (cb_menuNavigate face))]).
  { destruct Hcs as [Hcs | Hcs]; rewrite Hcs in Hm;
      destruct Hm as (H1 & _ & _ & H2); auto. }
  destruct Hm' as (Ht & d & Hd & HF).
  destruct (in_flight_completion s0 _ _ _ HI1 HF) as (Hquiet & Hdone).
  split; [exact Hroute |].
  split; [unfold specRouteTable; simpl;
          repeat (apply List.NoDup_cons; [simpl; intuition discriminate |]);
          apply List.NoDup_nil |].
  split; [unfold specRouteTable; simpl;
          repeat (apply List.NoDup_cons; [simpl; intuition discriminate |]);
          apply List.NoDup_nil |].
  split; [exact Ht |]. split; [exact Hp |].
  assert (HT : clock st + 1.7 == after (clock st) d)
    by (unfold after; rewrite Hd; reflexivity).
  split.
  - intros evs Hb. rewrite <- Hp. apply Hquiet.
    apply before_weaken with (clock st + 1.7); [rewrite HT; lra | exact Hb].
  - intros evs t Hb Hle. rewrite <- Hp. apply (Hdone evs t).
    + apply before_weaken with (clock st + 1.7); [rewrite HT; lra | exact Hb].
    + rewrite <- HT. exact Hle.
Qed.

(** C3.  From Idle, a pointer hit on any of the faces moves the state to
    Transitioning and, one second of engine time later, to Net and to no
    other state; the transition pushes no route. *)
Theorem idle_hit_unfolds_to_net st rect ev first face :
  Reachable st ->
  currentState st = idle ->
  intersectionsAt rect ev st !! 0%nat = Some first ->
  In face (faces st) -> object first = mesh face ->
  currentState (step st (Click rect ev)) = transitioning /\
  pushes (step st (Click rect ev)) = pushes st /\
  (forall evs, before (clock st + 1) evs ->
     currentState (run evs (step st (Click rect ev))) = transitioning /\
     pushes (run evs (step st (Click rect ev))) = pushes st) /\
  (forall evs t, before (clock st + 1) evs -> clock st + 1 <= t ->
     currentState (step (run evs (step st (Click rect ev))) (Tick t)) = net /\
     pushes (step (run evs (step st (Click rect ev))) (Tick t)) = pushes st).
Proof.
  intros Hr Hcs Hhit Hin Hobj.
  destruct (Reachable_Inv st Hr) as (s0 & HI).
  pose proof HI as (HS & _).
  destruct (face_facts st face HS Hin) as (Hedge & _ & _).
  destruct (click_outcome s0 rect ev st HI) as (_ & HI1 & Hp & _ & _ & Hm).
  rewrite Hhit, Hobj, Hedge, Hcs in Hm. destruct Hm as (Ht & _ & HF).
  destruct (in_flight_completion s0 _ _ _ HI1 HF) as (Hquiet & Hdone).
  split; [exact Ht |]. split; [exact Hp |]. split.
  - intros evs Hb. rewrite <- Hp. apply Hquiet. exact Hb.
  - intros evs t Hb Hle. destruct (Hdone evs t Hb Hle) as (Kc & Kp).
    simpl in Kp. rewrite app_nil_r in Kp. rewrite Kc, Kp, Hp. auto.
Qed.

(** C2.  A pointer event that arrives while the state is Transitioning is
    ignored: the handler returns having only stored the pointer position;
    the state, the timeline (so the animation in flight is neither
    cancelled nor joined by a new one, and nothing is queued) and the
    route pushes are unchanged.  Hence at most one transition is in flight
    in any reachable state. *)
Theorem events_ignored_while_transitioning st rect ev :
  Reachable st -> currentState st = transitioning ->
  handle (Click rect ev) st = Val tt (withMouse rect ev st) /\
  (forall tev touch, touches tev !! 0%nat = Some touch ->
     handle (TouchStart rect tev) st
       = Val tt (withMouse rect
                   (mkMouseEvent (touch_clientX touch) (touch_clientY touch))
                   (set_prevented (S (prevented st)) st))) /\
  currentState (step st (Click rect ev)) = transitioning /\
  pending (step st (Click rect ev)) = pending st /\
  pushes (step st (Click rect ev)) = pushes st /\
  clock (step st (Click rect ev)) = clock st /\
  (exists T cb, inFlight st = [mkEntry T (CCall cb)] /\
                inFlight (step st (Click rect ev)) = [mkEntry T (CCall cb)]) /\
  (forall st', Reachable st' -> (length (inFlight st') <= 1)%nat).
Proof.
  intros Hr Hcs. destruct (Reachable_Inv st Hr) as (s0 & HI).
  assert (Hclick : forall e st0,
             Inv s0 st0 -> currentState st0 = transitioning ->
             handle (Click rect e) st0 = Val tt (withMouse rect e st0)).
  { intros e st0 HI0 Hcs0. unfold handle.
    rewrite onCanvasClick_cases by (eapply Inv_Good; eauto). cbv zeta.
    destruct (intersectionsAt rect e st0 !! 0%nat) as [first |];
      [| reflexivity].
    destruct (isEdgeObject st0 (object first)); [reflexivity |].
    rewrite Hcs0. reflexivity. }
  assert (Hstep : step st (Click rect ev) = withMouse rect ev st)
    by (unfold step; rewrite Hclick by assumption; reflexivity).
  split; [apply Hclick; assumption |].
  split.
  { intros tev touch Htouch. unfold handle.
    rewrite onCanvasTouch_cases, Htouch.
    apply (Hclick _ (set_prevented (S (prevented st)) st));
      [apply Inv_set_prevented; exact HI | exact Hcs]. }
  rewrite Hstep.
  split; [exact Hcs |]. split; [reflexivity |]. split; [reflexivity |].
  split; [reflexivity |]. split.
  - pose proof HI as (_ & _ & _ & _ & _ & Hc & _).
    unfold ControlInv in Hc. rewrite Hcs in Hc.
    destruct Hc as (T & cb & HF & _). exists T, cb. auto.
  - intros st' Hr'. destruct (Reachable_Inv st' Hr') as (s1 & HI').
    destruct HI' as (_ & _ & _ & _ & _ & Hc & _). unfold ControlInv in Hc.
    destruct (currentState st');
      try (rewrite Hc; simpl; lia).
    destruct Hc as (T & cb & -> & _). simpl. lia.
Qed.

(** C6.  When the ray meets no mesh, or the nearest mesh it meets is an
    edge decoration, the click handler is a silent no-op in every state:
    it returns normally, and state, timeline and route pushes are
    unchanged. *)
Theorem misses_and_decorations_are_ignored st rect ev :
  Reachable st ->
  intersectionsAt rect ev st !! 0%nat = None \/
  (exists first, intersectionsAt rect ev st !! 0%nat = Some first /\
                 isEdgeObject st (object first) = true) ->
  handle (Click rect ev) st = Val tt (withMouse rect ev st) /\
  currentState (step st (Click rect ev)) = currentState st /\
  pending (step st (Click rect ev)) = pending st /\
  pushes (step st (Click rect ev)) = pushes st /\
  clock (step st (Click rect ev)) = clock st.
Proof.
  intros Hr Hhit. destruct (Reachable_Inv st Hr) as (s0 & HI).
  assert (Hrun : handle (Click rect ev) st = Val tt (withMouse rect ev st)).
  { unfold handle. rewrite onCanvasClick_cases by (eapply Inv_Good; eauto).
    cbv zeta. destruct Hhit as [-> | (first & -> & ->)]; reflexivity. }
  unfold step. rewrite Hrun. simpl. auto.
Qed.

(** C8.  Idle is the initial state, and Transitioning is not a resting
    point: a step that enters Transitioning puts exactly one completion
    callback on the timeline, 1 s ahead (unfold, to Net) or 1.7 s ahead
    (menu transition, to Menu); and from any Transitioning state the tick
    that reaches that time leaves the state Net or Menu. *)
Theorem transitioning_always_completes st :
  Reachable st ->
  currentState initial = idle /\
  (forall w h now, currentState (mounted w h now) = idle) /\
  (forall ev,
     currentState st <> transitioning ->
     currentState (step st ev) = transitioning ->
     (currentState st = idle /\
      inFlight (step st ev) = [mkEntry (clock st + 1) (CCall cb_setNet)]) \/
     ((currentState st = net \/ currentState st = menu) /\
      exists d f, d == 1.7 /\
        inFlight (step st ev)
          = [mkEntry (clock st + d) (CCall (cb_menuNavigate f))])) /\
  (currentState st = transitioning ->
   exists T cb,
     inFlight st = [mkEntry T (CCall cb)] /\ clock st < T /\
     (targetOf cb = net \/ targetOf cb = menu) /\
     forall evs t, before T evs -> T <= t ->
       currentState (step (run evs st) (Tick t)) = targetOf cb).
Proof.
  intros Hr. destruct (Reachable_Inv st Hr) as (s0 & HI).
  pose proof HI as (_ & _ & _ & _ & _ & Hc & _).
  split; [reflexivity |]. split; [apply mounted_idle |]. split.
  - assert (Hclick : forall rect e st0,
               Inv s0 st0 -> currentState st0 <> transitioning ->
               currentState (step st0 (Click rect e)) = transitioning ->
               (currentState st0 = idle /\
                inFlight (step st0 (Click rect e))
                  = [mkEntry (clock st0 + 1) (CCall cb_setNet)]) \/
               ((currentState st0 = net \/ currentState st0 = menu) /\
                exists d f, d == 1.7 /\
                  inFlight (step st0 (Click rect e))
                    = [mkEntry (clock st0 + d) (CCall (cb_menuNavigate f))])).
    { intros rect e st0 HI0 Hne Hto.
      destruct (click_outcome s0 rect e st0 HI0) as (_ & _ & _ & _ & _ & Hm).
      destruct (intersectionsAt rect e st0 !! 0%nat) as [first |];
        [| rewrite Hm in Hto; contradiction].
      destruct (isEdgeObject st0 (object first));
        [rewrite Hm in Hto; contradiction |].
      destruct (currentState st0) eqn:Hcs0.
      - left. split; [reflexivity | apply Hm].
      - destruct (List.find _ (faces st0)) as [face |];
          [| rewrite Hm in Hto; simpl in Hto; congruence].
        right. split; [auto |].
        destruct Hm as (_ & _ & _ & d & Hd & HF). exists d, face. auto.
      - contradiction.
      - destruct (List.find _ (faces st0)) as [face |];
          [| rewrite Hm in Hto; simpl in Hto; congruence].
        right. split; [auto |].
        destruct Hm as (_ & _ & _ & d & Hd & HF). exists d, face. auto. }
    intros ev Hne Hto. destruct ev as [rect e | rect e | now | t | w h].
    + apply Hclick; assumption.
    + rewrite step_touch in Hto |- *.
      destruct (touches e !! 0%nat) as [touch |]; [| contradiction].
      apply (Hclick rect _ (set_prevented (S (prevented st)) st));
        [apply Inv_set_prevented; exact HI | exact Hne | exact Hto].
    + exfalso.
      destruct (animate_effect now st (Inv_Good _ _ HI)) as (st' & Hrun & Heff).
      unfold step, handle in Hto. rewrite Hrun in Hto. simpl in Hto.
      destruct Heff as (_ & _ & _ & _ & _ & _ & _ & K1).
      simpl in K1. injection K1 as Kc Kp. congruence.
    + exfalso.
      destruct (step_tick s0 st t HI) as (_ & _ & _ & Hstay).
      unfold ControlInv in Hc.
      destruct (currentState st) eqn:Hcs; try contradiction;
        destruct Hstay as (Kc & _); auto; congruence.
    + contradiction.
  - intros Hcs. unfold ControlInv in Hc. rewrite Hcs in Hc.
    destruct Hc as (T & cb & HF & Hcomp & Hlt). exists T, cb.
    split; [exact HF |]. split; [exact Hlt |]. split.
    + destruct cb; try discriminate; simpl; auto.
    + intros evs t Hb Hle.
      apply (in_flight_completion s0 st T cb HI HF); assumption.
Qed.

(** C7.  The layout table is fixed at initialization: in every state
    reachable from the mounted component (by clicks, touches, frames of
    the render loop, engine ticks and resizes) the list of faces is the
    one [init] built, and each of the six layout vectors of each face is
    still there and holds the value it had after [init]. *)
Theorem layout_table_constant w h now st face :
  ReachableFrom (mounted w h now) st ->
  In face (faces st) ->
  faces st = faces (mounted w h now) /\
  Forall (fun r => is_Some (heap st !! r) /\
                   heap st !! r = heap (mounted w h now) !! r)
         (tableRefsOf face).
Proof.
  intros Hr Hin.
  pose proof (Inv_reachable _ _ (Inv_start w h now) Hr)
    as ((Hf & _) & Hl & Ht & _).
  destruct (mounted_struct w h now) as (Hf0 & _).
  split; [congruence |].
  apply List.Forall_forall. intros r Hr'.
  assert (Htab : In r tableRefs).
  { rewrite Hf in Hin.
    change tableRefs with (flat_map tableRefsOf faces0).
    apply in_flat_map. exists face. auto. }
  split; [| apply Ht; exact Htab].
  apply lookup_lt_is_Some.
  apply protected_table, protected_lt in Htab. lia.
Qed.

(** C9.  Every path the sequencer pushes is one of the seven paths of the
    route table: the navigation switch yields a registered path for every
    face name, and ["/"] for any name outside the six faces. *)
Theorem pushed_paths_are_routes st :
  Reachable st ->
  Forall (fun p => In p (map fst routes)) (pushes st) /\
  map fst routes = specRoutePaths /\
  (forall n, In (routePathOf n) (map fst routes)) /\
  (forall n, ~ In n (map fst specRouteTable) -> routePathOf n = "/").
Proof.
  intros Hr. destruct (Reachable_Inv st Hr) as (s0 & HI).
  destruct HI as (_ & _ & _ & _ & _ & _ & Hp).
  split; [exact Hp |]. split; [reflexivity |].
  split; [exact routePathOf_in_routes |].
  intros n Hn. unfold routePathOf.
  repeat match goal with
         | |- context [String.eqb n ?k] =>
             destruct (String.eqb_spec n k) as [-> | _];
             [exfalso; apply Hn; simpl; tauto |]
         end.
  reflexivity.
Qed.

(** *** Touch *)

Lemma unfoldCubeNet_prevented n st :
  Good st ->
  unfoldCubeNet (set_prevented n st)
    = mapState (set_prevented n) (unfoldCubeNet st).
Proof. on_scene st. pe. reflexivity. Qed.

Lemma transition_prevented n f st :
  Good st ->
  transitionToMenuAndNavigate f (set_prevented n st)
    = mapState (set_prevented n) (transitionToMenuAndNavigate f st).
Proof. on_scene st. destruct cs; pe_offsets; reflexivity. Qed.

Lemma onCanvasClick_prevented n rect e st :
  Good st ->
  onCanvasClick rect e (set_prevented n st)
    = mapState (set_prevented n) (onCanvasClick rect e st).
Proof.
  intros HG.
  rewrite (onCanvasClick_cases rect e (set_prevented n st)) by exact HG.
  rewrite (onCanvasClick_cases rect e st) by exact HG. cbv zeta.
  change (intersectionsAt rect e (set_prevented n st))
    with (intersectionsAt rect e st).
  change (isEdgeObject (set_prevented n st)) with (isEdgeObject st).
  change (currentState (set_prevented n st)) with (currentState st).
  change (faces (set_prevented n st)) with (faces st).
  change (withMouse rect e (set_prevented n st))
    with (set_prevented n (withMouse rect e st)).
  pose proof (withMouse_Good rect e st HG) as HG1.
  destruct (intersectionsAt rect e st !! 0%nat) as [first |]; [| reflexivity].
  destruct (isEdgeObject st (object first)); [reflexivity |].
  destruct (currentState st).
  - apply unfoldCubeNet_prevented; exact HG1.
  - destruct (List.find _ (faces st)); [| reflexivity].
    apply transition_prevented; exact HG1.
  - reflexivity.
  - destruct (List.find _ (faces st)); [| reflexivity].
    apply transition_prevented; exact HG1.
Qed.

(** C10.  A touch is handled like a click at the first touch point: the
    touch handler calls [preventDefault] and then runs the click handler
    on a synthetic click with the touch point's coordinates, so the state
    it leaves is the one the click leaves, but for the recorded
    [preventDefault]: same sequencer state, same timeline, same heap, same
    route pushes. *)
Theorem touch_is_click st rect tev touch :
  Reachable st ->
  touches tev !! 0%nat = Some touch ->
  onCanvasTouch rect tev st
    = (preventDefault ;;
       onCanvasClick rect
         (mkMouseEvent (touch_clientX touch) (touch_clientY touch))) st /\
  step st (TouchStart rect tev)
    = set_prevented (S (prevented st))
        (step st (Click rect
                    (mkMouseEvent (touch_clientX touch) (touch_clientY touch)))) /\
  returned (handle (TouchStart rect tev) st)
    = returned (handle (Click rect
                    (mkMouseEvent (touch_clientX touch) (touch_clientY touch)))
                  st).
Proof.
  intros Hr Htouch. destruct (Reachable_Inv st Hr) as (s0 & HI).
  pose proof (Inv_Good _ _ HI) as HG.
  split; [| split].
  - unfold onCanvasTouch, bind. rewrite Htouch. reflexivity.
  - unfold step, handle. rewrite onCanvasTouch_cases, Htouch.
    rewrite onCanvasClick_prevented by exact HG.
    destruct (onCanvasClick rect _ st); reflexivity.
  - unfold handle. rewrite onCanvasTouch_cases, Htouch.
    rewrite onCanvasClick_prevented by exact HG.
    destruct (onCanvasClick rect _ st); reflexivity.
Qed.

(** C4 (amended).  During phase (c) of the menu transition the edge
    decorations fade out: at the first tick past the start of the phase
    (1.2 s after the hit) every one of the twelve edge materials gets a
    tween that takes its opacity to 0 in 0.5 s, whatever events came
    before, a tick exactly on the start of the phase included.  No tween
    of any reachable state takes an opacity anywhere but to 0; in
    particular none takes it to 0.5. *)
Theorem edges_fade_to_transparent st rect ev first face :
  Reachable st ->
  currentState st = net \/ currentState st = menu ->
  intersectionsAt rect ev st !! 0%nat = Some first ->
  In face (faces st) -> object first = mesh face ->
  (forall evs t, upTo (clock st + 1.2) evs -> clock st + 1.2 < t ->
     length (edgeMaterials st) = 12%nat /\
     Forall (fun mat =>
               In (mkEntry t
                     (CTween (mkTween mat [("opacity", 0)] 0.5 None None)))
                  (pending (step (run evs (step st (Click rect ev))) (Tick t))))
            (edgeMaterials st)) /\
  (forall st', Reachable st' ->
     Forall (fun e =>
               match e_child e with
               | CTween tw =>
                   forall v, propGet "opacity" (tw_vars tw) = Some v -> v == 0
               | CCall _ => True
               end) (pending st')).
Proof.
  intros Hr Hcs Hhit Hin Hobj. split.
  - intros evs t Hb Ht.
    destruct (Reachable_Inv st Hr) as (s0 & HI).
    pose proof HI as (HS & _).
    destruct (face_facts st face HS Hin) as (Hedge & Hfind & _).
    destruct (click_outcome s0 rect ev st HI) as (_ & HI1 & _ & Hcl & _ & Hm).
    rewrite Hhit, Hobj, Hedge, Hfind in Hm.
    assert (Hm' : In (mkEntry (after (clock st) 1.2)
                        (CTween (mkTween (length (heap (withMouse rect ev st)))
                                   [] 0.5 (Some cb_edgesFade) None)))
                     (pending (step st (Click rect ev))) /\
                  exists d, d == 1.7 /\
                    inFlight (step st (Click rect ev))
                      = [mkEntry (after (clock st) d)
                                 (CCall (cb_menuNavigate face))]).
    { destruct Hcs as [Hcs | Hcs]; rewrite Hcs in Hm;
        destruct Hm as (_ & _ & H1 & H2); auto. }
    destruct Hm' as (Hfade & d & Hd & HF).
    destruct (run_keeps_starter s0 _ _ _ _ evs
                (step st (Click rect ev)) None HI1 HF Hfade)
      as (HI2 & (from' & Hin2) & Hcl2); try exact Hb.
    { rewrite Hcl. unfold after. lra. }
    { unfold after. rewrite Hd. lra. }
    unfold after in Hcl2.
    destruct (tick_fades s0 _ t _ _ _ HI2 Hin2) as (Hlen & Hall).
    { unfold after. exact Ht. }
    { lra. }
    pose proof HI2 as (HS2 & _).
    rewrite (edgeMaterials_struct st _ HS HS2) in Hlen, Hall. auto.
  - intros st' Hr'. destruct (Reachable_Inv st' Hr') as (s0 & HI).
    destruct HI as (_ & _ & _ & _ & Hp & _).
    eapply List.Forall_impl; [| exact Hp].
    intros [s [[target vars d onStart from] | cb]]; [| simpl; trivial].
    intros Hsafe v Hv. simpl in Hv.
    destruct (safeEntry_tween _ _ _ _ _ _ Hsafe) as (_ & Hf & _).
    unfold fadesOut in Hf. rewrite Hv in Hf.
    apply Qeq_bool_iff. exact Hf.
Qed.

(** C5 (amended).  The hit test turns the pointer position into
    normalized device coordinates, casts the ray, and lets the nearest
    intersected mesh of all meshes, face or decoration, decide: if that
    mesh is a decoration the event is dropped and no face is selected,
    whatever lies behind it; if it is a face mesh, that face is
    selected. *)
Theorem nearest_mesh_decides st rect ev :
  Reachable st ->
  (forall i j a b, (i <= j)%nat ->
     intersectionsAt rect ev st !! i = Some a ->
     intersectionsAt rect ev st !! j = Some b ->
     distance a <= distance b) ->
  heap (step st (Click rect ev)) !! mouse st
    = Some [("x", ndcX rect ev); ("y", ndcY rect ev)] /\
  intersectionsAt rect ev st
    = intersectObjects (camera_aspect st) (heap (withMouse rect ev st))
        (objects st)
        (match objects st !! cubeGroup st with
         | Some o => children o
         | None => []
         end)
        (ndcX rect ev) (ndcY rect ev) /\
  (forall first, intersectionsAt rect ev st !! 0%nat = Some first ->
     (forall a, In a (intersectionsAt rect ev st) ->
        distance first <= distance a) /\
     (isEdgeObject st (object first) = true ->
        selectedFace rect ev st = None /\
        step st (Click rect ev) = withMouse rect ev st) /\
     (forall face, In face (faces st) -> object first = mesh face ->
        selectedFace rect ev st = Some face)) /\
  (currentState st = net \/ currentState st = menu ->
     match selectedFace rect ev st with
     | Some face =>
         exists d, d == 1.7 /\
           inFlight (step st (Click rect ev))
             = [mkEntry (clock st + d) (CCall (cb_menuNavigate face))]
     | None => step st (Click rect ev) = withMouse rect ev st
     end).
Proof.
  intros Hr Hsorted. destruct (Reachable_Inv st Hr) as (s0 & HI).
  pose proof HI as (HS & Hl & _ & Hmo & _).
  pose proof HS as (_ & _ & _ & _ & Hm72).
  pose proof (withMouse_mouse rect ev st HS Hmo) as Hmouse.
  destruct (click_outcome s0 rect ev st HI) as (_ & _ & _ & _ & _ & Hm).
  split; [| split; [| split]].
  - rewrite Hm72.
    assert (Halloc : forall h' : list (list (string * Q)),
               h' = heapAlloc (heap (withMouse rect ev st)) [] ->
               h' !! 72%nat = heap (withMouse rect ev st) !! 72%nat).
    { intros h' ->. unfold heapAlloc. apply lookup_app_l.
      apply lookup_lt_is_Some. rewrite Hmouse. eauto. }
    destruct (intersectionsAt rect ev st !! 0%nat) as [first |];
      [| rewrite Hm; exact Hmouse].
    destruct (isEdgeObject st (object first)); [rewrite Hm; exact Hmouse |].
    destruct (currentState st).
    + destruct Hm as (_ & -> & _). exact Hmouse.
    + destruct (List.find _ (faces st)); [| rewrite Hm; exact Hmouse].
      destruct Hm as (_ & Hh & _). rewrite (Halloc _ Hh). exact Hmouse.
    + rewrite Hm. exact Hmouse.
    + destruct (List.find _ (faces st)); [| rewrite Hm; exact Hmouse].
      destruct Hm as (_ & Hh & _). rewrite (Halloc _ Hh). exact Hmouse.
  - unfold intersectionsAt. cbv zeta.
    change (mouse (withMouse rect ev st)) with (mouse st). rewrite Hm72.
    unfold heapGet. rewrite Hmouse. reflexivity.
  - intros first Hhit. split; [| split].
    + intros a Ha. apply list_elem_of_In, list_elem_of_lookup_1 in Ha.
      destruct Ha as (j & Hj). apply (Hsorted 0%nat j); [lia | exact Hhit | exact Hj].
    + intros Hedge. unfold selectedFace. rewrite Hhit, Hedge.
      rewrite Hhit, Hedge in Hm. auto.
    + intros face Hin Hobj.
      destruct (face_facts st face HS Hin) as (Hedge & Hfind & _).
      unfold selectedFace. rewrite Hhit, Hobj, Hedge. exact Hfind.
  - intros Hcs. unfold selectedFace.
    destruct (intersectionsAt rect ev st !! 0%nat) as [first |]; [| exact Hm].
    destruct (isEdgeObject st (object first)); [exact Hm |].
    destruct Hcs as [Hcs | Hcs]; rewrite Hcs in Hm;
      (destruct (List.find _ (faces st)) as [face |]; [| exact Hm]);
      destruct Hm as (_ & _ & _ & Hd); exact Hd.
Qed.

(** ** Further properties of the component *)

(** *** One step of the sequencer, case by case *)

Lemma step_control s0 st ev :
  Inv s0 st ->
  (currentState (step st ev) = currentState st /\
   inFlight (step st ev) = inFlight st /\
   pushes (step st ev) = pushes st) \/
  (currentState st = idle /\ currentState (step st ev) = transitioning /\
   inFlight (step st ev) = [mkEntry (clock st + 1) (CCall cb_setNet)] /\
   pushes (step st ev) = pushes st /\
   ((exists rect e, ev = Click rect e) \/
    (exists rect e, ev = TouchStart rect e))) \/
  ((currentState st = net \/ currentState st = menu) /\
   currentState (step st ev) = transitioning /\
   (exists d f, d == 1.7 /\ In f (faces st) /\
      inFlight (step st ev)
        = [mkEntry (clock st + d) (CCall (cb_menuNavigate f))]) /\
   pushes (step st ev) = pushes st /\
   ((exists rect e, ev = Click rect e) \/
    (exists rect e, ev = TouchStart rect e))) \/
  (currentState st = transitioning /\
   exists T cb t,
     inFlight st = [mkEntry T (CCall cb)] /\ ev = Tick t /\ T <= t /\
     currentState (step st ev) = targetOf cb /\
     (targetOf cb = net \/ targetOf cb = menu) /\
     inFlight (step st ev) = [] /\
     pushes (step st ev) = pushes st ++ pushOf cb).
Proof.
  intros HI. pose proof HI as (_ & _ & _ & _ & _ & Hc & _).
  assert (Hclick : forall rect e st0,
             Inv s0 st0 ->
             (currentState (step st0 (Click rect e)) = currentState st0 /\
              inFlight (step st0 (Click rect e)) = inFlight st0 /\
              pushes (step st0 (Click rect e)) = pushes st0) \/
             (currentState st0 = idle /\
              currentState (step st0 (Click rect e)) = transitioning /\
              inFlight (step st0 (Click rect e))
                = [mkEntry (clock st0 + 1) (CCall cb_setNet)] /\
              pushes (step st0 (Click rect e)) = pushes st0) \/
             ((currentState st0 = net \/ currentState st0 = menu) /\
              currentState (step st0 (Click rect e)) = transitioning /\
              (exists d f, d == 1.7 /\ In f (faces st0) /\
                 inFlight (step st0 (Click rect e))
                   = [mkEntry (clock st0 + d) (CCall (cb_menuNavigate f))]) /\
              pushes (step st0 (Click rect e)) = pushes st0)).
  { intros rect e st0 HI0.
    destruct (click_outcome s0 rect e st0 HI0) as (_ & _ & Hp & _ & _ & Hm).
    destruct (intersectionsAt rect e st0 !! 0%nat) as [first |];
      [| left; rewrite Hm; auto].
    destruct (isEdgeObject st0 (object first)); [left; rewrite Hm; auto |].
    destruct (currentState st0) eqn:Hcs0.
    - right. left. destruct Hm as (H1 & _ & H2). auto.
    - destruct (List.find _ (faces st0)) as [face |] eqn:Hfind;
        [| left; rewrite Hm; auto].
      right. right. destruct Hm as (H1 & _ & _ & d & Hd & HF).
      split; [auto |]. split; [exact H1 |]. split; [| exact Hp].
      exists d, face. split; [exact Hd |].
      split; [apply List.find_some in Hfind; tauto | exact HF].
    - left. rewrite Hm. auto.
    - destruct (List.find _ (faces st0)) as [face |] eqn:Hfind;
        [| left; rewrite Hm; auto].
      right. right. destruct Hm as (H1 & _ & _ & d & Hd & HF).
      split; [auto |]. split; [exact H1 |]. split; [| exact Hp].
      exists d, face. split; [exact Hd |].
      split; [apply List.find_some in Hfind; tauto | exact HF]. }
  destruct ev as [rect e | rect e | now | t | w h].
  - destruct (Hclick rect e st HI) as [H | [H | H]].
    + left. exact H.
    + right. left. destruct H as (H1 & H2 & H3 & H4). eauto 10.
    + right. right. left. destruct H as (H1 & H2 & H3 & H4). eauto 10.
  - rewrite step_touch. destruct (touches e !! 0%nat) as [touch |];
      [| left; auto].
    destruct (Hclick rect (mkMouseEvent (touch_clientX touch)
                             (touch_clientY touch))
                (set_prevented (S (prevented st)) st)
                (Inv_set_prevented _ _ _ HI)) as [H | [H | H]].
    + left. exact H.
    + right. left. destruct H as (H1 & H2 & H3 & H4). eauto 10.
    + right. right. left. destruct H as (H1 & H2 & H3 & H4). eauto 10.
  - left.
    destruct (animate_effect now st (Inv_Good _ _ HI)) as (st' & Hrun & Heff).
    unfold step, handle. rewrite Hrun. simpl.
    destruct Heff as (_ & _ & _ & _ & _ & _ & N1 & K1).
    simpl in K1. injection K1 as Kc Kp.
    rewrite Kc, Kp, (inFlight_ext st st' N1). auto.
  - destruct (step_tick s0 st t HI) as (_ & _ & Hdone & Hstay).
    assert (Hcases : inFlight st = [] \/
              exists T cb, inFlight st = [mkEntry T (CCall cb)] /\
                           isCompletion cb = true /\
                           currentState st = transitioning).
    { unfold ControlInv in Hc. destruct (currentState st); auto.
      destruct Hc as (T & cb & HF & Hcomp & _). right. exists T, cb. auto. }
    destruct Hcases as [HF0 | (T & cb & HF & Hcomp & Hcs)];
      [left; destruct Hstay as (K1 & K2 & K3); auto |].
    destruct (Qlt_le_dec t T) as [Hlt' | Hle].
    + left. destruct Hstay as (K1 & K2 & K3); [right; exists T, cb; auto |].
      auto.
    + right. right. right. split; [exact Hcs |].
      exists T, cb, t. destruct (Hdone T cb HF Hle) as (Kc & Kp & Kf).
      split; [exact HF |]. split; [reflexivity |]. split; [exact Hle |].
      split; [exact Kc |]. split; [| auto].
      destruct cb; try discriminate; simpl; auto.
  - left. auto.
Qed.

(** X1.  In a reachable state a handler throws in exactly one case: a
    [touchstart] whose list of touches is empty.  Then
    [event.touches[0]] is undefined, reading its [clientX] is a
    [TypeError], and the handler has done nothing but
    [preventDefault()].  Clicks, touches with a touch point, frames of the
    render loop, engine ticks and resizes always return. *)
Theorem handlers_throw_only_on_empty_touch st ev :
  Reachable st ->
  (returned (handle ev st) = false <->
   exists rect tev, ev = TouchStart rect tev /\ touches tev = []) /\
  (forall rect tev, ev = TouchStart rect tev -> touches tev = [] ->
     handle ev st = Throw "TypeError" (set_prevented (S (prevented st)) st)).
Proof.
  intros Hr. destruct (Reachable_Inv st Hr) as (s0 & HI). split.
  - destruct ev as [rect e | rect e | now | t | w h].
    + destruct (click_outcome s0 rect e st HI) as (Hret & _).
      rewrite Hret. split; [discriminate |].
      intros (? & ? & Habs & _). discriminate.
    + unfold handle. rewrite onCanvasTouch_cases.
      destruct (touches e) as [| touch rest] eqn:Ht; simpl.
      * split; [eauto | reflexivity].
      * destruct (click_outcome s0 rect
                    (mkMouseEvent (touch_clientX touch) (touch_clientY touch))
                    (set_prevented (S (prevented st)) st)
                    (Inv_set_prevented _ _ _ HI)) as (Hret & _).
        unfold handle in Hret. rewrite Hret. split; [discriminate |].
        intros (? & tev & Heq & Hnil). injection Heq as <- <-.
        rewrite Ht in Hnil. discriminate.
    + destruct (animate_effect now st (Inv_Good _ _ HI)) as (st' & Hrun & _).
      unfold handle. rewrite Hrun. split; [discriminate |].
      intros (? & ? & Habs & _). discriminate.
    + destruct (step_tick s0 st t HI) as (_ & Hret & _).
      rewrite Hret. split; [discriminate |].
      intros (? & ? & Habs & _). discriminate.
    + simpl. split; [discriminate |].
      intros (? & ? & Habs & _). discriminate.
  - intros rect tev -> Hnil. unfold handle.
    rewrite onCanvasTouch_cases, Hnil. reflexivity.
Qed.

(** X2.  The state graph of the sequencer.  A step of a reachable state
    either keeps [currentState], or a click or touch takes Idle, Net or
    Menu to Transitioning, or an engine tick takes Transitioning to Net or
    to Menu.  There is no other move; in particular frames of the render
    loop and resizes never change the state, and no pointer event leaves
    Transitioning. *)
Theorem state_graph st ev :
  Reachable st ->
  currentState (step st ev) = currentState st \/
  (currentState st <> transitioning /\
   currentState (step st ev) = transitioning /\
   ((exists rect e, ev = Click rect e) \/
    (exists rect e, ev = TouchStart rect e))) \/
  (currentState st = transitioning /\
   (currentState (step st ev) = net \/ currentState (step st ev) = menu) /\
   exists t, ev = Tick t).
Proof.
  intros Hr. destruct (Reachable_Inv st Hr) as (s0 & HI).
  destruct (step_control s0 st ev HI)
    as [(H & _) | [(H1 & H2 & _ & _ & H3) | [(H1 & H2 & _ & _ & H3) | H]]].
  - left. exact H.
  - right. left. rewrite H1. split; [discriminate | auto].
  - right. left. split; [destruct H1 as [-> | ->]; discriminate | auto].
  - right. right. destruct H as (H1 & T & cb & t & _ & -> & _ & Kc & Kt & _).
    rewrite Kc. split; [exact H1 |]. split; [exact Kt | eauto].
Qed.

(** X3.  A route is pushed exactly when the state becomes Menu: a step
    that does not enter Menu leaves the pushes as they are, and a step
    that enters Menu is the engine tick that reaches the end [T] of the
    menu transition in flight; it appends one path, the route of the
    face [f] that transition was started for.  The pointer handlers
    never push. *)
Theorem push_only_on_entering_menu st ev :
  Reachable st ->
  (pushes (step st ev) = pushes st /\
   (currentState (step st ev) = menu -> currentState st = menu)) \/
  (exists t T f,
     ev = Tick t /\ T <= t /\ currentState st = transitioning /\
     inFlight st = [mkEntry T (CCall (cb_menuNavigate f))] /\
     currentState (step st ev) = menu /\
     pushes (step st ev) = pushes st ++ [routePathOf (name f)]).
Proof.
  intros Hr. destruct (Reachable_Inv st Hr) as (s0 & HI).
  destruct (step_control s0 st ev HI)
    as [(H1 & _ & H2) | [(_ & H1 & _ & H2 & _) | [(_ & H1 & _ & H2 & _) | H]]].
  - left. split; [exact H2 | congruence].
  - left. split; [exact H2 | congruence].
  - left. split; [exact H2 | congruence].
  - destruct H as (H1 & T & cb & t & HF & -> & HT & Kc & _ & _ & Kp).
    destruct cb as [| | | f]; simpl in Kc, Kp.
    + left. rewrite app_nil_r in Kp. split; [exact Kp | congruence].
    + left. rewrite app_nil_r in Kp. split; [exact Kp | congruence].
    + left. rewrite app_nil_r in Kp. split; [exact Kp | congruence].
    + right. exists t, T, f. auto 10.
Qed.

(** *** Faces in flight and pushed paths *)

Lemma face_route_of_face f :
  In f faces0 -> In (routePathOf (name f)) faceRoutePaths.
Proof.
  unfold faces0. simpl.
  intros H. repeat (destruct H as [<- | H]; [simpl; tauto |]). contradiction.
Qed.

Lemma face_route_inv s0 st :
  Inv s0 s0 -> pushes s0 = [] -> inFlight s0 = [] ->
  ReachableFrom s0 st ->
  Forall (fun p => In p faceRoutePaths) (pushes st) /\
  (forall T f, inFlight st = [mkEntry T (CCall (cb_menuNavigate f))] ->
     In f faces0).
Proof.
  intros H0 Hp0 Hf0. induction 1 as [| st ev Hr (IHp & IHf)].
  - rewrite Hp0, Hf0. split; [constructor | discriminate].
  - pose proof (Inv_reachable s0 st H0 Hr) as HI.
    pose proof HI as ((Hfaces & _) & _).
    destruct (step_control s0 st ev HI)
      as [(_ & K2 & K3) | [(_ & _ & K2 & K3 & _)
          | [(_ & _ & (d & f & _ & Hin & K2) & K3 & _) | H]]].
    + rewrite K2, K3. auto.
    + rewrite K2, K3. split; [exact IHp | discriminate].
    + rewrite K2, K3. split; [exact IHp |].
      intros T f' Heq. injection Heq as _ <-. rewrite <- Hfaces. exact Hin.
    + destruct H as (_ & T & cb & t & HF & _ & _ & _ & _ & K2 & K3).
      rewrite K2, K3. split; [| discriminate].
      apply Forall_app. split; [exact IHp |].
      destruct cb as [| | | f]; simpl; try constructor.
      * apply face_route_of_face. apply (IHf T). exact HF.
      * constructor.
Qed.

(** X4.  The [default] branch of the navigation switch is never taken:
    the face handed to the menu transition is always one of the six
    records of [faces], so every path pushed in a reachable state is one
    of the six face routes, and ["/"] is never pushed. *)
Theorem default_route_never_pushed st :
  Reachable st ->
  Forall (fun p => In p faceRoutePaths) (pushes st) /\
  ~ In "/" (pushes st) /\
  (forall T f, inFlight st = [mkEntry T (CCall (cb_menuNavigate f))] ->
     In f (faces st)).
Proof.
  intros (w & h & now & Hr).
  destruct (face_route_inv _ st (Inv_start w h now)
              (mounted_pushes w h now)) as (Hp & Hf); [| exact Hr |].
  { unfold inFlight. rewrite mounted_pending. reflexivity. }
  pose proof (Inv_reachable _ _ (Inv_start w h now) Hr) as ((Hfaces & _) & _).
  split; [exact Hp |]. split.
  - intros Hin. rewrite List.Forall_forall in Hp. apply Hp in Hin.
    unfold faceRoutePaths in Hin. simpl in Hin. intuition discriminate.
  - intros T f HF. rewrite Hfaces. apply (Hf T). exact HF.
Qed.

(** X5.  The sequencer only moves forward.  Once the cube has left Idle
    it is never Idle again, and once a menu transition has been started
    (or Menu has been reached) the state is never Net or Idle again,
    whatever events follow. *)
Theorem no_way_back st evs :
  Reachable st ->
  (currentState st <> idle -> currentState (run evs st) <> idle) /\
  (currentState st = menu \/
   (exists T f, inFlight st = [mkEntry T (CCall (cb_menuNavigate f))]) ->
   currentState (run evs st) <> idle /\ currentState (run evs st) <> net).
Proof.
  intros Hr. destruct (Reachable_Inv st Hr) as (s0 & HI). clear Hr.
  revert st HI. induction evs as [| ev evs IH]; intros st HI.
  - simpl. split; [auto |].
    intros [Hm | (T & f & HF)]; [rewrite Hm; split; discriminate |].
    pose proof HI as (_ & _ & _ & _ & _ & Hc & _).
    destruct (ControlInv_clock st _ _ Hc HF) as (-> & _).
    split; discriminate.
  - simpl. destruct (IH (step st ev) (Inv_step s0 st ev HI)) as (IH1 & IH2).
    pose proof HI as (_ & _ & _ & _ & _ & Hc & _).
    destruct (step_control s0 st ev HI)
      as [(K1 & K2 & _) | [(K0 & K1 & _) | [(K0 & K1 & (d & f & _ & _ & K2) & _)
          | (K0 & T & cb & t & HF & _ & _ & K1 & Kt & _)]]].
    + split.
      * intros Hne. apply IH1. rewrite K1. exact Hne.
      * intros Hph. apply IH2. rewrite K1, K2. exact Hph.
    + split; [intros Hne; contradiction |].
      intros [Hm | (T & f & HF)]; [congruence |].
      destruct (ControlInv_clock st _ _ Hc HF) as (Habs & _). congruence.
    + split.
      * intros _. apply IH1. rewrite K1. discriminate.
      * intros _. apply IH2. right. eauto.
    + split.
      * intros _. apply IH1. rewrite K1. destruct Kt as [-> | ->]; discriminate.
      * intros [Hm | (T' & f & HF')]; [congruence |].
        apply IH2. left. rewrite HF in HF'. injection HF' as _ ->.
        exact K1.
Qed.

(** *** The render loop *)

Lemma propGet_propSet_eq k v (o : list (string * Q)) :
  propGet k (propSet k v o) = Some v.
Proof.
  induction o as [| [k' v'] o IH]; simpl.
  - rewrite String.eqb_refl. reflexivity.
  - destruct (String.eqb k k') eqn:E; simpl; rewrite E; [reflexivity | exact IH].
Qed.

Lemma propGet_propSet_ne k k' v (o : list (string * Q)) :
  k <> k' -> propGet k (propSet k' v o) = propGet k o.
Proof.
  intros Hne. induction o as [| [k0 v0] o IH]; simpl.
  - apply String.eqb_neq in Hne. rewrite Hne. reflexivity.
  - destruct (String.eqb k' k0) eqn:E; simpl.
    + apply String.eqb_eq in E. subst k0.
      apply String.eqb_neq in Hne. rewrite Hne. reflexivity.
    + destruct (String.eqb k k0); [reflexivity | exact IH].
Qed.

Lemma heapGet_update_eq k v r (h : list (list (string * Q))) :
  (r < length h)%nat -> heapGet (heapUpdate (propSet k v) r h) r k = v.
Proof.
  intros Hlt. unfold heapGet, heapUpdate.
  rewrite list_lookup_alter, decide_True by reflexivity.
  destruct (lookup_lt_is_Some_2 h r Hlt) as (o & ->).
  cbn [fmap option_fmap option_map].
  rewrite propGet_propSet_eq. reflexivity.
Qed.

Lemma heapGet_update_key k k' v r (h : list (list (string * Q))) :
  k <> k' -> heapGet (heapUpdate (propSet k' v) r h) r k = heapGet h r k.
Proof.
  intros Hne. unfold heapGet, heapUpdate.
  rewrite list_lookup_alter, decide_True by reflexivity.
  destruct (h !! r) as [o |]; cbn [fmap option_fmap option_map];
    [| reflexivity].
  rewrite propGet_propSet_ne by exact Hne. reflexivity.
Qed.

Lemma heapGet_update_ne f k r r' (h : list (list (string * Q))) :
  r <> r' -> heapGet (heapUpdate f r' h) r k = heapGet h r k.
Proof.
  intros Hne. unfold heapGet, heapUpdate.
  rewrite list_lookup_alter_ne by congruence. reflexivity.
Qed.

Lemma animate_idle_eq now st :
  Struct st -> currentState st = idle ->
  animate now st
  = Val tt
      (set_heap
         (heapUpdate (propSet "z" (1 + Math_sin (now * 0.002 * 0.5) * 0.03)) 8
            (heapUpdate (propSet "y" (1 + Math_sin (now * 0.002 * 0.5) * 0.03)) 8
               (heapUpdate (propSet "x" (1 + Math_sin (now * 0.002 * 0.5) * 0.03)) 8
                  (heapUpdate (propSet "y" (Math_sin (now * 0.002 * 0.8) * 0.1)) 6
                     (heap st)))))
         st).
Proof.
  intros Hs Hcs. destruct st as [cs h objs fs cg eg m ca cl pend pu co pr].
  destruct Hs as (? & ? & ? & ? & ?). simpl in *. subst. pe. reflexivity.
Qed.

(** X6.  The render loop moves the cube only in Idle.  In any other state
    a frame changes nothing at all.  In Idle a frame sets the cube
    group's [position.y] to [sin(0.8 time) * 0.1] and the three components
    of its scale to [1 + sin(0.5 time) * 0.03], with [time] being
    [Date.now() * 0.002], and writes nothing else: state, timeline and
    every other object are as before.  With a sine between -1 and 1 the
    bob stays within 0.1 of the origin and the scale within 3 percent
    of 1. *)
Theorem render_loop_only_in_idle st now :
  Reachable st ->
  (currentState st <> idle -> step st (Frame now) = st) /\
  (currentState st = idle ->
   currentState (step st (Frame now)) = idle /\
   pending (step st (Frame now)) = pending st /\
   pushes (step st (Frame now)) = pushes st /\
   heapGet (heap (step st (Frame now))) (objPosition st (cubeGroup st)) "y"
     = Math_sin (now * 0.002 * 0.8) * 0.1 /\
   Forall (fun k =>
             heapGet (heap (step st (Frame now))) (objScale st (cubeGroup st)) k
               = 1 + Math_sin (now * 0.002 * 0.5) * 0.03)
          ["x"; "y"; "z"] /\
   (forall r, r <> objPosition st (cubeGroup st) ->
              r <> objScale st (cubeGroup st) ->
              heap (step st (Frame now)) !! r = heap st !! r) /\
   ((forall x, -1 <= Math_sin x <= 1) ->
    -0.1 <= heapGet (heap (step st (Frame now)))
              (objPosition st (cubeGroup st)) "y" <= 0.1 /\
    Forall (fun k =>
              0.97 <= heapGet (heap (step st (Frame now)))
                        (objScale st (cubeGroup st)) k <= 1.03)
           ["x"; "y"; "z"])).
Proof.
  intros Hr. destruct (Reachable_Inv st Hr) as (s0 & HI).
  pose proof HI as (HS & Hl & _). split.
  - intros Hne. unfold step, handle, animate, bind, gets.
    destruct (currentState st); try reflexivity. contradiction.
  - intros Hcs. unfold step, handle. rewrite (animate_idle_eq now st HS Hcs).
    simpl stateOf.
    assert (Hp : objPosition st (cubeGroup st) = 6%nat).
    { destruct HS as (_ & Ho & Hg & _). unfold objPosition.
      rewrite Ho, Hg. reflexivity. }
    assert (Hsc : objScale st (cubeGroup st) = 8%nat).
    { destruct HS as (_ & Ho & Hg & _). unfold objScale.
      rewrite Ho, Hg. reflexivity. }
    rewrite Hp, Hsc. cbn [heap set_heap currentState pending pushes].
    set (y := Math_sin (now * 0.002 * 0.8) * 0.1).
    set (sc := 1 + Math_sin (now * 0.002 * 0.5) * 0.03).
    set (h1 := heapUpdate (propSet "y" y) 6 (heap st)).
    set (h2 := heapUpdate (propSet "x" sc) 8 h1).
    set (h3 := heapUpdate (propSet "y" sc) 8 h2).
    assert (L1 : (8 < length h1)%nat)
      by (unfold h1, heapUpdate; rewrite length_alter; lia).
    assert (L2 : (8 < length h2)%nat)
      by (unfold h2, heapUpdate; rewrite length_alter; lia).
    assert (L3 : (8 < length h3)%nat)
      by (unfold h3, heapUpdate; rewrite length_alter; lia).
    assert (Hy : heapGet (heapUpdate (propSet "z" sc) 8 h3) 6 "y" = y).
    { rewrite heapGet_update_ne by lia. unfold h3.
      rewrite heapGet_update_ne by lia. unfold h2.
      rewrite heapGet_update_ne by lia. unfold h1.
      apply heapGet_update_eq. lia. }
    assert (Hx : heapGet (heapUpdate (propSet "z" sc) 8 h3) 8 "x" = sc).
    { rewrite heapGet_update_key by discriminate. unfold h3.
      rewrite heapGet_update_key by discriminate. unfold h2.
      apply heapGet_update_eq. exact L1. }
    assert (Hy8 : heapGet (heapUpdate (propSet "z" sc) 8 h3) 8 "y" = sc).
    { rewrite heapGet_update_key by discriminate. unfold h3.
      apply heapGet_update_eq. exact L2. }
    assert (Hz : heapGet (heapUpdate (propSet "z" sc) 8 h3) 8 "z" = sc)
      by (apply heapGet_update_eq; exact L3).
    split; [exact Hcs |]. split; [reflexivity |]. split; [reflexivity |].
    split; [exact Hy |].
    split; [repeat constructor; assumption |].
    split.
    + intros r H6 H8. unfold h3, h2, h1, heapUpdate.
      rewrite !list_lookup_alter_ne by congruence. reflexivity.
    + intros Hsin.
      pose proof (Hsin (now * 0.002 * 0.8)) as [A1 A2].
      pose proof (Hsin (now * 0.002 * 0.5)) as [B1 B2].
      split; [rewrite Hy; unfold y; split; lra |].
      constructor; [rewrite Hx; unfold sc; split; lra |].
      constructor; [rewrite Hy8; unfold sc; split; lra |].
      constructor; [rewrite Hz; unfold sc; split; lra | constructor].
Qed.

(** *** The scene graph *)

(** X7.  The scene [init] builds never changes, and every mesh in it is
    either a flagged edge decoration or the mesh of exactly one face: in
    every reachable state there are six faces, named and labelled as
    [faceMappings] lists them, and twelve edge meshes; an object with a
    geometry whose edge flag is not set is the mesh of a face, which
    [faces.find] returns, and of no other face.  So for a mesh that is
    not an edge the [if (face)] test of the click handler never fails. *)
Theorem scene_partition st i o :
  Reachable st ->
  objects st !! i = Some o -> geometry o <> None ->
  map name (faces st) = map fst faceMappings /\
  map label (faces st) = map snd faceMappings /\
  length (edgeMaterials st) = 12%nat /\
  (if userData_isEdge o
   then (exists eg, objects st !! edgeGroup st = Some eg /\ In i (children eg)) /\
        forall f, In f (faces st) -> mesh f <> i
   else exists f,
          In f (faces st) /\ mesh f = i /\
          List.find (fun f' => Nat.eqb (mesh f') i) (faces st) = Some f /\
          forall f', In f' (faces st) -> mesh f' = i -> f' = f).
Proof.
  intros Hr Hi Hgeo. destruct (Reachable_Inv st Hr) as (s0 & HI).
  pose proof HI as ((Hf & Ho & Hcg & Heg & _) & _).
  unfold edgeMaterials. rewrite Hf, Ho, Heg. rewrite Ho in Hi.
  split; [reflexivity |]. split; [reflexivity |]. split; [reflexivity |].
  unfold scene0 in Hi.
  let rec go :=
    first [ discriminate Hi
          | destruct i as [| i]; [| simpl in Hi; go] ] in go.
  all: simpl in Hi; injection Hi as <-; simpl in Hgeo |- *; try congruence.
  all: try (split; [eexists; split; [reflexivity | simpl; tauto] |];
            unfold faces0; simpl; intros f Hin;
            repeat (destruct Hin as [<- | Hin]; [simpl; lia |]);
            contradiction).
  all: unfold faces0; simpl.
  all: eexists; split; [| split; [| split; [reflexivity |]]];
    [simpl; tauto | reflexivity |].
  all: intros f' Hin Hm;
    repeat (destruct Hin as [<- | Hin];
            [first [reflexivity | simpl in Hm; lia] |]);
    contradiction.
Qed.

(** *** Objects and what is assigned to them *)

Lemma propGet_propsAssign_out k vars : forall o : list (string * Q),
  ~ In k (map fst vars) -> propGet k (propsAssign vars o) = propGet k o.
Proof.
  unfold propsAssign. induction vars as [| [k0 v0] vars IH]; intros o Hk.
  - reflexivity.
  - simpl in Hk |- *. rewrite IH by tauto.
    apply propGet_propSet_ne. intros ->. tauto.
Qed.

Lemma propGet_propsAssign_in k v vars : forall o : list (string * Q),
  List.NoDup (map fst vars) -> In (k, v) vars ->
  propGet k (propsAssign vars o) = Some v.
Proof.
  induction vars as [| [k0 v0] vars IH]; intros o Hnd Hin.
  - contradiction.
  - simpl in Hnd. inversion Hnd as [| ? ? Hout Hnd']; subst.
    destruct Hin as [Heq | Hin].
    + injection Heq as -> ->.
      change (propsAssign ((k, v) :: vars) o)
        with (propsAssign vars (propSet k v o)).
      rewrite propGet_propsAssign_out by exact Hout.
      apply propGet_propSet_eq.
    + change (propsAssign ((k0, v0) :: vars) o)
        with (propsAssign vars (propSet k0 v0 o)).
      apply IH; assumption.
Qed.

Lemma holds_assign (h : list (list (string * Q))) r vars :
  (r < length h)%nat -> List.NoDup (map fst vars) ->
  holds (heapUpdate (propsAssign vars) r h) r vars.
Proof.
  intros Hlt Hnd. unfold holds. apply List.Forall_forall. intros [k v] Hin.
  unfold heapGet, heapUpdate.
  rewrite list_lookup_alter, decide_True by reflexivity.
  destruct (lookup_lt_is_Some_2 h r Hlt) as (o & ->).
  cbn [fmap option_fmap option_map fst snd].
  rewrite (propGet_propsAssign_in k v vars o Hnd Hin). reflexivity.
Qed.

Lemma holds_frame (h h' : list (list (string * Q))) r vars :
  h' !! r = h !! r -> holds h r vars -> holds h' r vars.
Proof.
  intros Heq. unfold holds, heapGet. rewrite Heq. exact (fun H => H).
Qed.

Lemma isEdgeMat_In r : isEdgeMat r = true <-> In r edgeMats0.
Proof.
  unfold isEdgeMat. rewrite existsb_exists. split.
  - intros (x & Hin & Heq). apply Nat.eqb_eq in Heq. subst. exact Hin.
  - intros Hin. exists r. split; [exact Hin | apply Nat.eqb_refl].
Qed.

Lemma isEdgeMat_lt r : isEdgeMat r = true -> (r < 142)%nat.
Proof.
  intros H. apply isEdgeMat_In in H. unfold edgeMats0 in H. simpl in H.
  intuition lia.
Qed.

Lemma fold_update_length f (l : list nat) : forall h : list (list (string * Q)),
  length (fold_left (fun h m => heapUpdate f m h) l h) = length h.
Proof.
  induction l as [| m l IH]; intros h; simpl; [reflexivity |].
  rewrite IH. unfold heapUpdate. apply length_alter.
Qed.

Lemma fold_update_frame f (l : list nat) r :
  forall h : list (list (string * Q)),
  ~ In r l ->
  fold_left (fun h m => heapUpdate f m h) l h !! r = h !! r.
Proof.
  induction l as [| m l IH]; intros h Hr; simpl; [reflexivity |].
  simpl in Hr. rewrite IH by tauto. unfold heapUpdate.
  apply list_lookup_alter_ne. intros ->. tauto.
Qed.

Lemma opaqueHeap_length h : length (opaqueHeap h) = length h.
Proof. apply fold_update_length. Qed.

Lemma opaqueHeap_frame h r : isEdgeMat r = false -> opaqueHeap h !! r = h !! r.
Proof.
  intros Hr. apply fold_update_frame. intros Hin.
  apply isEdgeMat_In in Hin. congruence.
Qed.

(** *** What a callback and a rendered child do *)

Lemma runCallback_eq cb st :
  Struct st -> runCallback cb st = Val tt (afterCallback cb st).
Proof.
  intros Hs. destruct st as [cs h objs fs cg eg m ca cl pend pu co pr].
  destruct Hs as (? & ? & ? & ? & ?). simpl in *. subst.
  destruct cb; pe_offsets; reflexivity.
Qed.

Lemma afterCallback_footprint cb st :
  Struct st ->
  Struct (afterCallback cb st) /\
  clock (afterCallback cb st) = clock st /\
  length (heap (afterCallback cb st)) = length (heap st) /\
  (forall r, (cb = cb_edgesOpaque -> isEdgeMat r = false) ->
     heap (afterCallback cb st) !! r = heap st !! r) /\
  pending (afterCallback cb st)
    = (match cb with
       | cb_edgesFade => fadeEntries 0 0.5 (clock st)
       | _ => []
       end) ++ pending st.
Proof.
  intros Hs.
  split; [destruct cb; exact Hs |].
  split; [destruct cb; reflexivity |].
  split; [destruct cb; try reflexivity; apply opaqueHeap_length |].
  split; [| destruct cb; reflexivity].
  intros r Hr. destruct cb; try reflexivity.
  apply opaqueHeap_frame. apply Hr. reflexivity.
Qed.

Lemma tween_write_footprint t s target vars d onStart from st :
  Struct st ->
  exists st' rs,
    (if Qle_bool (s + d) t then assignProps target vars
     else
       assignProps target
         (interpolate from vars (power2_inOut ((t - s) / d))) ;;
       schedule (mkEntry s (CTween (mkTween target vars d onStart (Some from)))))
      st = Val tt st' /\
    Struct st' /\ clock st' = clock st /\
    length (heap st') = length (heap st) /\
    (forall r, r <> target -> heap st' !! r = heap st !! r) /\
    (Qle_bool (s + d) t = true -> (target < length (heap st))%nat ->
     List.NoDup (map fst vars) -> holds (heap st') target vars) /\
    pending st' = rs ++ pending st /\
    (if Qle_bool (s + d) t then rs = []
     else rs = [mkEntry s (CTween (mkTween target vars d onStart (Some from)))]).
Proof.
  intros Hs. destruct (Qle_bool (s + d) t).
  - eexists. exists []. split; [reflexivity |]. simpl.
    split; [exact Hs |]. split; [reflexivity |].
    split; [unfold heapUpdate; apply length_alter |].
    split; [intros r Hr; unfold heapUpdate; apply list_lookup_alter_ne;
            congruence |].
    split; [intros _ Hlt Hnd; apply holds_assign; assumption |].
    split; reflexivity.
  - eexists.
    exists [mkEntry s (CTween (mkTween target vars d onStart (Some from)))].
    split; [reflexivity |]. simpl.
    split; [exact Hs |]. split; [reflexivity |].
    split; [unfold heapUpdate; apply length_alter |].
    split; [intros r Hr; unfold heapUpdate; apply list_lookup_alter_ne;
            congruence |].
    split; [discriminate |].
    split; reflexivity.
Qed.

Lemma fadesAt_fades t e : fadesAt t e = true -> fades e = true.
Proof.
  unfold fadesAt, fades, fired, armed.
  destruct (e_child e) as [tw | cb]; [destruct (started t e) |];
    auto; discriminate.
Qed.

Lemma render_footprint t e st :
  Struct st ->
  exists st' rs,
    render t e st = Val tt st' /\
    Struct st' /\ clock st' = clock st /\
    length (heap st') = length (heap st) /\
    (forall r, reaches r e = false -> heap st' !! r = heap st !! r) /\
    (forall r, writer r e = true -> completes t e = true ->
       (r < length (heap st))%nat -> List.NoDup (map fst (e_vars e)) ->
       holds (heap st') r (e_vars e)) /\
    pending st'
      = rs ++ (if fadesAt t e then fadeEntries 0 0.5 (clock st) else [])
           ++ pending st /\
    (if completes t e then rs = []
     else exists e', rs = [e'] /\ rescheduled e e') /\
    (forall e', In e' rs ->
       armed e' = if started t e then None else armed e).
Proof.
  intros Hs. destruct e as [s [[target vars d onStart from] | cb]].
  - (* a tween *)
    set (e := mkEntry s (CTween (mkTween target vars d onStart from))).
    set (from' := match from with
                  | Some f => f
                  | None =>
                      map (fun kv => (fst kv, heapGet (heap st) target (fst kv)))
                          vars
                  end).
    set (os := if started t e then None else onStart).
    assert (Hcase :
      exists st1,
        Struct st1 /\ clock st1 = clock st /\
        length (heap st1) = length (heap st) /\
        (forall r, reaches r e = false -> heap st1 !! r = heap st !! r) /\
        pending st1
          = (if fadesAt t e then fadeEntries 0 0.5 (clock st) else [])
            ++ pending st /\
        render t e st
        = (if Qle_bool (s + d) t then assignProps target vars
           else
             assignProps target
               (interpolate from' vars (power2_inOut ((t - s) / d))) ;;
             schedule (mkEntry s (CTween (mkTween target vars d os
                                            (Some from'))))) st1).
    { assert (Hidle : fired t e = None ->
                render t e st
                = (if Qle_bool (s + d) t then assignProps target vars
                   else
                     assignProps target
                       (interpolate from' vars (power2_inOut ((t - s) / d))) ;;
                     schedule (mkEntry s (CTween (mkTween target vars d os
                                                    (Some from'))))) st ->
                exists st1,
                  Struct st1 /\ clock st1 = clock st /\
                  length (heap st1) = length (heap st) /\
                  (forall r, reaches r e = false ->
                             heap st1 !! r = heap st !! r) /\
                  pending st1
                    = (if fadesAt t e then fadeEntries 0 0.5 (clock st) else [])
                      ++ pending st /\
                  render t e st
                  = (if Qle_bool (s + d) t then assignProps target vars
                     else
                       assignProps target
                         (interpolate from' vars
                            (power2_inOut ((t - s) / d))) ;;
                       schedule (mkEntry s (CTween (mkTween target vars d os
                                                      (Some from'))))) st1).
      { intros Hnone Hren. exists st. split; [exact Hs |].
        split; [reflexivity |]. split; [reflexivity |].
        split; [reflexivity |].
        split; [unfold fadesAt; rewrite Hnone; reflexivity | exact Hren]. }
      destruct onStart as [cb |]; [destruct (started t e) eqn:Hst |].
      - destruct (afterCallback_footprint cb st Hs) as (S1 & C1 & L1 & F1 & N1).
        exists (afterCallback cb st).
        split; [exact S1 |]. split; [exact C1 |]. split; [exact L1 |].
        split.
        + intros r Hr. apply F1. intros ->.
          unfold reaches, opaques, armed in Hr. simpl in Hr.
          apply orb_false_iff in Hr. tauto.
        + split.
          * rewrite N1. unfold fadesAt, fired.
            cbn [e_child e tw_onStart]. rewrite Hst. destruct cb; reflexivity.
          * subst os. unfold render.
            cbn [e e_child e_start tw_from tw_onStart tw_target tw_vars
                 tw_duration].
            fold e. rewrite Hst. unfold bind, ret, gets.
            subst from'. destruct from as [f |]; cbv beta iota;
              rewrite (runCallback_eq cb st Hs); reflexivity.
      - apply Hidle.
        + unfold fired. cbn [e_child e]. rewrite Hst. reflexivity.
        + subst os. unfold render.
          cbn [e e_child e_start tw_from tw_onStart tw_target tw_vars
               tw_duration].
          fold e. rewrite Hst. unfold bind, ret, gets.
          subst from'. destruct from as [f |]; reflexivity.
      - apply Hidle.
        + unfold fired. cbn [e_child e tw_onStart].
          destruct (started t e); reflexivity.
        + subst os. unfold render.
          cbn [e e_child e_start tw_from tw_onStart tw_target tw_vars
               tw_duration].
          fold e. unfold bind, ret, gets.
          subst from'. destruct (started t e), from as [f |]; reflexivity. }
    destruct Hcase as (st1 & S1 & C1 & L1 & F1 & N1 & Hren).
    destruct (tween_write_footprint t s target vars d os from' st1 S1)
      as (st' & rs & Hrun & S2 & C2 & L2 & F2 & H2 & N2 & R2).
    exists st', rs. split; [rewrite Hren; exact Hrun |].
    split; [exact S2 |]. split; [congruence |]. split; [congruence |].
    split.
    { intros r Hr. rewrite F2; [apply F1; exact Hr |].
      unfold reaches, writer in Hr. simpl in Hr.
      apply orb_false_iff in Hr. destruct Hr as [Hr _].
      apply Nat.eqb_neq in Hr. congruence. }
    split.
    { intros r Hw Hc Hlt Hnd. unfold writer in Hw. simpl in Hw.
      apply Nat.eqb_eq in Hw. subst r. simpl in Hc, Hnd |- *.
      apply H2; [exact Hc | rewrite L1; exact Hlt | exact Hnd]. }
    split; [rewrite N2, N1; reflexivity |].
    unfold completes. cbn [e e_child e_start tw_duration].
    destruct (Qle_bool (s + d) t).
    + split; [exact R2 |]. subst rs. intros e' [].
    + split.
      * eexists. split; [exact R2 |].
        exists (mkTween target vars d onStart from), from', os.
        split; [reflexivity |]. split; [| reflexivity].
        subst os. destruct (started t e); auto.
      * subst rs. intros e' [<- | []]. reflexivity.
  - (* a call *)
    destruct (afterCallback_footprint cb st Hs) as (S1 & C1 & L1 & F1 & N1).
    exists (afterCallback cb st), [].
    split; [unfold render; simpl; apply runCallback_eq; exact Hs |].
    split; [exact S1 |]. split; [exact C1 |]. split; [exact L1 |].
    split.
    { intros r Hr. apply F1. intros ->.
      unfold reaches, opaques, armed in Hr. simpl in Hr. exact Hr. }
    split; [intros r Hw; discriminate |].
    split; [| split; [reflexivity | intros e' []]].
    rewrite N1. unfold fadesAt, fired. simpl. destruct cb; reflexivity.
Qed.

(** *** Rendering a list of children *)

Lemma fadeEntries_armed v d c e : In e (fadeEntries v d c) -> armed e = None.
Proof.
  unfold fadeEntries. intros Hin. apply in_map_iff in Hin.
  destruct Hin as (m & <- & _). reflexivity.
Qed.

Lemma forEach_footprint t l : forall st,
  Struct st ->
  exists st' new,
    forEach l (render t) st = Val tt st' /\
    Struct st' /\ clock st' = clock st /\
    length (heap st') = length (heap st) /\
    (forall r, (forall e, In e l -> reaches r e = false) ->
       heap st' !! r = heap st !! r) /\
    pending st' = new ++ pending st /\
    (forall e', In e' new ->
       (exists e, In e l /\ completes t e = false /\ rescheduled e e') \/
       (In e' (fadeEntries 0 0.5 (clock st)) /\
        exists e, In e l /\ fades e = true)) /\
    (forall e, In e l -> completes t e = false ->
       exists e', In e' new /\ rescheduled e e') /\
    (forall e', In e' new ->
       armed e' = None \/
       exists e, In e l /\ started t e = false /\ armed e' = armed e) /\
    (forall e, In e l -> completes t e = false -> started t e = false ->
       exists e', In e' new /\ rescheduled e e' /\ armed e' = armed e).
Proof.
  induction l as [| e l IH]; intros st Hs.
  - exists st, []. split; [reflexivity |]. split; [exact Hs |].
    split; [reflexivity |]. split; [reflexivity |].
    split; [reflexivity |]. split; [reflexivity |].
    split; [intros e' [] |]. split; [intros e [] |].
    split; [intros e' [] | intros e []].
  - destruct (render_footprint t e st Hs)
      as (st1 & rs & Hr & S1 & C1 & L1 & F1 & _ & N1 & R1 & K1).
    destruct (IH st1 S1)
      as (st' & new & Hrun & S2 & C2 & L2 & F2 & N2 & A2 & B2 & D2 & E2).
    exists st', (new ++ rs ++
                 (if fadesAt t e then fadeEntries 0 0.5 (clock st) else [])).
    split; [simpl; unfold bind; rewrite Hr; exact Hrun |].
    split; [exact S2 |]. split; [congruence |]. split; [congruence |].
    split.
    { intros r Hall. rewrite F2, F1; [reflexivity | |].
      - apply Hall. left. reflexivity.
      - intros e0 He0. apply Hall. right. exact He0. }
    split; [rewrite N2, N1, <- !app_assoc; reflexivity |].
    split.
    { intros e' Hin. apply in_app_or in Hin. destruct Hin as [Hin | Hin].
      - destruct (A2 e' Hin) as [(e0 & H0 & Hc0 & Hre) | (Hf & e0 & H0 & Hf0)].
        + left. exists e0. split; [right; exact H0 | auto].
        + right. rewrite C1 in Hf. split; [exact Hf |].
          exists e0. split; [right; exact H0 | exact Hf0].
      - apply in_app_or in Hin. destruct Hin as [Hin | Hin].
        + destruct (completes t e) eqn:Hc.
          * subst rs. contradiction.
          * destruct R1 as (e1 & -> & Hre). destruct Hin as [<- | []].
            left. exists e. split; [left; reflexivity | auto].
        + destruct (fadesAt t e) eqn:Hf; [| contradiction].
          right. split; [exact Hin |]. exists e.
          split; [left; reflexivity | apply fadesAt_fades with t; exact Hf]. }
    split.
    { intros e0 [<- | H0] Hc0.
      + rewrite Hc0 in R1. destruct R1 as (e1 & -> & Hre).
        exists e1. split; [| exact Hre].
        apply in_or_app. right. left. reflexivity.
      + destruct (B2 e0 H0 Hc0) as (e1 & H1 & Hre).
        exists e1. split; [apply in_or_app; left; exact H1 | exact Hre]. }
    split.
    { intros e' Hin. apply in_app_or in Hin. destruct Hin as [Hin | Hin].
      - destruct (D2 e' Hin) as [Hn | (e0 & H0 & Hst0 & Ha0)]; [left; exact Hn |].
        right. exists e0. split; [right; exact H0 | auto].
      - apply in_app_or in Hin. destruct Hin as [Hin | Hin].
        + rewrite (K1 e' Hin). destruct (started t e) eqn:Hst;
            [left; reflexivity |].
          right. exists e. split; [left; reflexivity | auto].
        + destruct (fadesAt t e); [| contradiction].
          left. apply fadeEntries_armed with 0 0.5 (clock st). exact Hin. }
    intros e0 [<- | H0] Hc0 Hst0.
    + rewrite Hc0 in R1. destruct R1 as (e1 & -> & Hre).
      exists e1. split; [apply in_or_app; right; left; reflexivity |].
      split; [exact Hre |].
      rewrite (K1 e1 (or_introl eq_refl)), Hst0. reflexivity.
    + destruct (E2 e0 H0 Hc0 Hst0) as (e1 & H1 & Hre & Ha).
      exists e1. split; [apply in_or_app; left; exact H1 | auto].
Qed.

(** The last tween on [r] among the children rendered decides what [r]
    holds afterwards. *)
Lemma forEach_last_write t r vars s d l : forall st,
  Struct st -> (r < length (heap st))%nat -> List.NoDup (map fst vars) ->
  ForallOrdPairs (fun a b => e_start a <= e_start b) l ->
  (forall e, In e l -> writer r e = true ->
     completes t e = true /\ (finalTween s d vars e \/ e_start e < s)) ->
  (forall e, In e l -> opaques e = true -> isEdgeMat r = false) ->
  ((exists e, In e l /\ writer r e = true /\ finalTween s d vars e) \/
   (holds (heap st) r vars /\
    forall e, In e l -> writer r e = true -> finalTween s d vars e)) ->
  exists st', forEach l (render t) st = Val tt st' /\ holds (heap st') r vars.
Proof.
  induction l as [| e l IH]; intros st Hs Hlt Hnd Hord Hw Hop Hcase.
  - destruct Hcase as [(e & [] & _) | (Hh & _)].
    exists st. split; [reflexivity | exact Hh].
  - inversion Hord as [| ? ? Hfst Hord']; subst.
    destruct (render_footprint t e st Hs)
      as (st1 & rs & Hr & S1 & C1 & L1 & F1 & H1 & _ & _).
    assert (Hnext : forall (Hc : (exists e0, In e0 l /\ writer r e0 = true /\
                                             finalTween s d vars e0) \/
                                 (holds (heap st1) r vars /\
                                  forall e0, In e0 l -> writer r e0 = true ->
                                             finalTween s d vars e0)),
               exists st', forEach (e :: l) (render t) st = Val tt st' /\
                           holds (heap st') r vars).
    { intros Hc.
      destruct (IH st1 S1) as (st' & Hrun & Hh); try assumption.
      - rewrite L1. exact Hlt.
      - intros e0 H0. apply Hw. right. exact H0.
      - intros e0 H0. apply Hop. right. exact H0.
      - exists st'. split; [| exact Hh].
        simpl. unfold bind. rewrite Hr. exact Hrun. }
    assert (Hfinal : writer r e = true -> finalTween s d vars e ->
              holds (heap st1) r vars /\
              forall e0, In e0 l -> writer r e0 = true ->
                         finalTween s d vars e0).
    { intros Hwe Hfe. split.
      - destruct Hfe as (_ & _ & Hv). rewrite <- Hv.
        apply H1; [exact Hwe | | exact Hlt | rewrite Hv; exact Hnd].
        apply (Hw e); [left; reflexivity | exact Hwe].
      - intros e0 H0 Hw0.
        destruct (Hw e0 (or_intror H0) Hw0) as (_ & [Hf0 | Hlt0]);
          [exact Hf0 |].
        rewrite List.Forall_forall in Hfst. specialize (Hfst e0 H0).
        destruct Hfe as (Hs0 & _). rewrite Hs0 in Hfst. lra. }
    destruct Hcase as [(e0 & [<- | H0] & Hw0 & Hf0) | (Hh & Hall)].
    + apply Hnext. right. apply Hfinal; assumption.
    + apply Hnext. left. exists e0. auto.
    + apply Hnext. right. destruct (writer r e) eqn:Hwe.
      * apply Hfinal; [reflexivity |]. apply Hall; [left; reflexivity | exact Hwe].
      * split; [| intros e0 H0; apply Hall; right; exact H0].
        apply holds_frame with (heap st); [| exact Hh].
        apply F1. unfold reaches. rewrite Hwe. simpl.
        destruct (opaques e) eqn:Ho; [| reflexivity].
        rewrite (Hop e (or_introl eq_refl) Ho). reflexivity.
Qed.

(** *** The order of rendering

    Children are rendered by ascending start time, and children with the
    same start in the order they were put on the timeline.  What is
    proved further below uses only that a child with a strictly later
    start is rendered later; it does not depend on the order among
    children with equal starts. *)

Lemma insertByStart_sorted e l :
  ForallOrdPairs (fun a b => e_start a <= e_start b) l ->
  ForallOrdPairs (fun a b => e_start a <= e_start b) (insertByStart e l).
Proof.
  induction 1 as [| e' l Hfst Hord IH]; simpl.
  - constructor; constructor.
  - destruct (Qle_bool (e_start e) (e_start e')) eqn:Hle.
    + apply Qle_bool_iff in Hle.
      constructor; [| constructor; assumption].
      constructor; [exact Hle |].
      eapply List.Forall_impl; [| exact Hfst]. simpl. intros a Ha. lra.
    + assert (Hlt : e_start e' < e_start e).
      { destruct (Qlt_le_dec (e_start e') (e_start e)) as [H | H]; [exact H |].
        apply Qle_bool_iff in H. congruence. }
      constructor; [| exact IH].
      eapply Permutation_Forall;
        [apply Permutation_sym, insertByStart_perm |].
      constructor; [lra | exact Hfst].
Qed.

Lemma sortByStart_sorted l :
  ForallOrdPairs (fun a b => e_start a <= e_start b) (sortByStart l).
Proof.
  induction l as [| e l IH]; simpl.
  - constructor.
  - apply insertByStart_sorted. exact IH.
Qed.

Lemma insertByStart_stable s e l :
  List.filter (fun x => Qeq_bool (e_start x) s) (insertByStart e l)
  = List.filter (fun x => Qeq_bool (e_start x) s) (e :: l).
Proof.
  induction l as [| e' l IH]; [reflexivity |].
  cbn [insertByStart].
  destruct (Qle_bool (e_start e) (e_start e')) eqn:Hle; [reflexivity |].
  cbn [List.filter] in *. rewrite IH.
  destruct (Qeq_bool (e_start e) s) eqn:He,
           (Qeq_bool (e_start e') s) eqn:He'; try reflexivity.
  apply Qeq_bool_iff in He, He'.
  assert (H : e_start e <= e_start e') by (rewrite He, He'; apply Qle_refl).
  apply Qle_bool_iff in H. congruence.
Qed.

Lemma sortByStart_stable s l :
  List.filter (fun x => Qeq_bool (e_start x) s) (sortByStart l)
  = List.filter (fun x => Qeq_bool (e_start x) s) l.
Proof.
  induction l as [| e l IH]; [reflexivity |].
  cbn [sortByStart]. rewrite insertByStart_stable.
  cbn [List.filter]. rewrite IH. reflexivity.
Qed.

Lemma due_In t (p : list Entry) e :
  In e (sortByStart (List.filter (fun e => Qle_bool (e_start e) t) (rev p)))
  <-> In e p /\ Qle_bool (e_start e) t = true.
Proof.
  split.
  - intros Hin.
    apply (Permutation_in _ (sortByStart_perm _)) in Hin.
    apply List.filter_In in Hin. destruct Hin as [Hin Hd].
    apply in_rev in Hin. auto.
  - intros [Hin Hd].
    apply (Permutation_in _ (Permutation_sym (sortByStart_perm _))).
    apply List.filter_In. split; [| exact Hd].
    apply in_rev. rewrite rev_involutive. exact Hin.
Qed.

(** *** One tick of the engine *)

Lemma tick_footprint t st :
  Struct st -> Qle_bool (clock st) t = true ->
  exists new,
    returned (handle (Tick t) st) = true /\
    Struct (step st (Tick t)) /\ clock (step st (Tick t)) = t /\
    length (heap (step st (Tick t))) = length (heap st) /\
    (forall r,
       (forall e, In e (pending st) -> Qle_bool (e_start e) t = true ->
                  reaches r e = false) ->
       heap (step st (Tick t)) !! r = heap st !! r) /\
    pending (step st (Tick t))
      = new ++ List.filter (fun e => negb (Qle_bool (e_start e) t)) (pending st) /\
    (forall e', In e' new ->
       (exists e, In e (pending st) /\ Qle_bool (e_start e) t = true /\
                  completes t e = false /\ rescheduled e e') \/
       (In e' (fadeEntries 0 0.5 t) /\
        exists e, In e (pending st) /\ Qle_bool (e_start e) t = true /\
                  fades e = true)) /\
    (forall e, In e (pending st) -> Qle_bool (e_start e) t = true ->
       completes t e = false ->
       exists e', In e' new /\ rescheduled e e') /\
    (forall e', In e' new ->
       armed e' = None \/
       exists e, In e (pending st) /\ e_start e == t /\ armed e' = armed e) /\
    (forall e, In e (pending st) -> e_start e == t ->
       completes t e = false ->
       exists e', In e' new /\ rescheduled e e' /\ armed e' = armed e).
Proof.
  intros Hs Hc.
  set (due := sortByStart
                (List.filter (fun e => Qle_bool (e_start e) t) (rev (pending st)))).
  set (st1 := set_clock t
                (set_pending
                   (List.filter (fun e => negb (Qle_bool (e_start e) t))
                                (pending st)) st)).
  assert (HS1 : Struct st1) by exact Hs.
  destruct (forEach_footprint t due st1 HS1)
    as (st' & new & Hrun & S2 & C2 & L2 & F2 & N2 & A2 & B2 & D2 & E2).
  assert (Htick : handle (Tick t) st = Val tt st').
  { unfold handle, tick, bind, gets, modify. rewrite Hc. exact Hrun. }
  unfold step. rewrite Htick. simpl stateOf. exists new.
  split; [reflexivity |]. split; [exact S2 |]. split; [exact C2 |].
  split; [exact L2 |].
  split.
  { intros r Hall. rewrite F2; [reflexivity |].
    intros e He. apply due_In in He. apply Hall; tauto. }
  split; [exact N2 |].
  split.
  { intros e' Hin.
    destruct (A2 e' Hin) as [(e & He & Hce & Hre) | (Hf & e & He & Hfe)].
    - apply due_In in He. left. exists e. tauto.
    - apply due_In in He. right. split; [exact Hf |]. exists e. tauto. }
  split.
  { intros e He Hd Hce. apply B2; [| exact Hce]. apply due_In. auto. }
  split.
  { intros e' Hin.
    destruct (D2 e' Hin) as [Hn | (e & He & Hst & Ha)]; [left; exact Hn |].
    apply due_In in He. destruct He as [He Hd].
    right. exists e. split; [exact He |]. split; [| exact Ha].
    apply started_false in Hst. apply Qle_bool_iff in Hd. lra. }
  intros e He Heq Hce. apply E2; [| exact Hce |].
  - apply due_In. split; [exact He |]. apply Qle_bool_iff. lra.
  - apply started_false. lra.
Qed.

Lemma rescheduled_same r e e' :
  rescheduled e e' ->
  e_start e' = e_start e /\ e_duration e' = e_duration e /\
  e_end e' = e_end e /\ e_vars e' = e_vars e /\
  writer r e' = writer r e /\ onEdge e' = onEdge e /\
  (armed e' = None \/ armed e' = armed e).
Proof.
  intros (tw & from & os & Hch & Hos & ->).
  unfold e_end, e_duration, e_vars, writer, onEdge, armed. rewrite Hch.
  simpl. repeat split. destruct Hos as [-> | ->]; auto.
Qed.

Lemma completes_writer t r e :
  writer r e = true -> completes t e = Qle_bool (e_end e) t.
Proof.
  unfold writer, completes, e_end, e_duration.
  destruct (e_child e); [reflexivity | discriminate].
Qed.

Lemma filter_nil_iff {A} (f : A -> bool) l :
  List.filter f l = [] <-> forall x, In x l -> f x = false.
Proof.
  induction l as [| a l IH]; simpl.
  - split; [intros _ x [] | reflexivity].
  - destruct (f a) eqn:Hfa.
    + split; [discriminate |]. intros H.
      specialize (H a (or_introl eq_refl)). congruence.
    + rewrite IH. split.
      * intros H x [<- | Hx]; [exact Hfa | apply H; exact Hx].
      * intros H x Hx. apply H. right. exact Hx.
Qed.

Lemma no_In_nil {A} (l : list A) : (forall x, In x l -> False) -> l = [].
Proof.
  destruct l as [| a l]; [reflexivity |].
  intros H. destruct (H a (or_introl eq_refl)).
Qed.

Lemma fadeEntries_writer v d c e r :
  In e (fadeEntries v d c) -> writer r e = true -> isEdgeMat r = true.
Proof.
  unfold fadeEntries. intros Hin Hw. apply in_map_iff in Hin.
  destruct Hin as (m & <- & Hm). apply in_rev in Hm.
  unfold writer in Hw. simpl in Hw. apply Nat.eqb_eq in Hw. subst m.
  apply isEdgeMat_In. exact Hm.
Qed.

(** A tick keeps what the tweens on [r] are heading for, and once the
    clock has reached [T] it is there. *)
Lemma tick_settled t st T r vars :
  Struct st -> Qle_bool (clock st) t = true ->
  (r < length (heap st))%nat -> List.NoDup (map fst vars) ->
  (isEdgeMat r = true ->
   forall e, In e (pending st) -> opaques e = false /\ fades e = false) ->
  Settled st T r vars ->
  Settled (step st (Tick t)) T r vars /\
  (T <= t ->
   List.filter (writer r) (pending (step st (Tick t))) = [] /\
   holds (heap (step st (Tick t))) r vars).
Proof.
  intros Hs Hc Hlt Hnd Hquiet (Hall & Hcase).
  destruct (tick_footprint t st Hs Hc)
    as (new & _ & S2 & C2 & L2 & F2 & N2 & A2 & B2 & _).
  rewrite List.Forall_forall in Hall.
  assert (HW : forall e, In e (List.filter (writer r) (pending st)) <->
                         In e (pending st) /\ writer r e = true)
    by (intros e; apply List.filter_In).
  (* new tweens on [r] are unfinished tweens on [r] put back *)
  assert (Hnew : forall e', In e' new -> writer r e' = true ->
            exists e, In e (pending st) /\ writer r e = true /\
                      Qle_bool (e_start e) t = true /\
                      completes t e = false /\ rescheduled e e').
  { intros e' Hin Hw'.
    destruct (A2 e' Hin) as [(e & He & Hd & Hce & Hre) | (Hf & e & He & Hd & Hfe)].
    - exists e. destruct (rescheduled_same r e e' Hre) as (_ & _ & _ & _ & Hwr & _).
      rewrite Hwr in Hw'. auto.
    - pose proof (fadeEntries_writer _ _ _ _ _ Hf Hw') as Hm.
      destruct (Hquiet Hm e He) as (_ & Hfe'). congruence. }
  assert (HW' : forall e',
            In e' (List.filter (writer r) (pending (step st (Tick t)))) ->
            (exists e, In e (pending st) /\ writer r e = true /\
                       Qle_bool (e_start e) t = true /\
                       completes t e = false /\ rescheduled e e') \/
            (In e' (pending st) /\ writer r e' = true /\
             Qle_bool (e_start e') t = false)).
  { intros e' Hin. apply List.filter_In in Hin. destruct Hin as [Hin Hw'].
    rewrite N2 in Hin. apply in_app_or in Hin. destruct Hin as [Hin | Hin].
    - left. apply Hnew; assumption.
    - right. apply List.filter_In in Hin. destruct Hin as [Hin Hd].
      apply negb_true_iff in Hd. auto. }
  assert (Hall' : Forall (fun e => 0 <= e_duration e /\ e_end e <= T)
                    (List.filter (writer r) (pending (step st (Tick t))))).
  { apply List.Forall_forall. intros e' Hin.
    destruct (HW' e' Hin) as [(e & He & Hw & _ & _ & Hre) | (He & Hw & _)].
    - destruct (rescheduled_same r e e' Hre) as (_ & -> & -> & _).
      apply Hall, HW. auto.
    - apply Hall, HW. auto. }
  assert (Hreach : (forall e, In e (pending st) -> writer r e = false) ->
            forall e, In e (pending st) -> Qle_bool (e_start e) t = true ->
                      reaches r e = false).
  { intros Hno e He _. unfold reaches. rewrite (Hno e He). simpl.
    destruct (isEdgeMat r) eqn:Hm; [| apply andb_false_r].
    destruct (Hquiet eq_refl e He) as (-> & _). reflexivity. }
  destruct Hcase as [(HWnil & Hh) | (s & d & Hex & Hcls)].
  - (* nothing writes [r] *)
    assert (Hno : forall e, In e (pending st) -> writer r e = false)
      by (apply filter_nil_iff; exact HWnil).
    assert (HWnil' : List.filter (writer r) (pending (step st (Tick t))) = []).
    { apply no_In_nil. intros e' Hin.
      destruct (HW' e' Hin) as [(e & He & Hw & _) | (He & Hw & _)].
      - rewrite (Hno e He) in Hw. discriminate.
      - rewrite (Hno e' He) in Hw. discriminate. }
    assert (Hh' : holds (heap (step st (Tick t))) r vars).
    { apply holds_frame with (heap st); [| exact Hh].
      apply F2. apply Hreach. exact Hno. }
    split; [| auto].
    split; [exact Hall' |]. left. auto.
  - (* the tweens that start at [s] decide *)
    rewrite List.Forall_forall in Hcls.
    apply List.Exists_exists in Hex.
    destruct Hex as (e0 & Hin0 & Hf0).
    apply HW in Hin0. destruct Hin0 as [Hin0 Hw0].
    destruct (Hall e0 (proj2 (HW e0) (conj Hin0 Hw0))) as (Hd0 & He0).
    pose proof Hf0 as (Hs0 & Hdur0 & Hv0).
    assert (Hend0 : e_end e0 = s + d)
      by (unfold e_end; rewrite Hs0, Hdur0; reflexivity).
    rewrite Hdur0 in Hd0. rewrite Hend0 in He0.
    destruct (Qle_bool (s + d) t) eqn:Hdone.
    + (* they are over *)
      apply Qle_bool_iff in Hdone.
      assert (Hover : forall e, In e (pending st) -> writer r e = true ->
                Qle_bool (e_start e) t = true /\ completes t e = true /\
                (finalTween s d vars e \/ e_start e < s)).
      { intros e He Hw.
        destruct (Hall e (proj2 (HW e) (conj He Hw))) as (Hde & _).
        rewrite (completes_writer t r e Hw).
        destruct (Hcls e (proj2 (HW e) (conj He Hw)))
          as [Hf | (Hlt' & Hend)].
        - pose proof Hf as (Hs1 & Hd1 & _).
          assert (Hend1 : e_end e = s + d)
            by (unfold e_end; rewrite Hs1, Hd1; reflexivity).
          rewrite Hend1, Hs1.
          split; [apply Qle_bool_iff; lra |].
          split; [apply Qle_bool_iff; lra | left; exact Hf].
        - split; [apply Qle_bool_iff; lra |].
          split; [apply Qle_bool_iff; lra | right; exact Hlt']. }
      assert (HWnil' : List.filter (writer r) (pending (step st (Tick t))) = []).
      { apply no_In_nil. intros e' Hin.
        destruct (HW' e' Hin) as [(e & He & Hw & _ & Hce & _) | (He & Hw & Hnd')].
        - destruct (Hover e He Hw) as (_ & Hce' & _). congruence.
        - destruct (Hover e' He Hw) as (Hd' & _). congruence. }
      assert (Hh' : holds (heap (step st (Tick t))) r vars).
      { set (due := sortByStart
                      (List.filter (fun e => Qle_bool (e_start e) t)
                                   (rev (pending st)))).
        set (st1 := set_clock t
                      (set_pending
                         (List.filter (fun e => negb (Qle_bool (e_start e) t))
                                      (pending st)) st)).
        destruct (forEach_last_write t r vars s d due st1) as (st' & Hrun & Hh');
          try assumption.
        - apply sortByStart_sorted.
        - intros e He Hw. apply due_In in He. destruct He as [He _].
          destruct (Hover e He Hw) as (_ & Hce & Hor). auto.
        - intros e He Ho. apply due_In in He. destruct He as [He _].
          destruct (isEdgeMat r) eqn:Hm; [| reflexivity].
          destruct (Hquiet eq_refl e He) as (Ho' & _). congruence.
        - left. exists e0. split; [| auto].
          apply due_In. split; [exact Hin0 |].
          destruct (Hover e0 Hin0 Hw0) as (Hd' & _). exact Hd'.
        - assert (Htick : handle (Tick t) st = Val tt st').
          { unfold handle, tick, bind, gets, modify. rewrite Hc. exact Hrun. }
          unfold step. rewrite Htick. exact Hh'. }
      split; [| auto].
      split; [exact Hall' |]. left. auto.
    + (* they are still running or waiting *)
      assert (Hlate : t < s + d).
      { destruct (Qlt_le_dec t (s + d)) as [H | H]; [exact H |].
        apply Qle_bool_iff in H. congruence. }
      split; [| intros HT; lra].
      split; [exact Hall' |]. right. exists s, d. split.
      * apply List.Exists_exists.
        destruct (Qle_bool (e_start e0) t) eqn:Hdue0.
        -- assert (Hce0 : completes t e0 = false).
           { rewrite (completes_writer t r e0 Hw0), Hend0. exact Hdone. }
           destruct (B2 e0 Hin0 Hdue0 Hce0) as (e' & Hin' & Hre).
           destruct (rescheduled_same r e0 e' Hre)
             as (Hs' & Hd' & _ & Hv' & Hw' & _).
           exists e'. split.
           ++ apply List.filter_In. split; [| congruence].
              rewrite N2. apply in_or_app. left. exact Hin'.
           ++ unfold finalTween. rewrite Hs', Hd', Hv'. exact Hf0.
        -- exists e0. split; [| exact Hf0].
           apply List.filter_In. split; [| exact Hw0].
           rewrite N2. apply in_or_app. right.
           apply List.filter_In. split; [exact Hin0 |].
           rewrite Hdue0. reflexivity.
      * apply List.Forall_forall. intros e' Hin.
        destruct (HW' e' Hin) as [(e & He & Hw & _ & _ & Hre) | (He & Hw & _)].
        -- destruct (rescheduled_same r e e' Hre) as (Hs' & Hd' & He' & Hv' & _).
           unfold finalTween. rewrite Hs', Hd', He', Hv'.
           apply Hcls, HW. auto.
        -- apply Hcls, HW. auto.
Qed.

(** *** The goals of the two transitions *)

Lemma netGoals_ok h0 :
  Forall (fun g => (fst g < 142)%nat /\ fst g <> 72%nat /\
                   List.NoDup (map fst (snd g)))
         (netGoals h0).
Proof.
  let gs := eval cbv -[heapGet] in (netGoals h0) in
  change (netGoals h0) with gs.
  repeat (constructor;
          [ split; [simpl; lia |];
            split; [simpl; lia |];
            simpl;
            repeat (apply List.NoDup_cons; [simpl; intuition discriminate |]);
            apply List.NoDup_nil
          | ]).
  constructor.
Qed.

Lemma menuGoals_ok h0 :
  Forall (fun g => (fst g < 142)%nat /\ fst g <> 72%nat /\
                   List.NoDup (map fst (snd g)) /\ isEdgeMat (fst g) = false)
         (menuGoals h0).
Proof.
  let gs := eval cbv -[heapGet] in (menuGoals h0) in
  change (menuGoals h0) with gs.
  repeat (constructor;
          [ split; [simpl; lia |];
            split; [simpl; lia |];
            split; [| reflexivity];
            simpl;
            repeat (apply List.NoDup_cons; [simpl; intuition discriminate |]);
            apply List.NoDup_nil
          | ]).
  constructor.
Qed.

Lemma readVec_table (h h0 : list (list (string * Q))) r :
  h !! r = h0 !! r -> readVec h r = readVec h0 r.
Proof. intros H. unfold readVec, heapGet. rewrite H. reflexivity. Qed.

Lemma flat_map_eq_on {A B} (f g : A -> list B) l :
  (forall a, In a l -> f a = g a) -> flat_map f l = flat_map g l.
Proof.
  induction l as [| a l IH]; intros H; simpl; [reflexivity |].
  rewrite (H a (or_introl eq_refl)), IH; [reflexivity |].
  intros b Hb. apply H. right. exact Hb.
Qed.

Lemma netGoals_table (h h0 : list (list (string * Q))) :
  (forall r, In r tableRefs -> h !! r = h0 !! r) -> netGoals h = netGoals h0.
Proof.
  intros H. unfold netGoals. f_equal. f_equal.
  apply flat_map_eq_on. intros f Hf.
  rewrite (readVec_table h h0 (netPosition f)),
          (readVec_table h h0 (netRotation f)); [reflexivity | |].
  all: apply H; unfold tableRefs; revert Hf; unfold faces0; simpl;
    intros Hf; repeat (destruct Hf as [<- | Hf]; [simpl; tauto |]);
    contradiction.
Qed.

Lemma menuGoals_table (h h0 : list (list (string * Q))) :
  (forall r, In r tableRefs -> h !! r = h0 !! r) -> menuGoals h = menuGoals h0.
Proof.
  intros H. unfold menuGoals. f_equal.
  apply flat_map_eq_on. intros f Hf.
  rewrite (readVec_table h h0 (menuPosition f)),
          (readVec_table h h0 (menuRotation f)); [reflexivity | |].
  all: apply H; unfold tableRefs; revert Hf; unfold faces0; simpl;
    intros Hf; repeat (destruct Hf as [<- | Hf]; [simpl; tauto |]);
    contradiction.
Qed.

(** *** Ways to be settled *)

Lemma Settled_none st T r vars :
  List.filter (writer r) (pending st) = [] -> holds (heap st) r vars ->
  Settled st T r vars.
Proof.
  intros HW Hh. unfold Settled. rewrite HW.
  split; [constructor | left; auto].
Qed.

Lemma Settled_one st T r vars e0 :
  List.filter (writer r) (pending st) = [e0] -> e_vars e0 = vars ->
  0 <= e_duration e0 -> e_end e0 <= T ->
  Settled st T r vars.
Proof.
  intros HW Hv Hd He. unfold Settled. rewrite HW.
  split; [constructor; [auto | constructor] |].
  right. exists (e_start e0), (e_duration e0).
  split; [constructor; repeat split; exact Hv |].
  constructor; [left; repeat split; exact Hv | constructor].
Qed.

Lemma Settled_two st T r vars e0 e1 :
  List.filter (writer r) (pending st) = [e0; e1] -> e_vars e0 = vars ->
  0 <= e_duration e0 -> 0 <= e_duration e1 -> e_end e0 <= T ->
  e_start e1 < e_start e0 -> e_end e1 <= e_end e0 ->
  Settled st T r vars.
Proof.
  intros HW Hv Hd0 Hd1 He Hlt Hle. unfold Settled. rewrite HW.
  split; [constructor; [auto | constructor; [| constructor]] |].
  { split; [exact Hd1 | lra]. }
  right. exists (e_start e0), (e_duration e0).
  split; [constructor; repeat split; exact Hv |].
  constructor; [left; repeat split; exact Hv |].
  constructor; [right; auto | constructor].
Qed.

Lemma Settled_frame st st' T r vars :
  pending st' = pending st -> heap st' !! r = heap st !! r ->
  Settled st T r vars -> Settled st' T r vars.
Proof.
  intros Hp Hh. unfold Settled. rewrite Hp.
  intros (Hall & [(HW & Hhold) | Hcls]); (split; [exact Hall |]).
  - left. split; [exact HW |]. apply holds_frame with (heap st); assumption.
  - right. exact Hcls.
Qed.

(** *** Starting the unfold *)

Lemma unfold_motion st T :
  Struct st -> pending st = [] -> clock st + 1 <= T ->
  exists st',
    unfoldCubeNet st = Val tt st' /\
    Forall (fun e => Timed T e /\ opaques e = false /\ fades e = false)
           (pending st') /\
    Forall (fun g => Settled st' T (fst g) (snd g)) (netGoals (heap st)).
Proof.
  intros Hs Hp HT. destruct st as [cs h objs fs cg eg m ca cl pend pu co pr].
  destruct Hs as (? & ? & ? & ? & ?). simpl in *. subst.
  eexists. split; [pe; reflexivity |].
  split.
  - cbn [pending].
    repeat (constructor;
            [ split;
              [ cbv [Timed e_start e_end e_duration e_child tw_duration after];
                split; [lra | split; lra]
              | split; reflexivity ]
            | ]).
    constructor.
  - let gs := eval cbv -[heapGet] in (netGoals h) in
    change (netGoals h) with gs.
    repeat (constructor;
            [ cbn [fst snd]; eapply Settled_one;
              [ cbn [pending List.filter writer e_child tw_target Nat.eqb];
                reflexivity
              | reflexivity
              | cbv [e_duration e_child tw_duration]; lra
              | cbv [e_end e_start e_duration e_child tw_duration after]; lra ]
            | ]).
    constructor.
Qed.

(** *** Starting the menu transition *)

Lemma eqb_far n k : (142 <= n)%nat -> (k < 142)%nat -> Nat.eqb n k = false.
Proof. intros Hn Hk. apply Nat.eqb_neq. lia. Qed.

Lemma isEdgeMat_ge r : (142 <= r)%nat -> isEdgeMat r = false.
Proof.
  intros Hr. destruct (isEdgeMat r) eqn:E; [| reflexivity].
  apply isEdgeMat_lt in E. lia.
Qed.

Lemma Fading_writer r e : Fading e -> writer r e = true -> isEdgeMat r = true.
Proof.
  intros (m & s & d & from & Hm & _ & ->) Hw. unfold writer in Hw.
  simpl in Hw. apply Nat.eqb_eq in Hw. subst m. apply isEdgeMat_In. exact Hm.
Qed.

Lemma Fading_no_writer pend r :
  Forall Fading pend -> isEdgeMat r = false ->
  List.filter (writer r) pend = [].
Proof.
  intros Hf Hr. apply filter_nil_iff. intros e He.
  rewrite List.Forall_forall in Hf.
  destruct (writer r e) eqn:Hw; [| reflexivity].
  rewrite (Fading_writer r e (Hf e He) Hw) in Hr. discriminate.
Qed.

Lemma Fading_armed e : Fading e -> armed e = None.
Proof.
  intros (m & s & d & from & _ & _ & ->). unfold armed. simpl.
  destruct from; reflexivity.
Qed.

Lemma transition_motion f st T :
  Struct st -> (142 <= length (heap st))%nat ->
  currentState st = net \/ currentState st = menu ->
  Forall Fading (pending st) ->
  holds (heap st) (rotRef 2) [("x", 0); ("y", 0)] ->
  clock st + 1.7 <= T ->
  exists st',
    transitionToMenuAndNavigate f st = Val tt st' /\
    Forall (fun e => Fading e \/ (Timed T e /\ onEdge e = false))
           (pending st') /\
    Forall (fun g => Settled st' T (fst g) (snd g)) (menuGoals (heap st)).
Proof.
  intros Hs Hl Hcs Hold Hrot HT.
  destruct st as [cs h objs fs cg eg m ca cl pend pu co pr].
  destruct Hs as (? & ? & ? & ? & ?). simpl in *. subst.
  destruct Hcs as [-> | ->].
  all: eexists; split; [pe_offsets; reflexivity |].
  all: split.
  1, 3: cbn [pending];
    repeat (constructor;
            [ right; split;
              [ cbv [Timed e_start e_end e_duration e_child tw_duration after];
                split; [lra | split; lra]
              | first [ reflexivity
                      | cbv [onEdge e_child tw_target];
                        apply isEdgeMat_ge; exact Hl ] ]
            | ]);
    (eapply List.Forall_impl; [| exact Hold]); intros e He; left; exact He.
  all: let gs := eval cbv -[heapGet] in (menuGoals h) in
       change (menuGoals h) with gs.
  all: repeat (constructor;
         [ cbn [fst snd];
           first
             [ eapply Settled_two;
               [ cbn [pending List.filter writer e_child tw_target Nat.eqb];
                 rewrite (eqb_far (length h) _ Hl) by lia; cbv beta iota;
                 rewrite (Fading_no_writer pend _ Hold) by reflexivity;
                 reflexivity
               | reflexivity
               | cbv [e_duration e_child tw_duration]; lra
               | cbv [e_duration e_child tw_duration]; lra
               | cbv [e_end e_start e_duration e_child tw_duration after]; lra
               | cbv [e_start after]; lra
               | cbv [e_end e_start e_duration e_child tw_duration after]; lra ]
             | eapply Settled_one;
               [ cbn [pending List.filter writer e_child tw_target Nat.eqb];
                 rewrite (eqb_far (length h) _ Hl) by lia; cbv beta iota;
                 rewrite (Fading_no_writer pend _ Hold) by reflexivity;
                 reflexivity
               | reflexivity
               | cbv [e_duration e_child tw_duration]; lra
               | cbv [e_end e_start e_duration e_child tw_duration after]; lra ]
             | apply Settled_none;
               [ cbn [pending List.filter writer e_child tw_target Nat.eqb];
                 rewrite (eqb_far (length h) _ Hl) by lia; cbv beta iota;
                 rewrite (Fading_no_writer pend _ Hold) by reflexivity;
                 reflexivity
               | cbn [heap]; apply holds_frame with h;
                 [unfold heapAlloc; apply lookup_app_l; lia | exact Hrot] ] ]
         | ]).
  all: constructor.
Qed.

(** *** The timeline and the scene, state by state *)

Lemma Fading_rescheduled e e' : Fading e -> rescheduled e e' -> Fading e'.
Proof.
  intros (m & s & d & from & Hm & Hd & ->) (tw & from' & os & Hch & Hos & ->).
  simpl in Hch. injection Hch as <-. simpl in Hos |- *.
  exists m, s, d, (Some from'). destruct Hos as [-> | ->]; auto.
Qed.

Lemma fadeEntries_Fading c e : In e (fadeEntries 0 0.5 c) -> Fading e.
Proof.
  unfold fadeEntries. intros Hin. apply in_map_iff in Hin.
  destruct Hin as (m & <- & Hm). apply in_rev in Hm.
  exists m, c, 0.5, None. split; [exact Hm |]. split; [lra | reflexivity].
Qed.

Lemma Fading_reaches r e : Fading e -> isEdgeMat r = false -> reaches r e = false.
Proof.
  intros Hf Hr. unfold reaches, opaques. rewrite (Fading_armed e Hf).
  destruct (writer r e) eqn:Hw; [| reflexivity].
  rewrite (Fading_writer r e Hf Hw) in Hr. discriminate.
Qed.

Lemma Timed_over T t e :
  Timed T e -> T <= t ->
  Qle_bool (e_start e) t = true /\ completes t e = true.
Proof.
  intros (H1 & H2 & H3) HT. split; [apply Qle_bool_iff; lra |].
  unfold completes. unfold e_end, e_duration in H2, H3.
  destruct (e_child e); [apply Qle_bool_iff; lra | reflexivity].
Qed.

Lemma Timed_rescheduled T e e' : Timed T e -> rescheduled e e' -> Timed T e'.
Proof.
  intros HT Hre. destruct (rescheduled_same 0%nat e e' Hre) as (Hs & Hd & He & _).
  unfold Timed. rewrite Hs, Hd, He. exact HT.
Qed.

Lemma rescheduled_calm e e' :
  rescheduled e e' ->
  (opaques e = false -> opaques e' = false) /\
  (fades e = false -> fades e' = false).
Proof.
  intros Hre.
  destruct (rescheduled_same 0%nat e e' Hre)
    as (_ & _ & _ & _ & _ & _ & [Ha | Ha]);
    unfold opaques, fades; rewrite Ha; auto.
Qed.

Lemma rescheduled_tween e e' :
  rescheduled e e' -> exists tw, e_child e = CTween tw.
Proof. intros (tw & _ & _ & Hch & _). exists tw. exact Hch. Qed.

Lemma rescheduled_opaques e e' :
  rescheduled e e' -> opaques e' = true -> opaques e = true.
Proof.
  intros Hre Ho. destruct (opaques e) eqn:He; [reflexivity |].
  rewrite (proj1 (rescheduled_calm e e' Hre) He) in Ho. discriminate.
Qed.

Lemma rescheduled_fades e e' :
  rescheduled e e' -> fades e' = true -> fades e = true.
Proof.
  intros Hre Hf. destruct (fades e) eqn:He; [reflexivity |].
  rewrite (proj2 (rescheduled_calm e e' Hre) He) in Hf. discriminate.
Qed.

Lemma withMouse_frame rect ev st r :
  Struct st -> r <> 72%nat -> heap (withMouse rect ev st) !! r = heap st !! r.
Proof.
  intros (_ & _ & _ & _ & Hm) Hr. unfold withMouse, heapUpdate. simpl.
  rewrite Hm. rewrite !list_lookup_alter_ne by congruence. reflexivity.
Qed.

(** What is on the timeline after a tick. *)
Lemma tick_entries (Q : Entry -> Prop) t st :
  Struct st -> Qle_bool (clock st) t = true ->
  (forall e, In e (pending st) -> Qle_bool (e_start e) t = false -> Q e) ->
  (forall e e', In e (pending st) -> Qle_bool (e_start e) t = true ->
                completes t e = false -> rescheduled e e' -> Q e') ->
  (forall e' e, In e' (fadeEntries 0 0.5 t) -> In e (pending st) ->
                Qle_bool (e_start e) t = true -> fades e = true -> Q e') ->
  Forall Q (pending (step st (Tick t))).
Proof.
  intros Hs Hg Hwait Hback Hfade.
  destruct (tick_footprint t st Hs Hg) as (new & _ & _ & _ & _ & _ & N2 & A2 & _).
  rewrite N2. apply Forall_app. split.
  - apply List.Forall_forall. intros e' Hin.
    destruct (A2 e' Hin) as [(e & He & Hd & Hce & Hre) | (Hf & e & He & Hd & Hfe)].
    + apply (Hback e e'); assumption.
    + apply (Hfade e' e); assumption.
  - apply List.Forall_forall. intros e Hin. apply List.filter_In in Hin.
    destruct Hin as [Hin Hd]. apply negb_true_iff in Hd. apply Hwait; assumption.
Qed.

(** What the goals of a transition look like after a tick. *)
Lemma tick_goals gs t st T :
  Struct st -> (142 <= length (heap st))%nat ->
  Qle_bool (clock st) t = true ->
  Forall (fun g => (fst g < 142)%nat /\ List.NoDup (map fst (snd g)) /\
                   (isEdgeMat (fst g) = true ->
                    forall e, In e (pending st) ->
                              opaques e = false /\ fades e = false)) gs ->
  Forall (fun g => Settled st T (fst g) (snd g)) gs ->
  Forall (fun g => Settled (step st (Tick t)) T (fst g) (snd g)) gs /\
  (T <= t -> Layout gs (heap (step st (Tick t)))).
Proof.
  intros Hs Hl Hg Hok Hset.
  rewrite List.Forall_forall in Hok, Hset.
  assert (Hone : forall g, In g gs ->
            Settled (step st (Tick t)) T (fst g) (snd g) /\
            (T <= t -> holds (heap (step st (Tick t))) (fst g) (snd g))).
  { intros g Hin. destruct (Hok g Hin) as (Hlt & Hnd & Hq).
    destruct (tick_settled t st T (fst g) (snd g) Hs Hg) as (H1 & H2);
      try assumption; [lia | apply Hset; exact Hin |].
    split; [exact H1 |]. intros HT. apply H2. exact HT. }
  split.
  - apply List.Forall_forall. intros g Hin. apply Hone. exact Hin.
  - intros HT. apply List.Forall_forall. intros g Hin.
    apply Hone; assumption.
Qed.

Lemma Motion_withMouse s0 rect ev st :
  Inv s0 st -> Motion s0 st -> Motion s0 (withMouse rect ev st).
Proof.
  intros HI HM. pose proof HI as (Hs & _).
  assert (Hfr : forall gs : list (nat * list (string * Q)),
            Forall (fun g => fst g <> 72%nat) gs ->
            forall g, In g gs ->
              heap (withMouse rect ev st) !! fst g = heap st !! fst g).
  { intros gs Hgs g Hin. rewrite List.Forall_forall in Hgs.
    apply withMouse_frame; [exact Hs | apply Hgs; exact Hin]. }
  assert (Hn : Forall (fun g : nat * list (string * Q) => fst g <> 72%nat)
                 (netGoals (heap s0))).
  { eapply List.Forall_impl; [| apply netGoals_ok]. simpl. tauto. }
  assert (Hm : Forall (fun g : nat * list (string * Q) => fst g <> 72%nat)
                 (menuGoals (heap s0))).
  { eapply List.Forall_impl; [| apply menuGoals_ok]. simpl. tauto. }
  assert (Hlay : forall gs : list (nat * list (string * Q)),
            Forall (fun g => fst g <> 72%nat) gs ->
            Layout gs (heap st) -> Layout gs (heap (withMouse rect ev st))).
  { intros gs Hgs HL. unfold Layout in *. rewrite List.Forall_forall in HL.
    apply List.Forall_forall. intros g Hin.
    apply holds_frame with (heap st); [apply (Hfr gs Hgs g Hin) | apply HL; exact Hin]. }
  assert (Hset : forall (gs : list (nat * list (string * Q))) T,
            Forall (fun g => fst g <> 72%nat) gs ->
            Forall (fun g => Settled st T (fst g) (snd g)) gs ->
            Forall (fun g => Settled (withMouse rect ev st) T (fst g) (snd g)) gs).
  { intros gs T Hgs HS. rewrite List.Forall_forall in HS.
    apply List.Forall_forall. intros g Hin.
    apply Settled_frame with st;
      [reflexivity | apply (Hfr gs Hgs g Hin) | apply HS; exact Hin]. }
  unfold Motion in *.
  change (currentState (withMouse rect ev st)) with (currentState st).
  change (pending (withMouse rect ev st)) with (pending st).
  change (inFlight (withMouse rect ev st)) with (inFlight st).
  destruct (currentState st).
  - exact HM.
  - destruct HM as (Hp & HL). split; [exact Hp | apply Hlay; assumption].
  - destruct HM as (T & cb & HF & HM). exists T, cb. split; [exact HF |].
    destruct cb; try exact HM.
    + destruct HM as (He & HS). split; [exact He | apply Hset; assumption].
    + destruct HM as (He & HS). split; [exact He | apply Hset; assumption].
  - destruct HM as (Hp & HL). split; [exact Hp | apply Hlay; assumption].
Qed.

Lemma Motion_click s0 rect ev st :
  Inv s0 st -> Motion s0 st -> Motion s0 (step st (Click rect ev)).
Proof.
  intros HI HM.
  pose proof (Inv_withMouse s0 rect ev st HI) as HI1.
  pose proof (Motion_withMouse s0 rect ev st HI HM) as HM1.
  pose proof HI1 as (Hs1 & Hl1 & Ht1 & _ & _ & Hc1 & _).
  unfold step, handle.
  rewrite (onCanvasClick_cases rect ev st (Inv_Good _ _ HI)). cbv zeta.
  destruct (intersectionsAt rect ev st !! 0%nat) as [first |]; [| exact HM1].
  destruct (isEdgeObject st (object first)); [exact HM1 |].
  change (currentState st) with (currentState (withMouse rect ev st)).
  change (faces st) with (faces (withMouse rect ev st)).
  set (st1 := withMouse rect ev st) in *.
  destruct (currentState st1) eqn:Hcs.
  - (* Idle: the unfold starts *)
    unfold Motion in HM1. rewrite Hcs in HM1.
    assert (HF : inFlight st1 = [])
      by (unfold inFlight; rewrite HM1; reflexivity).
    destruct (unfold_launch s0 st1 HI1 HF)
      as (st' & Hrun & _ & Kc & _ & _ & _ & _ & Kf).
    destruct (unfold_motion st1 (after (clock st1) 1) Hs1 HM1)
      as (st'' & Hrun' & Hent & Hset); [unfold after; lra |].
    rewrite Hrun in Hrun'. injection Hrun' as <-.
    rewrite Hrun. simpl stateOf. unfold Motion. rewrite Kc.
    exists (after (clock st1) 1), cb_setNet. split; [exact Kf |].
    split; [exact Hent |].
    rewrite <- (netGoals_table (heap st1) (heap s0) Ht1). exact Hset.
  - (* Net *)
    destruct (List.find _ _) as [face |]; [| exact HM1].
    unfold Motion in HM1. rewrite Hcs in HM1. destruct HM1 as (Hp & HL).
    assert (HF : inFlight st1 = [])
      by (unfold inFlight; rewrite Hp; reflexivity).
    destruct (menu_launch s0 face st1 HI1 HF (or_introl Hcs))
      as (st' & d & Hrun & _ & Kc & _ & _ & _ & _ & Hd & Kf & _).
    destruct (transition_motion face st1 (after (clock st1) d) Hs1 Hl1
                (or_introl Hcs))
      as (st'' & Hrun' & Hent & Hset).
    { rewrite Hp. constructor. }
    { unfold Layout, netGoals in HL. simpl in HL.
      inversion HL as [| ? ? H1 _]. exact H1. }
    { unfold after. rewrite Hd. lra. }
    rewrite Hrun in Hrun'. injection Hrun' as <-.
    rewrite Hrun. simpl stateOf. unfold Motion. rewrite Kc.
    exists (after (clock st1) d), (cb_menuNavigate face). split; [exact Kf |].
    split; [exact Hent |].
    rewrite <- (menuGoals_table (heap st1) (heap s0) Ht1). exact Hset.
  - exact HM1.
  - (* Menu *)
    destruct (List.find _ _) as [face |]; [| exact HM1].
    unfold Motion in HM1. rewrite Hcs in HM1. destruct HM1 as (Hp & HL).
    assert (HF : inFlight st1 = []).
    { unfold ControlInv in Hc1. rewrite Hcs in Hc1. exact Hc1. }
    destruct (menu_launch s0 face st1 HI1 HF (or_intror Hcs))
      as (st' & d & Hrun & _ & Kc & _ & _ & _ & _ & Hd & Kf & _).
    destruct (transition_motion face st1 (after (clock st1) d) Hs1 Hl1
                (or_intror Hcs) Hp)
      as (st'' & Hrun' & Hent & Hset).
    { unfold Layout, menuGoals in HL. simpl in HL.
      inversion HL as [| ? ? H1 _]. exact H1. }
    { unfold after. rewrite Hd. lra. }
    rewrite Hrun in Hrun'. injection Hrun' as <-.
    rewrite Hrun. simpl stateOf. unfold Motion. rewrite Kc.
    exists (after (clock st1) d), (cb_menuNavigate face). split; [exact Kf |].
    split; [exact Hent |].
    rewrite <- (menuGoals_table (heap st1) (heap s0) Ht1). exact Hset.
Qed.

Lemma Motion_tick s0 st t :
  Inv s0 st -> Motion s0 st -> Motion s0 (step st (Tick t)).
Proof.
  intros HI HM. pose proof HI as (Hs & Hl & _).
  destruct (Qle_bool (clock st) t) eqn:Hg.
  2: { unfold step, handle. rewrite (tick_late t st Hg). exact HM. }
  destruct (tick_footprint t st Hs Hg)
    as (new & _ & _ & _ & _ & F2 & _ & _ & _).
  destruct (step_tick s0 st t HI) as (_ & _ & Hdone & Hstay).
  unfold Motion in HM. destruct (currentState st) eqn:Hcs.
  - (* Idle *)
    assert (HF : inFlight st = [])
      by (unfold inFlight; rewrite HM; reflexivity).
    destruct (Hstay (or_introl HF)) as (Kc & _ & _).
    unfold Motion. rewrite Kc.
    apply no_In_nil. intros e He.
    assert (Hno : Forall (fun _ => False) (pending (step st (Tick t)))).
    { apply tick_entries; try assumption; rewrite HM.
      - intros ? [].
      - intros ? ? [].
      - intros ? ? _ []. }
    rewrite List.Forall_forall in Hno. exact (Hno e He).
  - (* Net *)
    destruct HM as (Hp & HL).
    assert (HF : inFlight st = [])
      by (unfold inFlight; rewrite Hp; reflexivity).
    destruct (Hstay (or_introl HF)) as (Kc & _ & _).
    unfold Motion. rewrite Kc. split.
    + apply no_In_nil. intros e He.
      assert (Hno : Forall (fun _ => False) (pending (step st (Tick t)))).
      { apply tick_entries; try assumption; rewrite Hp.
        - intros ? [].
        - intros ? ? [].
        - intros ? ? _ []. }
      rewrite List.Forall_forall in Hno. exact (Hno e He).
    + unfold Layout in *. eapply List.Forall_impl; [| exact HL].
      intros g Hg0. apply holds_frame with (heap st); [| exact Hg0].
      apply F2. intros e He. rewrite Hp in He. destruct He.
  - (* Transitioning *)
    destruct HM as (T & cb & HF & HM).
    destruct (Qle_bool T t) eqn:HT.
    + (* the transition completes *)
      apply Qle_bool_iff in HT.
      destruct (Hdone T cb HF HT) as (Kc & _ & _).
      unfold Motion. rewrite Kc.
      destruct cb as [| | | f]; try contradiction; simpl targetOf.
      * destruct HM as (Hent & Hset). rewrite List.Forall_forall in Hent.
        split.
        -- apply no_In_nil. intros e He.
           assert (Hno : Forall (fun _ => False) (pending (step st (Tick t)))).
           { apply tick_entries; try assumption.
             - intros e0 H0 Hd0. destruct (Hent e0 H0) as (Ht0 & _).
               destruct (Timed_over T t e0 Ht0 HT) as (Hd0' & _). congruence.
             - intros e0 e' H0 _ Hc0 _. destruct (Hent e0 H0) as (Ht0 & _).
               destruct (Timed_over T t e0 Ht0 HT) as (_ & Hc0'). congruence.
             - intros e' e0 _ H0 _ Hf0. destruct (Hent e0 H0) as (_ & _ & Hf0').
               congruence. }
           rewrite List.Forall_forall in Hno. exact (Hno e He).
        -- apply (tick_goals (netGoals (heap s0)) t st T); try assumption.
           eapply List.Forall_impl; [| apply netGoals_ok].
           intros g (Hlt & _ & Hnd). split; [exact Hlt |].
           split; [exact Hnd |]. intros _ e He. apply Hent. exact He.
      * destruct HM as (Hent & Hset). rewrite List.Forall_forall in Hent.
        split.
        -- apply tick_entries; try assumption.
           ++ intros e0 H0 Hd0. destruct (Hent e0 H0) as [Hf0 | (Ht0 & _)];
                [exact Hf0 |].
              destruct (Timed_over T t e0 Ht0 HT) as (Hd0' & _). congruence.
           ++ intros e0 e' H0 _ Hc0 Hre.
              destruct (Hent e0 H0) as [Hf0 | (Ht0 & _)].
              ** apply Fading_rescheduled with e0; assumption.
              ** destruct (Timed_over T t e0 Ht0 HT) as (_ & Hc0'). congruence.
           ++ intros e' e0 He' _ _ _. apply fadeEntries_Fading with t. exact He'.
        -- apply (tick_goals (menuGoals (heap s0)) t st T); try assumption.
           eapply List.Forall_impl; [| apply menuGoals_ok].
           intros g (Hlt & _ & Hnd & Hoff). split; [exact Hlt |].
           split; [exact Hnd |]. intros Hon. congruence.
    + (* it goes on *)
      assert (Hlt : t < T).
      { destruct (Qlt_le_dec t T) as [H | H]; [exact H |].
        apply Qle_bool_iff in H. congruence. }
      destruct (Hstay (or_intror (ex_intro _ T (ex_intro _ cb (conj HF Hlt)))))
        as (Kc & _ & Kf).
      unfold Motion. rewrite Kc. exists T, cb.
      split; [rewrite Kf; exact HF |].
      destruct cb as [| | | f]; try contradiction.
      * destruct HM as (Hent & Hset). rewrite List.Forall_forall in Hent.
        split.
        -- apply tick_entries; try assumption.
           ++ intros e0 H0 _. apply Hent. exact H0.
           ++ intros e0 e' H0 _ _ Hre.
              destruct (Hent e0 H0) as (Ht0 & Ho0 & Hf0).
              split; [apply Timed_rescheduled with e0; assumption |].
              destruct (rescheduled_calm e0 e' Hre) as (Hc1 & Hc2). auto.
           ++ intros e' e0 _ H0 _ Hf0. destruct (Hent e0 H0) as (_ & _ & Hf0').
              congruence.
        -- apply (tick_goals (netGoals (heap s0)) t st T); try assumption.
           eapply List.Forall_impl; [| apply netGoals_ok].
           intros g (Hlt' & _ & Hnd). split; [exact Hlt' |].
           split; [exact Hnd |]. intros _ e He. apply Hent. exact He.
      * destruct HM as (Hent & Hset). rewrite List.Forall_forall in Hent.
        split.
        -- apply tick_entries; try assumption.
           ++ intros e0 H0 _. apply Hent. exact H0.
           ++ intros e0 e' H0 _ _ Hre.
              destruct (Hent e0 H0) as [Hf0 | (Ht0 & Hoff)].
              ** left. apply Fading_rescheduled with e0; assumption.
              ** right. split; [apply Timed_rescheduled with e0; assumption |].
                 destruct (rescheduled_same 0%nat e0 e' Hre)
                   as (_ & _ & _ & _ & _ & Hon & _).
                 rewrite Hon. exact Hoff.
           ++ intros e' e0 He' _ _ _. left.
              apply fadeEntries_Fading with t. exact He'.
        -- apply (tick_goals (menuGoals (heap s0)) t st T); try assumption.
           eapply List.Forall_impl; [| apply menuGoals_ok].
           intros g (Hlt' & _ & Hnd & Hoff). split; [exact Hlt' |].
           split; [exact Hnd |]. intros Hon. congruence.
  - (* Menu *)
    destruct HM as (Hp & HL).
    assert (HF : inFlight st = []).
    { pose proof HI as (_ & _ & _ & _ & _ & Hc & _).
      unfold ControlInv in Hc. rewrite Hcs in Hc. exact Hc. }
    destruct (Hstay (or_introl HF)) as (Kc & _ & _).
    unfold Motion. rewrite Kc.
    rewrite List.Forall_forall in Hp. split.
    + apply tick_entries; try assumption.
      * intros e0 H0 _. apply Hp. exact H0.
      * intros e0 e' H0 _ _ Hre. apply Fading_rescheduled with e0;
          [apply Hp; exact H0 | exact Hre].
      * intros e' e0 He' _ _ _. apply fadeEntries_Fading with t. exact He'.
    + unfold Layout in *.
      pose proof (menuGoals_ok (heap s0)) as Hok.
      rewrite List.Forall_forall in HL, Hok.
      apply List.Forall_forall. intros g Hin.
      destruct (Hok g Hin) as (_ & _ & _ & Hoff).
      apply holds_frame with (heap st); [| apply HL; exact Hin].
      apply F2. intros e He _. apply Fading_reaches; [apply Hp; exact He | exact Hoff].
Qed.

Lemma Motion_step s0 st ev :
  Inv s0 st -> Motion s0 st -> Motion s0 (step st ev).
Proof.
  intros HI HM. destruct ev as [rect e | rect e | now | t | w h].
  - apply Motion_click; assumption.
  - rewrite step_touch. destruct (touches e !! 0%nat) as [touch |].
    + apply Motion_click; [apply Inv_set_prevented; exact HI | exact HM].
    + exact HM.
  - pose proof HI as (Hs & _).
    destruct (currentState st) eqn:Hcs.
    + unfold step, handle. rewrite (animate_idle_eq now st Hs Hcs).
      unfold Motion in *. simpl. rewrite Hcs in *. exact HM.
    + unfold step, handle, animate, bind, gets. rewrite Hcs. exact HM.
    + unfold step, handle, animate, bind, gets. rewrite Hcs. exact HM.
    + unfold step, handle, animate, bind, gets. rewrite Hcs. exact HM.
  - apply Motion_tick; assumption.
  - exact HM.
Qed.

Lemma Motion_reachable st :
  Reachable st ->
  exists w h now,
    Inv (mounted w h now) st /\ Motion (mounted w h now) st.
Proof.
  intros (w & h & now & Hr). exists w, h, now.
  induction Hr as [| st ev Hr (HI & HM)].
  - split; [apply Inv_start |].
    unfold Motion. rewrite mounted_idle. apply mounted_pending.
  - split; [apply Inv_step; exact HI | apply Motion_step; assumption].
Qed.

(** *** Where the transitions end *)

Lemma holds_readVec (h : list (list (string * Q))) r x y z :
  holds h r (vec3 x y z) -> readVec h r = vec3 x y z.
Proof.
  unfold holds, vec3. intros H.
  inversion H as [| ? ? Hx H1]; subst. inversion H1 as [| ? ? Hy H2]; subst.
  inversion H2 as [| ? ? Hz _]; subst. simpl in Hx, Hy, Hz.
  unfold readVec, vec3. rewrite Hx, Hy, Hz. reflexivity.
Qed.

Lemma edgeMaterials_eq st : Struct st -> edgeMaterials st = edgeMats0.
Proof.
  intros (_ & Ho & _ & He & _). unfold edgeMaterials. rewrite Ho, He.
  reflexivity.
Qed.

Lemma objRefs_eq st i :
  Struct st ->
  objPosition st i = posRef i /\ objRotation st i = rotRef i /\
  objScale st i = scaleRef i.
Proof.
  intros (_ & Ho & _). unfold objPosition, objRotation, objScale.
  rewrite Ho. repeat split.
Qed.

Lemma mounted_net_table w h now :
  map (fun f => (readVec (heap (mounted w h now)) (netPosition f),
                 readVec (heap (mounted w h now)) (netRotation f))) faces0
  = [ (vec3 (-0.5) 0 0, vec3 0 0 0); (vec3 0.5 0 0, vec3 0 0 0);
      (vec3 (-1.5) 0 0, vec3 0 0 0); (vec3 (-0.5) 1 0, vec3 0 0 0);
      (vec3 (-0.5) (-1) 0, vec3 0 0 0); (vec3 1.5 0 0, vec3 0 0 0) ].
Proof. vm_compute. reflexivity. Qed.

Lemma mounted_menu_table w h now :
  map (fun f => (readVec (heap (mounted w h now)) (menuPosition f),
                 readVec (heap (mounted w h now)) (menuRotation f))) faces0
  = [ (vec3 0 1.5 0, vec3 0 0 0); (vec3 0 (-0.5) 0, vec3 0 0 0);
      (vec3 0 0.5 0, vec3 0 0 0); (vec3 0 2.5 0, vec3 0 0 0);
      (vec3 0 (-1.5) 0, vec3 0 0 0); (vec3 0 (-2.5) 0, vec3 0 0 0) ].
Proof. vm_compute. reflexivity. Qed.

Lemma map_eq_on {A B} (f g : A -> B) l :
  (forall a, In a l -> f a = g a) -> map f l = map g l.
Proof.
  induction l as [| a l IH]; intros H; simpl; [reflexivity |].
  rewrite (H a (or_introl eq_refl)), IH; [reflexivity |].
  intros b Hb. apply H. right. exact Hb.
Qed.

(** X8.  Where the unfold ends.  Whenever the state is Net the timeline
    is empty and the scene is the flat net: every face mesh has the
    position and the rotation of its [netPosition] and [netRotation]
    records (the cross with the front face at (-0.5, 0, 0), all rotations
    zero), the cube group is turned back to rotation x = y = 0, stands at
    height 0 and has scale 1, and all twelve edge materials have
    opacity 0. *)
Theorem net_layout st :
  Reachable st -> currentState st = net ->
  pending st = [] /\
  (forall f, In f (faces st) ->
     readVec (heap st) (objPosition st (mesh f))
       = readVec (heap st) (netPosition f) /\
     readVec (heap st) (objRotation st (mesh f))
       = readVec (heap st) (netRotation f)) /\
  map (fun f => (readVec (heap st) (objPosition st (mesh f)),
                 readVec (heap st) (objRotation st (mesh f)))) (faces st)
    = [ (vec3 (-0.5) 0 0, vec3 0 0 0); (vec3 0.5 0 0, vec3 0 0 0);
        (vec3 (-1.5) 0 0, vec3 0 0 0); (vec3 (-0.5) 1 0, vec3 0 0 0);
        (vec3 (-0.5) (-1) 0, vec3 0 0 0); (vec3 1.5 0 0, vec3 0 0 0) ] /\
  heapGet (heap st) (objRotation st (cubeGroup st)) "x" = 0 /\
  heapGet (heap st) (objRotation st (cubeGroup st)) "y" = 0 /\
  heapGet (heap st) (objPosition st (cubeGroup st)) "y" = 0 /\
  readVec (heap st) (objScale st (cubeGroup st)) = vec3 1 1 1 /\
  Forall (fun m => opacityOf st m = 0) (edgeMaterials st).
Proof.
  intros Hr Hnet.
  destruct (Motion_reachable st Hr) as (w & h & now & HI & HM).
  pose proof HI as (Hs & _ & Ht & _).
  unfold Motion in HM. rewrite Hnet in HM. destruct HM as (Hp & HL).
  unfold Layout in HL. rewrite List.Forall_forall in HL.
  pose proof Hs as (Hf & _ & Hcg & _).
  assert (Hface : forall f, In f faces0 ->
            readVec (heap st) (objPosition st (mesh f))
              = readVec (heap (mounted w h now)) (netPosition f) /\
            readVec (heap st) (objRotation st (mesh f))
              = readVec (heap (mounted w h now)) (netRotation f)).
  { intros f Hin.
    destruct (objRefs_eq st (mesh f) Hs) as (-> & -> & _). split.
    - apply holds_readVec.
      apply (HL (posRef (mesh f),
                 readVec (heap (mounted w h now)) (netPosition f))).
      unfold netGoals. apply in_or_app. right. apply in_or_app. left.
      apply in_flat_map. exists f. split; [exact Hin | left; reflexivity].
    - apply holds_readVec.
      apply (HL (rotRef (mesh f),
                 readVec (heap (mounted w h now)) (netRotation f))).
      unfold netGoals. apply in_or_app. right. apply in_or_app. left.
      apply in_flat_map. exists f.
      split; [exact Hin | right; left; reflexivity]. }
  assert (Htab : forall f, In f faces0 ->
            readVec (heap st) (netPosition f)
              = readVec (heap (mounted w h now)) (netPosition f) /\
            readVec (heap st) (netRotation f)
              = readVec (heap (mounted w h now)) (netRotation f)).
  { intros f Hin.
    split; apply readVec_table; apply Ht; unfold tableRefs;
      revert Hin; unfold faces0; simpl; intros Hin;
      repeat (destruct Hin as [<- | Hin]; [simpl; tauto |]); contradiction. }
  destruct (objRefs_eq st 2 Hs) as (Hgp & Hgr & Hgs).
  assert (Hrot : holds (heap st) (rotRef 2) [("x", 0); ("y", 0)]).
  { apply (HL (rotRef 2, [("x", 0); ("y", 0)])).
    unfold netGoals. apply in_or_app. left. simpl. tauto. }
  assert (Hpos : holds (heap st) (posRef 2) [("y", 0)]).
  { apply (HL (posRef 2, [("y", 0)])).
    unfold netGoals. apply in_or_app. left. simpl. tauto. }
  assert (Hsc : holds (heap st) (scaleRef 2) (vec3 1 1 1)).
  { apply (HL (scaleRef 2, [("x", 1); ("y", 1); ("z", 1)])).
    unfold netGoals. apply in_or_app. left. simpl. tauto. }
  split; [exact Hp |]. split.
  { intros f Hin. rewrite Hf in Hin.
    destruct (Hface f Hin) as (-> & ->). destruct (Htab f Hin) as (-> & ->).
    auto. }
  split.
  { rewrite Hf. rewrite <- (mounted_net_table w h now).
    apply map_eq_on. intros f Hin. destruct (Hface f Hin) as (-> & ->).
    reflexivity. }
  rewrite Hcg, Hgp, Hgr, Hgs.
  inversion Hrot as [| ? ? Hx H1]; subst. inversion H1 as [| ? ? Hy _]; subst.
  inversion Hpos as [| ? ? Hy' _]; subst.
  split; [exact Hx |]. split; [exact Hy |]. split; [exact Hy' |].
  split; [apply holds_readVec; exact Hsc |].
  rewrite (edgeMaterials_eq st Hs). apply List.Forall_forall. intros m Hm.
  assert (Hop : holds (heap st) m [("opacity", 0)]).
  { apply (HL (m, [("opacity", 0)])).
    unfold netGoals. apply in_or_app. right. apply in_or_app. right.
    apply (in_map (fun m => (m, [("opacity", 0)]))). exact Hm. }
  inversion Hop as [| ? ? Ho _]; subst. exact Ho.
Qed.

(** X9.  Where the menu transition ends.  Whenever the state is Menu,
    every face mesh has the position and the rotation of its
    [menuPosition] and [menuRotation] records (a column at x = 0, all
    rotations zero), the cube group has scale 0.5, stands at
    (-2.5, 1.5, 0) and keeps rotation x = y = 0, and the only children
    left on the timeline are tweens that take the opacity of an edge
    material to 0. *)
Theorem menu_layout st :
  Reachable st -> currentState st = menu ->
  (forall f, In f (faces st) ->
     readVec (heap st) (objPosition st (mesh f))
       = readVec (heap st) (menuPosition f) /\
     readVec (heap st) (objRotation st (mesh f))
       = readVec (heap st) (menuRotation f)) /\
  map (fun f => (readVec (heap st) (objPosition st (mesh f)),
                 readVec (heap st) (objRotation st (mesh f)))) (faces st)
    = [ (vec3 0 1.5 0, vec3 0 0 0); (vec3 0 (-0.5) 0, vec3 0 0 0);
        (vec3 0 0.5 0, vec3 0 0 0); (vec3 0 2.5 0, vec3 0 0 0);
        (vec3 0 (-1.5) 0, vec3 0 0 0); (vec3 0 (-2.5) 0, vec3 0 0 0) ] /\
  readVec (heap st) (objScale st (cubeGroup st)) = vec3 0.5 0.5 0.5 /\
  readVec (heap st) (objPosition st (cubeGroup st)) = vec3 (-2.5) 1.5 0 /\
  heapGet (heap st) (objRotation st (cubeGroup st)) "x" = 0 /\
  heapGet (heap st) (objRotation st (cubeGroup st)) "y" = 0 /\
  Forall (fun e =>
            exists m s d from,
              In m (edgeMaterials st) /\ 0 <= d /\
              e = mkEntry s (CTween (mkTween m [("opacity", 0)] d None from)))
         (pending st).
Proof.
  intros Hr Hmenu.
  destruct (Motion_reachable st Hr) as (w & h & now & HI & HM).
  pose proof HI as (Hs & _ & Ht & _).
  unfold Motion in HM. rewrite Hmenu in HM. destruct HM as (Hp & HL).
  unfold Layout in HL. rewrite List.Forall_forall in HL.
  pose proof Hs as (Hf & _ & Hcg & _).
  assert (Hface : forall f, In f faces0 ->
            readVec (heap st) (objPosition st (mesh f))
              = readVec (heap (mounted w h now)) (menuPosition f) /\
            readVec (heap st) (objRotation st (mesh f))
              = readVec (heap (mounted w h now)) (menuRotation f)).
  { intros f Hin.
    destruct (objRefs_eq st (mesh f) Hs) as (-> & -> & _). split.
    - apply holds_readVec.
      apply (HL (posRef (mesh f),
                 readVec (heap (mounted w h now)) (menuPosition f))).
      unfold menuGoals. apply in_or_app. right.
      apply in_flat_map. exists f. split; [exact Hin | left; reflexivity].
    - apply holds_readVec.
      apply (HL (rotRef (mesh f),
                 readVec (heap (mounted w h now)) (menuRotation f))).
      unfold menuGoals. apply in_or_app. right.
      apply in_flat_map. exists f.
      split; [exact Hin | right; left; reflexivity]. }
  assert (Htab : forall f, In f faces0 ->
            readVec (heap st) (menuPosition f)
              = readVec (heap (mounted w h now)) (menuPosition f) /\
            readVec (heap st) (menuRotation f)
              = readVec (heap (mounted w h now)) (menuRotation f)).
  { intros f Hin.
    split; apply readVec_table; apply Ht; unfold tableRefs;
      revert Hin; unfold faces0; simpl; intros Hin;
      repeat (destruct Hin as [<- | Hin]; [simpl; tauto |]); contradiction. }
  destruct (objRefs_eq st 2 Hs) as (Hgp & Hgr & Hgs).
  assert (Hrot : holds (heap st) (rotRef 2) [("x", 0); ("y", 0)]).
  { apply (HL (rotRef 2, [("x", 0); ("y", 0)])).
    unfold menuGoals. apply in_or_app. left. simpl. tauto. }
  assert (Hsc : holds (heap st) (scaleRef 2) (vec3 0.5 0.5 0.5)).
  { apply (HL (scaleRef 2, [("x", 0.5); ("y", 0.5); ("z", 0.5)])).
    unfold menuGoals. apply in_or_app. left. simpl. tauto. }
  assert (Hpos : holds (heap st) (posRef 2) (vec3 (-2.5) 1.5 0)).
  { apply (HL (posRef 2, [("x", -2.5); ("y", 1.5); ("z", 0)])).
    unfold menuGoals. apply in_or_app. left. simpl. tauto. }
  split.
  { intros f Hin. rewrite Hf in Hin.
    destruct (Hface f Hin) as (-> & ->). destruct (Htab f Hin) as (-> & ->).
    auto. }
  split.
  { rewrite Hf. rewrite <- (mounted_menu_table w h now).
    apply map_eq_on. intros f Hin. destruct (Hface f Hin) as (-> & ->).
    reflexivity. }
  rewrite Hcg, Hgp, Hgr, Hgs.
  inversion Hrot as [| ? ? Hx H1]; subst. inversion H1 as [| ? ? Hy _]; subst.
  split; [apply holds_readVec; exact Hsc |].
  split; [apply holds_readVec; exact Hpos |].
  split; [exact Hx |]. split; [exact Hy |].
  rewrite (edgeMaterials_eq st Hs). exact Hp.
Qed.

(** X10.  Unfolding never navigates.  As long as the cube is Idle, is
    unfolding, or lies unfolded in Net, nothing has been pushed to the
    router; and in Idle nothing is on the timeline. *)
Theorem nothing_pushed_before_menu st :
  Reachable st ->
  (currentState st = idle \/ currentState st = net \/
   (exists T, inFlight st = [mkEntry T (CCall cb_setNet)]) ->
   pushes st = []) /\
  (currentState st = idle -> pending st = []).
Proof.
  intros Hr. split.
  - destruct Hr as (w & h & now & Hr).
    induction Hr as [| st ev Hr IH].
    + intros _. apply mounted_pushes.
    + pose proof (Inv_reachable _ st (Inv_start w h now) Hr) as HI.
      pose proof HI as (_ & _ & _ & _ & _ & Hc & _).
      intros Hpre.
      destruct (step_control _ st ev HI)
        as [(K1 & K2 & K3) | [(K0 & K1 & K2 & K3 & _)
            | [(K0 & K1 & (d & f & _ & _ & K2) & K3 & _)
              | (K0 & T & cb & t & HF & _ & _ & K1 & _ & K2 & K3)]]].
      * rewrite K3. apply IH. rewrite K1, K2 in Hpre. exact Hpre.
      * rewrite K3. apply IH. left. exact K0.
      * rewrite K1, K2 in Hpre.
        destruct Hpre as [H | [H | (T & H)]]; discriminate.
      * rewrite K1, K2 in Hpre. rewrite K3.
        destruct Hpre as [H | [H | (T' & H)]]; [| | discriminate].
        -- destruct cb; discriminate.
        -- destruct cb; try discriminate.
           rewrite IH; [reflexivity |]. right. right. exists T. exact HF.
  - intros Hidle.
    destruct (Motion_reachable st Hr) as (w & h & now & _ & HM).
    unfold Motion in HM. rewrite Hidle in HM. exact HM.
Qed.

(** *** What never changes *)

Lemma animated_edge r : animated r = false -> isEdgeMat r = false.
Proof.
  unfold animated. intros H. apply orb_false_iff in H. tauto.
Qed.

Lemma aimed_reaches r e :
  (r < 142)%nat -> animated r = false -> aimed e = true ->
  reaches r e = false.
Proof.
  intros Hlt Hr He. unfold reaches.
  rewrite (animated_edge r Hr), andb_false_r, orb_false_r.
  unfold aimed in He. unfold writer.
  destruct (e_child e) as [tw |]; [| reflexivity].
  apply Nat.eqb_neq. intros Heq. rewrite Heq in He.
  apply orb_true_iff in He. destruct He as [He | He]; [congruence |].
  apply Nat.leb_le in He. lia.
Qed.

Lemma rescheduled_aimed e e' : rescheduled e e' -> aimed e' = aimed e.
Proof.
  intros (tw & from & os & Hch & _ & ->). unfold aimed. rewrite Hch.
  reflexivity.
Qed.

Lemma fadeEntries_aimed v d c e : In e (fadeEntries v d c) -> aimed e = true.
Proof.
  unfold fadeEntries. intros Hin. apply in_map_iff in Hin.
  destruct Hin as (m & <- & Hm). apply in_rev in Hm.
  apply isEdgeMat_In in Hm.
  unfold aimed. cbn [e_child tw_target].
  replace (animated m) with true; [reflexivity |].
  unfold animated. rewrite Hm. symmetry. apply orb_true_r.
Qed.

Lemma unfold_aimed st :
  Struct st -> Forall (fun e => aimed e = true) (pending st) ->
  exists st',
    unfoldCubeNet st = Val tt st' /\ heap st' = heap st /\
    Forall (fun e => aimed e = true) (pending st').
Proof.
  intros Hs Hp. destruct st as [cs h objs fs cg eg m ca cl pend pu co pr].
  destruct Hs as (? & ? & ? & ? & ?). simpl in *. subst.
  eexists. split; [pe; reflexivity |]. split; [reflexivity |].
  cbn [pending]. repeat (constructor; [reflexivity |]). exact Hp.
Qed.

Lemma transition_aimed f st :
  Struct st -> (142 <= length (heap st))%nat ->
  currentState st = net \/ currentState st = menu ->
  Forall (fun e => aimed e = true) (pending st) ->
  exists st',
    transitionToMenuAndNavigate f st = Val tt st' /\
    heap st' = heapAlloc (heap st) [] /\
    Forall (fun e => aimed e = true) (pending st').
Proof.
  intros Hs Hl Hcs Hp. destruct st as [cs h objs fs cg eg m ca cl pend pu co pr].
  destruct Hs as (? & ? & ? & ? & ?). simpl in *. subst.
  destruct Hcs as [-> | ->].
  all: eexists; split; [pe_offsets; reflexivity |]; split; [reflexivity |].
  all: cbn [pending];
    repeat (constructor;
            [ first [ reflexivity
                    | unfold aimed; cbn [e_child tw_target];
                      apply orb_true_iff; right; apply Nat.leb_le; exact Hl ]
            | ]);
    exact Hp.
Qed.

Lemma Frozen_step s0 st ev :
  Inv s0 st -> Frozen s0 st -> Frozen s0 (step st ev).
Proof.
  intros HI (Hp & Hh).
  assert (Hmouse : forall rect e st0,
            Inv s0 st0 -> Frozen s0 st0 -> Frozen s0 (withMouse rect e st0)).
  { intros rect e st0 (Hs0 & _) (Hp0 & Hh0). split; [exact Hp0 |].
    intros r Hlt Hr. rewrite withMouse_frame; [apply Hh0; assumption | exact Hs0 |].
    intros ->. discriminate. }
  assert (Hclick : forall rect e st0,
            Inv s0 st0 -> Frozen s0 st0 -> Frozen s0 (step st0 (Click rect e))).
  { intros rect e st0 HI0 HF0.
    pose proof (Inv_withMouse s0 rect e st0 HI0) as HI1.
    pose proof (Hmouse rect e st0 HI0 HF0) as HF1.
    pose proof HI1 as (Hs1 & Hl1 & _).
    unfold step, handle.
    rewrite (onCanvasClick_cases rect e st0 (Inv_Good _ _ HI0)). cbv zeta.
    destruct (intersectionsAt rect e st0 !! 0%nat) as [first |]; [| exact HF1].
    destruct (isEdgeObject st0 (object first)); [exact HF1 |].
    change (currentState st0) with (currentState (withMouse rect e st0)).
    change (faces st0) with (faces (withMouse rect e st0)).
    set (st1 := withMouse rect e st0) in *.
    destruct HF1 as (Hp1 & Hh1).
    assert (Hmenu : forall face,
              currentState st1 = net \/ currentState st1 = menu ->
              Frozen s0 (stateOf (transitionToMenuAndNavigate face st1))).
    { intros face Hcs.
      destruct (transition_aimed face st1 Hs1 Hl1 Hcs Hp1)
        as (st' & Hrun & Hheap & Hp').
      rewrite Hrun. simpl stateOf. split; [exact Hp' |].
      intros r Hlt Hr. rewrite Hheap. unfold heapAlloc.
      rewrite lookup_app_l by lia. apply Hh1; assumption. }
    destruct (currentState st1) eqn:Hcs.
    - destruct (unfold_aimed st1 Hs1 Hp1) as (st' & Hrun & Hheap & Hp').
      rewrite Hrun. simpl stateOf. split; [exact Hp' |].
      intros r Hlt Hr. rewrite Hheap. apply Hh1; assumption.
    - destruct (List.find _ _) as [face |]; [| split; assumption].
      apply Hmenu. left. reflexivity.
    - split; assumption.
    - destruct (List.find _ _) as [face |]; [| split; assumption].
      apply Hmenu. right. reflexivity. }
  pose proof HI as (Hs & Hl & _).
  destruct ev as [rect e | rect e | now | t | w h].
  - apply Hclick; [exact HI | split; assumption].
  - rewrite step_touch. destruct (touches e !! 0%nat) as [touch |].
    + apply Hclick; [apply Inv_set_prevented; exact HI | split; assumption].
    + split; assumption.
  - destruct (currentState st) eqn:Hcs.
    + unfold step, handle. rewrite (animate_idle_eq now st Hs Hcs).
      split; [exact Hp |]. intros r Hlt Hr. simpl. unfold heapUpdate.
      assert (H6 : 6%nat <> r) by (intros <-; discriminate).
      assert (H8 : 8%nat <> r) by (intros <-; discriminate).
      rewrite !list_lookup_alter_ne by assumption. apply Hh; assumption.
    + unfold step, handle, animate, bind, gets. rewrite Hcs. split; assumption.
    + unfold step, handle, animate, bind, gets. rewrite Hcs. split; assumption.
    + unfold step, handle, animate, bind, gets. rewrite Hcs. split; assumption.
  - destruct (Qle_bool (clock st) t) eqn:Hg.
    2: { unfold step, handle. rewrite (tick_late t st Hg). split; assumption. }
    rewrite List.Forall_forall in Hp. split.
    + apply tick_entries; try assumption.
      * intros e0 H0 _. apply Hp. exact H0.
      * intros e0 e' H0 _ _ Hre. rewrite (rescheduled_aimed e0 e' Hre).
        apply Hp. exact H0.
      * intros e' e0 He' _ _ _. apply fadeEntries_aimed with 0 0.5 t. exact He'.
    + destruct (tick_footprint t st Hs Hg)
        as (new & _ & _ & _ & _ & F2 & _).
      intros r Hlt Hr. rewrite F2; [apply Hh; assumption |].
      intros e0 H0 _. apply aimed_reaches; [exact Hlt | exact Hr |].
      apply Hp. exact H0.
  - split; assumption.
Qed.

Lemma Frozen_reachable w h now st :
  ReachableFrom (mounted w h now) st -> Frozen (mounted w h now) st.
Proof.
  induction 1 as [| st ev Hr IH].
  - split; [rewrite mounted_pending; constructor | reflexivity].
  - apply Frozen_step; [| exact IH].
    apply Inv_reachable; [apply Inv_start | exact Hr].
Qed.

Lemma mounted_materials w h now :
  Forall (fun f =>
            exists m,
              match scene0 !! mesh f with
              | Some o => material o
              | None => None
              end = Some m /\
              (m < 142)%nat /\ animated m = false /\
              heap (mounted w h now) !! m
              = Some [("color", faceColor (name f)); ("opacity", 1)])
         faces0.
Proof.
  unfold faces0.
  repeat (constructor;
          [ eexists; split; [cbv; reflexivity |];
            split; [simpl; lia |];
            split; [reflexivity | vm_compute; reflexivity]
          | ]).
  constructor.
Qed.

Lemma mounted_edges w h now :
  map (fun i => (readVec (heap (mounted w h now)) (posRef i),
                 readVec (heap (mounted w h now)) (rotRef i),
                 readVec (heap (mounted w h now)) (scaleRef i)))
      [4; 5; 6; 7; 8; 9; 10; 11; 12; 13; 14; 15]%nat
  = map (fun d => (vec3 (fst (fst (snd d))) (snd (fst (snd d))) (snd (snd d)),
                   vec3 0 0 0, vec3 1 1 1)) edgesData.
Proof. vm_compute. reflexivity. Qed.

(** X11.  What the component never touches.  After [init] the handlers,
    the render loop and the tweens write only the [mouse] vector, the
    transform vectors of the cube group, position and rotation of the face
    meshes and the edge materials; every other object [init] made is, in
    every reachable state, as [init] left it.  In particular each face
    keeps the colour [faceColors] gives its name and stays fully opaque,
    and the twelve edge meshes keep the places [edgesData] lists, with
    rotation zero and scale one. *)
Theorem scene_constants w h now st :
  ReachableFrom (mounted w h now) st ->
  (forall r, (r < 142)%nat -> animated r = false ->
     heap st !! r = heap (mounted w h now) !! r) /\
  Forall (fun f =>
            exists m, objMaterial st (mesh f) = Some m /\
                      heap st !! m
                      = Some [("color", faceColor (name f)); ("opacity", 1)])
         (faces st) /\
  map (fun i => (readVec (heap st) (objPosition st i),
                 readVec (heap st) (objRotation st i),
                 readVec (heap st) (objScale st i))) (edgeMeshes st)
  = map (fun d => (vec3 (fst (fst (snd d))) (snd (fst (snd d))) (snd (snd d)),
                   vec3 0 0 0, vec3 1 1 1)) edgesData.
Proof.
  intros Hr. destruct (Frozen_reachable w h now st Hr) as (_ & Hh).
  pose proof (Inv_reachable _ st (Inv_start w h now) Hr) as (Hs & _).
  pose proof Hs as (Hf & Ho & _ & He & _).
  split; [exact Hh |]. split.
  - rewrite Hf. unfold objMaterial. rewrite Ho.
    eapply List.Forall_impl; [| apply (mounted_materials w h now)].
    intros f (m & Hm & Hlt & Ha & Hheap). exists m.
    split; [exact Hm |]. rewrite Hh by assumption. exact Hheap.
  - unfold edgeMeshes. rewrite Ho, He.
    rewrite <- (mounted_edges w h now).
    change (scene0 !! 3%nat)
      with (Some (mkObject3D 9 10 11 None None false
                    [4; 5; 6; 7; 8; 9; 10; 11; 12; 13; 14; 15]%nat)).
    cbv beta iota. cbn [children].
    apply map_eq_on. intros i Hi.
    destruct (objRefs_eq st i Hs) as (-> & -> & ->).
    assert (Hfix : (posRef i < 142)%nat /\ animated (posRef i) = false /\
                   (rotRef i < 142)%nat /\ animated (rotRef i) = false /\
                   (scaleRef i < 142)%nat /\ animated (scaleRef i) = false).
    { simpl in Hi.
      repeat (destruct Hi as [<- | Hi];
              [repeat split; apply Nat.ltb_lt; reflexivity |]).
      contradiction. }
    destruct Hfix as (L1 & A1 & L2 & A2 & L3 & A3).
    rewrite (readVec_table _ _ _ (Hh _ L1 A1)),
            (readVec_table _ _ _ (Hh _ L2 A2)),
            (readVec_table _ _ _ (Hh _ L3 A3)).
    reflexivity.
Qed.

(** *** The camera *)

Lemma click_aspect s0 rect e st :
  Inv s0 st -> camera_aspect (step st (Click rect e)) = camera_aspect st.
Proof.
  intros HI. pose proof (Inv_withMouse s0 rect e st HI) as HI1.
  pose proof (Inv_Good _ _ HI1) as HG1.
  unfold step, handle.
  rewrite (onCanvasClick_cases rect e st (Inv_Good _ _ HI)). cbv zeta.
  destruct (intersectionsAt rect e st !! 0%nat) as [first |]; [| reflexivity].
  destruct (isEdgeObject st (object first)); [reflexivity |].
  change (currentState st) with (currentState (withMouse rect e st)).
  change (faces st) with (faces (withMouse rect e st)).
  change (camera_aspect st) with (camera_aspect (withMouse rect e st)).
  set (st1 := withMouse rect e st) in *.
  assert (Hmenu : forall face,
            currentState st1 = net \/ currentState st1 = menu ->
            camera_aspect (stateOf (transitionToMenuAndNavigate face st1))
            = camera_aspect st1).
  { intros face Hcs.
    destruct (transition_effect face st1 HG1 Hcs)
      as (st' & p' & d & Hrun & _ & _ & _ & A1 & _).
    rewrite Hrun. exact A1. }
  destruct (currentState st1) eqn:Hcs.
  - destruct (unfoldCubeNet_effect st1 HG1)
      as (st' & p' & Hrun & _ & _ & _ & A1 & _).
    rewrite Hrun. exact A1.
  - destruct (List.find _ _) as [face |]; [| reflexivity].
    apply Hmenu. left. reflexivity.
  - reflexivity.
  - destruct (List.find _ _) as [face |]; [| reflexivity].
    apply Hmenu. right. reflexivity.
Qed.

Lemma step_aspect st ev :
  Reachable st ->
  camera_aspect (step st ev)
  = match ev with
    | Resize w h => w / h
    | _ => camera_aspect st
    end.
Proof.
  intros Hr.
  destruct (Reachable_Inv st Hr) as (s0 & HI).
  destruct ev as [rect e | rect e | now | t | w h].
  - apply (click_aspect s0). exact HI.
  - rewrite step_touch. destruct (touches e !! 0%nat) as [touch |].
    + apply (click_aspect s0 _ _ (set_prevented (S (prevented st)) st)).
      apply Inv_set_prevented. exact HI.
    + reflexivity.
  - destruct (animate_effect now st (Inv_Good _ _ HI)) as (st' & Hrun & Heff).
    unfold step, handle. rewrite Hrun.
    destruct Heff as (_ & _ & A1 & _). exact A1.
  - unfold step, handle. destruct (Qle_bool (clock st) t) eqn:Hg.
    + pose proof HI as (_ & _ & _ & _ & Hp & _).
      destruct (tick_spec t st (Inv_Good _ _ HI) Hp Hg)
        as (st' & dueC & Hrun & _ & _ & _ & A1 & _).
      rewrite Hrun. exact A1.
    + rewrite (tick_late t st Hg). reflexivity.
  - reflexivity.
Qed.

Lemma mounted_aspect w h now : camera_aspect (mounted w h now) = w / h.
Proof. vm_compute; reflexivity. Qed.

Lemma run_aspect evs : forall st sz,
  Reachable st -> camera_aspect st = fst sz / snd sz ->
  camera_aspect (run evs st)
  = fst (windowAfter evs sz) / snd (windowAfter evs sz).
Proof.
  induction evs as [| ev evs IH]; intros st sz Hr Ha; [exact Ha |].
  change (run (ev :: evs) st) with (run evs (step st ev)).
  unfold windowAfter. cbn [fold_left]. fold (windowAfter evs).
  apply IH; [apply Reachable_step; exact Hr |].
  rewrite (step_aspect st ev Hr).
  destruct ev; try exact Ha. reflexivity.
Qed.

Lemma windowAfter_tall evs : forall sz,
  ~ snd sz == 0 -> tall evs -> ~ snd (windowAfter evs sz) == 0.
Proof.
  induction evs as [| ev evs IH]; intros sz Hsz Ht; [exact Hsz |].
  inversion Ht as [| ? ? Hev Hevs]; subst.
  unfold windowAfter. cbn [fold_left]. fold (windowAfter evs).
  apply IH; [| exact Hevs].
  destruct ev; try exact Hsz. exact Hev.
Qed.

(** X12.  The camera aspect follows the window.  Take a window whose
    height is not zero at mount and at every resize.  Then after any run
    of events the camera aspect is the quotient width / height of the
    window as it is then: the size of the last resize, or the size at
    mount if there was none; the divisor is not zero.  No click, touch,
    frame or engine tick changes the aspect. *)
Theorem aspect_follows_window w h now evs :
  ~ h == 0 -> tall evs ->
  camera_aspect (run evs (mounted w h now))
  = fst (windowAfter evs (w, h)) / snd (windowAfter evs (w, h)) /\
  ~ snd (windowAfter evs (w, h)) == 0.
Proof.
  intros Hh Ht. split.
  - apply run_aspect; [exists w, h, now; apply reach_start |].
    apply mounted_aspect.
  - apply windowAfter_tall; assumption.
Qed.

(** *** Edges while the cube folds *)

Lemma fold_update_hit f (l : list nat) m :
  forall h : list (list (string * Q)),
  List.NoDup l -> In m l ->
  fold_left (fun h m => heapUpdate f m h) l h !! m = f <$> (h !! m).
Proof.
  induction l as [| a l IH]; intros h Hnd Hin; [contradiction |].
  inversion Hnd as [| ? ? Hout Hnd']; subst. simpl.
  destruct (Nat.eq_dec a m) as [-> | Hne].
  - rewrite fold_update_frame by exact Hout.
    unfold heapUpdate. rewrite list_lookup_alter, decide_True by reflexivity.
    reflexivity.
  - destruct Hin as [Heq | Hin]; [congruence |].
    rewrite IH by assumption. unfold heapUpdate.
    rewrite list_lookup_alter_ne by exact Hne. reflexivity.
Qed.

Lemma edgeMats0_NoDup : List.NoDup edgeMats0.
Proof.
  unfold edgeMats0.
  repeat (apply List.NoDup_cons; [simpl; intuition lia |]).
  apply List.NoDup_nil.
Qed.

Lemma opaqueHeap_opacity h m :
  (142 <= length h)%nat -> In m edgeMats0 ->
  heapGet (opaqueHeap h) m "opacity" = 1.
Proof.
  intros Hl Hm. unfold heapGet, opaqueHeap.
  rewrite (fold_update_hit _ _ m h edgeMats0_NoDup Hm).
  assert (Hlt : (m < length h)%nat).
  { apply isEdgeMat_In in Hm. apply isEdgeMat_lt in Hm. lia. }
  destruct (lookup_lt_is_Some_2 h m Hlt) as (o & ->).
  cbn [fmap option_fmap option_map].
  rewrite (propGet_propsAssign_in "opacity" 1 [("opacity", 1)] o);
    [reflexivity | | left; reflexivity].
  apply List.NoDup_cons; [intros [] | apply List.NoDup_nil].
Qed.

Lemma forEach_opaque t m l : forall st,
  Struct st -> (142 <= length (heap st))%nat -> In m edgeMats0 ->
  (forall e, In e l ->
     e_child e = CCall cb_edgesOpaque \/ reaches m e = false) ->
  (heapGet (heap st) m "opacity" = 1 \/
   exists e, In e l /\ e_child e = CCall cb_edgesOpaque) ->
  exists st', forEach l (render t) st = Val tt st' /\
              heapGet (heap st') m "opacity" = 1.
Proof.
  induction l as [| e l IH]; intros st Hs Hl Hm Hall Hcase.
  - destruct Hcase as [H1 | (e & [] & _)].
    exists st. split; [reflexivity | exact H1].
  - destruct (render_footprint t e st Hs)
      as (st1 & rs & Hr & S1 & _ & L1 & F1 & _).
    assert (Hgo : heapGet (heap st1) m "opacity" = 1 \/
                  (exists e0, In e0 l /\ e_child e0 = CCall cb_edgesOpaque)).
    { destruct (Hall e (or_introl eq_refl)) as [Hop | Hfr].
      - left. destruct e as [s ch]. simpl in Hop. subst ch.
        unfold render in Hr. cbn [e_child] in Hr.
        rewrite (runCallback_eq cb_edgesOpaque st Hs) in Hr.
        injection Hr as <-. simpl. apply opaqueHeap_opacity; assumption.
      - destruct Hcase as [H1 | (e0 & [<- | H0] & Hop)].
        + left. unfold heapGet. rewrite (F1 m Hfr). exact H1.
        + unfold reaches, opaques, armed in Hfr. rewrite Hop in Hfr.
          apply isEdgeMat_In in Hm. rewrite Hm in Hfr.
          rewrite orb_true_r in Hfr. discriminate.
        + right. exists e0. auto. }
    destruct (IH st1 S1) as (st' & Hrun & Hh); try assumption.
    + rewrite L1. exact Hl.
    + intros e0 H0. apply Hall. right. exact H0.
    + exists st'. split; [| exact Hh].
      simpl. unfold bind. rewrite Hr. exact Hrun.
Qed.

Lemma transition_folding f st :
  Struct st -> (142 <= length (heap st))%nat ->
  currentState st = net \/ currentState st = menu ->
  pending st = [] ->
  exists st',
    transitionToMenuAndNavigate f st = Val tt st' /\
    In (mkEntry (after (clock st) 0) (CCall cb_edgesOpaque)) (pending st') /\
    Forall (fun e =>
              onEdge e = false /\
              (opaques e = true ->
               e_child e = CCall cb_edgesOpaque /\ e_start e <= clock st) /\
              (fades e = true -> clock st + 1.2 <= e_start e))
           (pending st').
Proof.
  intros Hs Hl Hcs Hp. destruct st as [cs h objs fs cg eg m ca cl pend pu co pr].
  destruct Hs as (? & ? & ? & ? & ?). simpl in *. subst.
  destruct Hcs as [-> | ->].
  all: eexists; split; [pe_offsets; reflexivity |]; cbn [pending]; split.
  1, 3: repeat first [left; reflexivity | right].
  all: repeat (constructor;
         [ split;
           [ first [ reflexivity
                   | cbv [onEdge e_child tw_target];
                     apply isEdgeMat_ge; exact Hl ]
           | split;
             [ first [ intros H;
                       cbn [opaques fades armed e_child tw_from tw_onStart] in H;
                       discriminate H
                     | intros _; split;
                       [reflexivity | cbv [e_start after]; lra] ]
             | first [ intros H;
                       cbn [opaques fades armed e_child tw_from tw_onStart] in H;
                       discriminate H
                     | intros _; cbv [e_start after]; lra ] ] ]
         | ]).
  all: constructor.
Qed.

Lemma onEdge_writer m e :
  onEdge e = false -> In m edgeMats0 -> writer m e = false.
Proof.
  intros Hoff Hm. unfold onEdge in Hoff. unfold writer.
  destruct (e_child e) as [tw |]; [| reflexivity].
  apply Nat.eqb_neq. intros Heq. rewrite Heq in Hoff.
  apply isEdgeMat_In in Hm. congruence.
Qed.

Lemma folding_start s0 st T cb t :
  Inv s0 st -> inFlight st = [mkEntry T (CCall cb)] ->
  clock st + 1.2 <= T ->
  (exists e, In e (pending st) /\ e_child e = CCall cb_edgesOpaque) ->
  Forall (fun e =>
            onEdge e = false /\
            (opaques e = true ->
             e_child e = CCall cb_edgesOpaque /\ e_start e <= clock st) /\
            (fades e = true -> clock st + 1.2 <= e_start e))
         (pending st) ->
  clock st <= t -> t < clock st + 1.2 ->
  Folding (clock st + 1.2) (step st (Tick t)).
Proof.
  intros HI HF HT (e0 & Hin0 & Hop0) Hall Ht1 Ht2.
  pose proof HI as (Hs & Hl & _).
  rewrite List.Forall_forall in Hall.
  assert (Hg : Qle_bool (clock st) t = true) by (apply Qle_bool_iff; exact Ht1).
  assert (Hopq : forall e, In e (pending st) -> opaques e = true ->
                           Qle_bool (e_start e) t = true).
  { intros e He Ho. destruct (Hall e He) as (_ & Hq & _).
    destruct (Hq Ho) as (_ & Hle). apply Qle_bool_iff. lra. }
  assert (Hnof : forall e, In e (pending st) ->
                           Qle_bool (e_start e) t = true -> fades e = false).
  { intros e He Hd. destruct (fades e) eqn:Hf; [| reflexivity].
    destruct (Hall e He) as (_ & _ & Hq). specialize (Hq Hf).
    apply Qle_bool_iff in Hd. lra. }
  split; [| split].
  - destruct (step_in_flight s0 st (Tick t) T cb HI HF) as (_ & _ & Kf);
      [simpl; lra |].
    exists T, cb. split; [rewrite Kf; exact HF | exact HT].
  - apply tick_entries; try assumption.
    + intros e He Hd. destruct (Hall e He) as (Hoff & _ & Hq).
      split; [exact Hoff |]. split; [| exact Hq].
      destruct (opaques e) eqn:Ho; [| reflexivity].
      rewrite (Hopq e He Ho) in Hd. discriminate.
    + intros e e' He _ _ Hre. destruct (Hall e He) as (Hoff & Hq1 & Hq2).
      destruct (rescheduled_same 0%nat e e' Hre)
        as (Hs' & _ & _ & _ & _ & Hon & _).
      split; [rewrite Hon; exact Hoff |]. split.
      * destruct (opaques e') eqn:Ho; [| reflexivity].
        destruct (Hq1 (rescheduled_opaques e e' Hre Ho)) as (Hcall & _).
        destruct (rescheduled_tween e e' Hre) as (tw & Htw). congruence.
      * intros Hf. rewrite Hs'. apply Hq2.
        apply (rescheduled_fades e e' Hre Hf).
    + intros e' e _ He Hd Hf.
      rewrite (Hnof e He Hd) in Hf. discriminate.
  - apply List.Forall_forall. intros m Hm. unfold opacityOf.
    set (due := sortByStart
                  (List.filter (fun e => Qle_bool (e_start e) t)
                               (rev (pending st)))).
    set (st1 := set_clock t
                  (set_pending
                     (List.filter (fun e => negb (Qle_bool (e_start e) t))
                                  (pending st)) st)).
    destruct (forEach_opaque t m due st1) as (st' & Hrun & Hh);
      try assumption.
    + intros e He. apply due_In in He. destruct He as [He _].
      destruct (Hall e He) as (Hoff & Hq & _).
      destruct (opaques e) eqn:Ho.
      * left. apply Hq. reflexivity.
      * right. unfold reaches. rewrite Ho, (onEdge_writer m e Hoff Hm).
        reflexivity.
    + right. exists e0. split; [| exact Hop0].
      apply due_In. split; [exact Hin0 |]. apply Hopq; [exact Hin0 |].
      unfold opaques, armed. rewrite Hop0. reflexivity.
    + assert (Htick : handle (Tick t) st = Val tt st').
      { unfold handle, tick, bind, gets, modify. rewrite Hg. exact Hrun. }
      unfold step. rewrite Htick. exact Hh.
Qed.

Lemma folding_step B s0 st ev :
  Inv s0 st -> Folding B st ->
  match ev with Tick t => t < B | _ => True end ->
  Folding B (step st ev).
Proof.
  intros HI ((T & cb & HF & HB) & Hall & Hop) Hev.
  pose proof HI as (Hs & Hl & _ & _ & _ & Hc & _).
  destruct (ControlInv_clock st T cb Hc HF) as (Hcs & _ & _).
  assert (Hfl : exists T' cb', inFlight (step st ev) = [mkEntry T' (CCall cb')] /\
                               B <= T').
  { destruct (step_in_flight s0 st ev T cb HI HF) as (_ & _ & Kf).
    - destruct ev; auto. lra.
    - exists T, cb. split; [rewrite Kf; exact HF | exact HB]. }
  assert (Hclick : forall rect e st0,
            Inv s0 st0 -> currentState st0 = transitioning ->
            step st0 (Click rect e) = withMouse rect e st0).
  { intros rect e st0 HI0 Hcs0.
    destruct (click_outcome s0 rect e st0 HI0) as (_ & _ & _ & _ & _ & Hm).
    destruct (intersectionsAt rect e st0 !! 0%nat) as [first |]; [| exact Hm].
    destruct (isEdgeObject st0 (object first)); [exact Hm |].
    rewrite Hcs0 in Hm. exact Hm. }
  assert (Hmouse : forall rect e,
            Forall (fun m => opacityOf (withMouse rect e st) m = 1) edgeMats0).
  { intros rect e. rewrite List.Forall_forall in Hop.
    apply List.Forall_forall. intros m Hm. unfold opacityOf, heapGet.
    rewrite withMouse_frame; [apply Hop; exact Hm | exact Hs |].
    intros ->. unfold edgeMats0 in Hm. simpl in Hm. intuition lia. }
  split; [exact Hfl |].
  destruct ev as [rect e | rect e | now | t | w h].
  - rewrite Hclick by assumption. split; [exact Hall | apply Hmouse].
  - rewrite step_touch. destruct (touches e !! 0%nat) as [touch |].
    + rewrite Hclick; [| apply Inv_set_prevented; exact HI | exact Hcs].
      split; [exact Hall | apply (Hmouse rect)].
    + split; assumption.
  - unfold step, handle, animate, bind, gets. rewrite Hcs.
    split; assumption.
  - destruct (Qle_bool (clock st) t) eqn:Hg.
    2: { unfold step, handle. rewrite (tick_late t st Hg). split; assumption. }
    rewrite List.Forall_forall in Hall. split.
    + apply tick_entries; try assumption.
      * intros e0 H0 _. apply Hall. exact H0.
      * intros e0 e' H0 _ _ Hre. destruct (Hall e0 H0) as (Hoff & Ho & Hq).
        destruct (rescheduled_same 0%nat e0 e' Hre)
          as (Hs' & _ & _ & _ & _ & Hon & _).
        split; [rewrite Hon; exact Hoff |]. split.
        -- apply (rescheduled_calm e0 e' Hre). exact Ho.
        -- intros Hf. rewrite Hs'. apply Hq.
           apply (rescheduled_fades e0 e' Hre Hf).
      * intros e' e0 _ H0 Hd Hf. destruct (Hall e0 H0) as (_ & _ & Hq).
        specialize (Hq Hf). apply Qle_bool_iff in Hd. exfalso.
        simpl in Hev. lra.
    + destruct (tick_footprint t st Hs Hg) as (new & _ & _ & _ & _ & F2 & _).
      rewrite List.Forall_forall in Hop.
      apply List.Forall_forall. intros m Hm. unfold opacityOf, heapGet.
      rewrite F2; [apply Hop; exact Hm |].
      intros e0 H0 _. destruct (Hall e0 H0) as (Hoff & Ho & _).
      unfold reaches. rewrite Ho, (onEdge_writer m e0 Hoff Hm). reflexivity.
  - split; assumption.
Qed.

Lemma folding_run B s0 evs : forall st,
  Inv s0 st -> Folding B st -> before B evs -> Folding B (run evs st).
Proof.
  induction evs as [| ev evs IH]; intros st HI HFo Hb.
  - exact HFo.
  - inversion Hb as [| ? ? Hev Hrest]; subst. simpl. apply IH.
    + apply Inv_step. exact HI.
    + apply folding_step with s0; assumption.
    + exact Hrest.
Qed.

(** X13.  The edges are opaque while the cube folds.  After a face is
    hit in Net, the first engine tick runs the timeline's call at position
    0, which sets the opacity of every edge material to 1 at once; from
    then until the menu phase starts, 1.2 s of engine time after the hit,
    nothing changes it, whatever clicks, touches, frames, resizes and ticks
    come in between.  (From Menu this can fail, see
    [menu_refold_dims_edges].) *)
Theorem edges_opaque_while_folding st rect ev f t evs :
  Reachable st -> currentState st = net ->
  selectedFace rect ev st = Some f ->
  clock st <= t -> t < clock st + 1.2 ->
  before (clock st + 1.2) evs ->
  Forall (fun m =>
            opacityOf (run evs (step (step st (Click rect ev)) (Tick t))) m = 1)
         (edgeMaterials st).
Proof.
  intros Hr Hnet Hsel Ht1 Ht2 Hb.
  destruct (Motion_reachable st Hr) as (w & h & now & HI & HM).
  unfold Motion in HM. rewrite Hnet in HM. destruct HM as (Hp & _).
  pose proof (Inv_withMouse _ rect ev st HI) as HI1.
  pose proof HI1 as (Hs1 & Hl1 & _).
  assert (HF1 : inFlight (withMouse rect ev st) = [])
    by (unfold inFlight; change (pending (withMouse rect ev st))
          with (pending st); rewrite Hp; reflexivity).
  destruct (menu_launch _ f (withMouse rect ev st) HI1 HF1 (or_introl Hnet))
    as (st' & d & Hrun & HI' & _ & _ & Kcl & _ & _ & Hd & Kf & _).
  destruct (transition_folding f (withMouse rect ev st) Hs1 Hl1
              (or_introl Hnet) Hp) as (st'' & Hrun' & Hin & Hall).
  rewrite Hrun in Hrun'. injection Hrun' as <-.
  change (clock (withMouse rect ev st)) with (clock st) in *.
  assert (Hstep : step st (Click rect ev) = st').
  { unfold step, handle.
    rewrite (onCanvasClick_cases rect ev st (Inv_Good _ _ HI)). cbv zeta.
    unfold selectedFace in Hsel.
    destruct (intersectionsAt rect ev st !! 0%nat) as [first |];
      [| discriminate].
    destruct (isEdgeObject st (object first)); [discriminate |].
    rewrite Hnet, Hsel, Hrun. reflexivity. }
  rewrite Hstep.
  assert (HFo : Folding (clock st + 1.2) (step st' (Tick t))).
  { rewrite <- Kcl.
    apply (folding_start _ st' (after (clock st) d)
             (cb_menuNavigate f) t HI' Kf).
    - rewrite Kcl. unfold after. rewrite Hd. lra.
    - eexists. split; [exact Hin | reflexivity].
    - rewrite Kcl. exact Hall.
    - rewrite Kcl. exact Ht1.
    - rewrite Kcl. exact Ht2. }
  pose proof (folding_run _ _ evs (step st' (Tick t))
                (Inv_step _ st' (Tick t) HI') HFo Hb) as (_ & _ & Hop).
  pose proof HI as (Hs & _).
  rewrite (edgeMaterials_eq st Hs). exact Hop.
Qed.

(** *** The cube at rest *)

Lemma mounted_pose w h now : IdlePose (mounted w h now).
Proof.
  split; [vm_compute; reflexivity |].
  split; eexists; vm_compute; reflexivity.
Qed.

Lemma IdlePose_frame st st' :
  (forall r, r <> 72%nat -> heap st' !! r = heap st !! r) ->
  IdlePose st -> IdlePose st'.
Proof.
  intros Hfr (H7 & H6 & H8). unfold IdlePose.
  rewrite !Hfr by (intros Heq; discriminate Heq). auto.
Qed.

Lemma IdlePose_step s0 st ev :
  Inv s0 st -> Motion s0 st -> currentState st = idle ->
  currentState (step st ev) = idle ->
  IdlePose st -> IdlePose (step st ev).
Proof.
  intros HI HM Hcs Hcs' Hpose. pose proof HI as (Hs & _).
  assert (Hclick : forall rect e st0,
            Inv s0 st0 -> currentState (step st0 (Click rect e)) = idle ->
            IdlePose st0 -> IdlePose (step st0 (Click rect e))).
  { intros rect e st0 HI0 Hidle Hp0. pose proof HI0 as (Hs0 & _).
    assert (Heq : step st0 (Click rect e) = withMouse rect e st0).
    { destruct (click_outcome s0 rect e st0 HI0) as (_ & _ & _ & _ & _ & Hm).
      destruct (intersectionsAt rect e st0 !! 0%nat) as [first |]; [| exact Hm].
      destruct (isEdgeObject st0 (object first)); [exact Hm |].
      destruct (currentState st0); try exact Hm.
      - destruct Hm as (Hm & _). congruence.
      - destruct (List.find _ _); [| exact Hm].
        destruct Hm as (Hm & _). congruence.
      - destruct (List.find _ _); [| exact Hm].
        destruct Hm as (Hm & _). congruence. }
    rewrite Heq. apply IdlePose_frame with st0; [| exact Hp0].
    intros r Hr. apply withMouse_frame; assumption. }
  destruct ev as [rect e | rect e | now | t | w h].
  - apply (Hclick rect e st HI Hcs' Hpose).
  - rewrite step_touch in Hcs' |- *.
    destruct (touches e !! 0%nat) as [touch |]; [| exact Hpose].
    apply Hclick; [apply Inv_set_prevented; exact HI | exact Hcs' | exact Hpose].
  - unfold step, handle. rewrite (animate_idle_eq now st Hs Hcs).
    destruct Hpose as (H7 & (y & H6) & (sc & H8)).
    unfold IdlePose. simpl stateOf. cbn [heap set_heap].
    change (rotRef 2) with 7%nat in *. change (posRef 2) with 6%nat in *.
    change (scaleRef 2) with 8%nat in *.
    unfold heapUpdate. split; [| split].
    + rewrite !list_lookup_alter_ne by discriminate. exact H7.
    + exists (Math_sin (now * 0.002 * 0.8) * 0.1).
      rewrite !list_lookup_alter_ne by discriminate.
      rewrite list_lookup_alter, decide_True by reflexivity.
      rewrite H6. reflexivity.
    + exists (1 + Math_sin (now * 0.002 * 0.5) * 0.03).
      rewrite list_lookup_alter, decide_True by reflexivity.
      rewrite list_lookup_alter, decide_True by reflexivity.
      rewrite list_lookup_alter, decide_True by reflexivity.
      rewrite list_lookup_alter_ne by discriminate.
      rewrite H8. reflexivity.
  - destruct (Qle_bool (clock st) t) eqn:Hg.
    2: { unfold step, handle. rewrite (tick_late t st Hg). exact Hpose. }
    unfold Motion in HM. rewrite Hcs in HM.
    destruct (tick_footprint t st Hs Hg) as (new & _ & _ & _ & _ & F2 & _).
    apply IdlePose_frame with st; [| exact Hpose].
    intros r _. apply F2. intros e0 H0. rewrite HM in H0. destruct H0.
  - exact Hpose.
Qed.

(** X14.  The cube at rest.  As long as the state is Idle the cube group
    keeps the corner view [init] gave it, rotation
    (-atan(sqrt 2), PI / 4, 0); of its position only [y] has been
    written, so it stands at (0, y, 0); and its scale is uniform. *)
Theorem idle_pose st :
  Reachable st -> currentState st = idle ->
  heap st !! objRotation st (cubeGroup st)
    = Some [("x", - Math_atan (Math_sqrt 2)); ("y", Math_PI / 4); ("z", 0)] /\
  (exists y, heap st !! objPosition st (cubeGroup st) = Some (vec3 0 y 0)) /\
  (exists sc, heap st !! objScale st (cubeGroup st) = Some (vec3 sc sc sc)).
Proof.
  intros (w & h & now & Hr) Hidle.
  assert (Hpose : IdlePose st).
  { induction Hr as [| st ev Hr IH].
    - apply mounted_pose.
    - assert (Hre : Reachable st) by (exists w, h, now; exact Hr).
      pose proof (Inv_reachable _ st (Inv_start w h now) Hr) as HI.
      destruct (Motion_reachable st Hre) as (w' & h' & now' & HI' & HM').
      assert (Hcs : currentState st = idle).
      { destruct (step_control _ st ev HI')
          as [(K1 & _) | [(_ & K1 & _) | [(_ & K1 & _)
              | (_ & T & cb & t & _ & _ & _ & K1 & [K2 | K2] & _)]]];
          congruence. }
      apply (IdlePose_step _ st ev HI' HM' Hcs Hidle). apply IH. exact Hcs. }
  pose proof (Inv_reachable _ st (Inv_start w h now) Hr) as (Hs & _).
  pose proof Hs as (_ & _ & Hcg & _).
  destruct (objRefs_eq st 2 Hs) as (Hgp & Hgr & Hgs).
  rewrite Hcg, Hgp, Hgr, Hgs. exact Hpose.
Qed.

(** *** The pointer *)

Lemma unit_interval_div a w : 0 < w -> 0 <= a <= w -> 0 <= a / w <= 1.
Proof.
  intros Hw [H0 H1]. split.
  - apply Qle_shift_div_l; [exact Hw | lra].
  - apply Qle_shift_div_r; [exact Hw | lra].
Qed.

(** X15.  Every click stores the pointer in normalized device
    coordinates.  Whatever the state and whatever is hit, after the click
    handler the [mouse] vector holds x = ((clientX - left) / width) 2 - 1
    and y = -((clientY - top) / height) 2 + 1 of the canvas rectangle; for
    a pointer inside the rectangle both lie between -1 and 1, with the
    left edge at x = -1 and the top edge at y = 1. *)
Theorem click_stores_pointer st rect e :
  Reachable st -> 0 < rect_width rect -> 0 < rect_height rect ->
  heap (step st (Click rect e)) !! mouse st
    = Some [("x", ndcX rect e); ("y", ndcY rect e)] /\
  (rect_left rect <= clientX e <= rect_left rect + rect_width rect ->
   -1 <= ndcX rect e <= 1) /\
  (rect_top rect <= clientY e <= rect_top rect + rect_height rect ->
   -1 <= ndcY rect e <= 1) /\
  (clientX e == rect_left rect -> ndcX rect e == -1) /\
  (clientY e == rect_top rect -> ndcY rect e == 1).
Proof.
  intros Hr Hw Hh. destruct (Reachable_Inv st Hr) as (s0 & HI).
  pose proof HI as (Hs & Hl & _ & Hm & _).
  pose proof Hs as (_ & _ & _ & _ & Hmouse).
  split.
  - pose proof (withMouse_mouse rect e st Hs Hm) as Hst. rewrite Hmouse.
    destruct (click_outcome s0 rect e st HI) as (_ & _ & _ & _ & _ & Hcase).
    destruct (intersectionsAt rect e st !! 0%nat) as [first |];
      [| rewrite Hcase; exact Hst].
    destruct (isEdgeObject st (object first)); [rewrite Hcase; exact Hst |].
    assert (Halloc : forall st',
              heap st' = heapAlloc (heap (withMouse rect e st)) [] ->
              heap st' !! 72%nat
              = Some [("x", ndcX rect e); ("y", ndcY rect e)]).
    { intros st' Heq. rewrite Heq. unfold heapAlloc.
      rewrite lookup_app_l; [exact Hst |].
      pose proof (withMouse_Good rect e st (conj Hs Hl)) as (_ & Hl'). lia. }
    destruct (currentState st).
    + destruct Hcase as (_ & Hheap & _). rewrite Hheap. exact Hst.
    + destruct (List.find _ _); [| rewrite Hcase; exact Hst].
      destruct Hcase as (_ & Hheap & _). apply Halloc. exact Hheap.
    + rewrite Hcase. exact Hst.
    + destruct (List.find _ _); [| rewrite Hcase; exact Hst].
      destruct Hcase as (_ & Hheap & _). apply Halloc. exact Hheap.
  - unfold ndcX, ndcY. split; [| split; [| split]].
    + intros Hin.
      pose proof (unit_interval_div (clientX e - rect_left rect)
                    (rect_width rect) Hw) as Hq.
      set (q := (clientX e - rect_left rect) / rect_width rect) in *.
      assert (Hq' : 0 <= q <= 1) by (apply Hq; lra). lra.
    + intros Hin.
      pose proof (unit_interval_div (clientY e - rect_top rect)
                    (rect_height rect) Hh) as Hq.
      set (q := (clientY e - rect_top rect) / rect_height rect) in *.
      assert (Hq' : 0 <= q <= 1) by (apply Hq; lra). lra.
    + intros Heq. rewrite Heq. field. lra.
    + intros Heq. rewrite Heq. field. lra.
Qed.

(** *** The edges after the menu transition *)

Lemma forEach_all_write t m vars l : forall st,
  Struct st -> (m < length (heap st))%nat -> List.NoDup (map fst vars) ->
  (forall e, In e l -> writer m e = true ->
     completes t e = true /\ e_vars e = vars) ->
  (forall e, In e l -> opaques e = false) ->
  (holds (heap st) m vars \/ exists e, In e l /\ writer m e = true) ->
  exists st', forEach l (render t) st = Val tt st' /\ holds (heap st') m vars.
Proof.
  induction l as [| e l IH]; intros st Hs Hlt Hnd Hw Hop Hcase.
  - destruct Hcase as [Hh | (e & [] & _)].
    exists st. split; [reflexivity | exact Hh].
  - destruct (render_footprint t e st Hs)
      as (st1 & rs & Hr & S1 & _ & L1 & F1 & H1 & _).
    assert (Hh1 : holds (heap st1) m vars \/
                  exists e0, In e0 l /\ writer m e0 = true).
    { destruct (writer m e) eqn:Hwe.
      - left. destruct (Hw e (or_introl eq_refl) Hwe) as (Hc & Hv).
        rewrite <- Hv. apply H1; [exact Hwe | exact Hc | exact Hlt |].
        rewrite Hv. exact Hnd.
      - destruct Hcase as [Hh | (e0 & [<- | H0] & Hw0)].
        + left. apply holds_frame with (heap st); [| exact Hh].
          apply F1. unfold reaches.
          rewrite Hwe, (Hop e (or_introl eq_refl)). reflexivity.
        + congruence.
        + right. exists e0. auto. }
    destruct (IH st1 S1) as (st' & Hrun & Hh); try assumption.
    + rewrite L1. exact Hlt.
    + intros e0 H0. apply Hw. right. exact H0.
    + intros e0 H0. apply Hop. right. exact H0.
    + exists st'. split; [| exact Hh].
      simpl. unfold bind. rewrite Hr. exact Hrun.
Qed.

Lemma fadeEntries_shape c e :
  In e (fadeEntries 0 0.5 c) ->
  Fading e /\ e_duration e = 0.5 /\ e_start e = c /\ armed e = None.
Proof.
  intros Hin. pose proof (fadeEntries_Fading c e Hin) as Hf.
  split; [exact Hf |]. unfold fadeEntries in Hin. apply in_map_iff in Hin.
  destruct Hin as (m & <- & _). repeat split.
Qed.

Lemma Fading_onEdge e : Fading e -> onEdge e = true.
Proof.
  intros (m & s & d & from & Hm & _ & ->). unfold onEdge. simpl.
  apply isEdgeMat_In. exact Hm.
Qed.

Lemma Fading_vars e : Fading e -> e_vars e = [("opacity", 0)].
Proof. intros (m & s & d & from & _ & _ & ->). reflexivity. Qed.

Lemma writer_onEdge m e : In m edgeMats0 -> writer m e = true -> onEdge e = true.
Proof.
  intros Hm Hw. destruct (onEdge e) eqn:Ho; [reflexivity |].
  rewrite (onEdge_writer m e Ho Hm) in Hw. discriminate.
Qed.

Lemma fadeStarter_rescheduled e e' :
  fadeStarter e -> rescheduled e e' -> fades e' = true -> fadeStarter e'.
Proof.
  intros (s & target & from & ->) (tw & from' & os & Hch & Hos & ->) Hf.
  simpl in Hch. injection Hch as <-. simpl in Hos, Hf |- *.
  destruct Hos as [-> | ->]; [discriminate |].
  exists s, target, (Some from'). reflexivity.
Qed.

Lemma EdgePlan_tick s0 st t :
  Inv s0 st -> EdgePlan st -> EdgePlan (step st (Tick t)).
Proof.
  intros HI (Hsh & (c & Hord) & Hph). pose proof HI as (Hs & Hl & _).
  destruct (Qle_bool (clock st) t) eqn:Hg.
  2: { unfold step, handle. rewrite (tick_late t st Hg).
       split; [exact Hsh |]. split; [exists c; exact Hord | exact Hph]. }
  destruct (tick_footprint t st Hs Hg)
    as (new & _ & S2 & C2 & L2 & F2 & N2 & A2 & B2 & D2 & E2).
  pose proof Hg as Hge. apply Qle_bool_iff in Hge.
  rewrite List.Forall_forall in Hsh, Hord.
  assert (Hsh' : Forall (fun e => Fade05 (step st (Tick t)) e \/ onEdge e = false)
                   (pending (step st (Tick t)))).
  { unfold Fade05. rewrite C2. apply tick_entries; try assumption.
    - intros e He _. destruct (Hsh e He) as [(Hf & Hd & Hst) | Hoff];
        [left | right; exact Hoff].
      split; [exact Hf |]. split; [exact Hd | lra].
    - intros e e' He Hd _ Hre.
      destruct (rescheduled_same 0%nat e e' Hre)
        as (Hs' & Hd' & _ & _ & _ & Hon & _).
      destruct (Hsh e He) as [(Hf & Hdu & Hst) | Hoff].
      + left. split; [apply Fading_rescheduled with e; assumption |].
        rewrite Hs', Hd'. split; [exact Hdu | lra].
      + right. rewrite Hon. exact Hoff.
    - intros e' e He' _ _ _.
      destruct (fadeEntries_shape t e' He') as (Hf & Hd & Hst & _).
      left. split; [exact Hf |]. split; [exact Hd | rewrite Hst; lra]. }
  assert (Hord' : Forall (fun e => (opaques e = true -> e_start e <= c) /\
                                   (fades e = true ->
                                    c < e_start e /\ fadeStarter e))
                    (pending (step st (Tick t)))).
  { apply tick_entries; try assumption.
    - intros e He _. apply Hord. exact He.
    - intros e e' He _ _ Hre. destruct (Hord e He) as (Hq1 & Hq2).
      destruct (rescheduled_same 0%nat e e' Hre) as (Hs' & _).
      split.
      + intros Ho. rewrite Hs'. apply Hq1.
        apply (rescheduled_opaques e e' Hre Ho).
      + intros Hf. destruct (Hq2 (rescheduled_fades e e' Hre Hf)) as (Hlt & Hst).
        rewrite Hs'. split; [exact Hlt |].
        apply (fadeStarter_rescheduled e e' Hst Hre Hf).
    - intros e' e He' _ _ _.
      destruct (fadeEntries_shape t e' He') as (_ & _ & _ & Ha).
      unfold opaques, fades. rewrite Ha. split; discriminate. }
  split; [exact Hsh' |]. split; [exists c; exact Hord' |].
  (* does a fade starter stay on the timeline? *)
  destruct (existsb (fun e => fades e && negb (Qle_bool (e_start e) t))
                    (pending st)) eqn:Hwait.
  { apply existsb_exists in Hwait. destruct Hwait as (ef & Hin & Hb).
    apply andb_true_iff in Hb. destruct Hb as (Hf & Hd).
    left. exists ef. split; [| exact Hf].
    rewrite N2. apply in_or_app. right. apply List.filter_In. auto. }
  assert (Hdue : forall e, In e (pending st) -> fades e = true ->
                           Qle_bool (e_start e) t = true).
  { intros e He Hf.
    destruct (Qle_bool (e_start e) t) eqn:Hd; [reflexivity |].
    assert (Hex : existsb (fun e => fades e && negb (Qle_bool (e_start e) t))
                          (pending st) = true).
    { apply existsb_exists. exists e. split; [exact He |].
      rewrite Hf, Hd. reflexivity. }
    congruence. }
  (* a fade starter whose start is this very tick stays, still armed *)
  destruct (existsb (fun e => fades e && Qle_bool t (e_start e))
                    (pending st)) eqn:Hnow.
  { apply existsb_exists in Hnow. destruct Hnow as (ef & Hef & Hb).
    apply andb_true_iff in Hb. destruct Hb as (Hf & Hle).
    apply Qle_bool_iff in Hle.
    pose proof (Hdue ef Hef Hf) as Hd. apply Qle_bool_iff in Hd.
    destruct (Hord ef Hef) as (_ & Hq).
    destruct (Hq Hf) as (_ & s & target & from & Heq).
    destruct (E2 ef Hef) as (e' & Hin' & Hre & Ha).
    - lra.
    - subst ef. unfold completes. simpl in Hle, Hd |- *.
      destruct (Qle_bool (s + 0.5) t) eqn:Hc; [| reflexivity].
      apply Qle_bool_iff in Hc. lra.
    - left. exists e'. split.
      + rewrite N2. apply in_or_app. left. exact Hin'.
      + unfold fades in Hf |- *. rewrite Ha. exact Hf. }
  assert (Hpast : forall e, In e (pending st) -> fades e = true ->
                            e_start e < t).
  { intros e He Hf.
    destruct (Qlt_le_dec (e_start e) t) as [Hlt | Hle]; [exact Hlt |].
    assert (Hex : existsb (fun e => fades e && Qle_bool t (e_start e))
                          (pending st) = true).
    { apply existsb_exists. exists e. split; [exact He |].
      rewrite Hf. apply Qle_bool_iff in Hle. rewrite Hle. reflexivity. }
    congruence. }
  right.
  assert (Hcalm : forall e, In e (pending st) -> Qle_bool (e_start e) t = false ->
                            (exists ef, In ef (pending st) /\ fades ef = true) ->
                            opaques e = false).
  { intros e He Hd (ef & Hef & Hf).
    destruct (opaques e) eqn:Ho; [| reflexivity].
    destruct (Hord e He) as (Hq & _). specialize (Hq Ho).
    destruct (Hord ef Hef) as (_ & Hq'). destruct (Hq' Hf) as (Hlt & _).
    pose proof (Hdue ef Hef Hf) as Hd'. apply Qle_bool_iff in Hd'.
    assert (Hle : e_start e <= t) by lra.
    apply Qle_bool_iff in Hle. congruence. }
  assert (Hop' : (forall e, In e (pending st) -> Qle_bool (e_start e) t = false ->
                            opaques e = false) ->
                 (forall e, In e (pending st) -> e_start e == t ->
                            opaques e = false) ->
                 forall e, In e (pending (step st (Tick t))) -> opaques e = false).
  { intros Hnd Hat e He. rewrite N2 in He. apply in_app_or in He.
    destruct He as [He | He].
    - destruct (D2 e He) as [Ha | (e1 & He1 & Hs1 & Ha)].
      + unfold opaques. rewrite Ha. reflexivity.
      + unfold opaques. rewrite Ha. apply (Hat e1 He1 Hs1).
    - apply List.filter_In in He. destruct He as [He Hd].
      apply negb_true_iff in Hd. apply Hnd; assumption. }
  destruct (existsb fades (pending st)) eqn:Hany.
  - (* the fade starts on this tick *)
    apply existsb_exists in Hany. destruct Hany as (ef & Hef & Hf).
    split.
    + apply Hop'.
      * intros e He Hd. apply Hcalm; eauto.
      * intros e He Heq. destruct (opaques e) eqn:Ho; [| reflexivity].
        destruct (Hord e He) as (Hq & _). specialize (Hq Ho).
        destruct (Hord ef Hef) as (_ & Hq'). destruct (Hq' Hf) as (Hlt & _).
        pose proof (Hpast ef Hef Hf). lra.
    + intros m Hm. right.
      destruct (Hord ef Hef) as (_ & Hq).
      destruct (Hq Hf) as (_ & s & target & from & Heq). subst ef.
      pose proof (Hpast _ Hef Hf) as Hd. simpl in Hd.
      destruct (tick_fades s0 st t s target from HI Hef Hd Hge) as (_ & Hall).
      rewrite (edgeMaterials_eq st Hs), List.Forall_forall in Hall.
      eexists. split; [apply Hall; exact Hm |].
      unfold writer. simpl. apply Nat.eqb_refl.
  - (* no fade starter is left *)
    assert (Hnone : forall e, In e (pending st) -> fades e = false).
    { intros e He. destruct (fades e) eqn:Hf; [| reflexivity].
      assert (Hex : existsb fades (pending st) = true)
        by (apply existsb_exists; exists e; auto).
      congruence. }
    destruct Hph as [(ef & Hef & Hf) | (Hquiet & Hfate)];
      [rewrite (Hnone ef Hef) in Hf; discriminate |].
    split; [apply Hop'; intros e He _; apply Hquiet; exact He |].
    intros m Hm.
    destruct (existsb (writer m) (pending (step st (Tick t)))) eqn:Hleft.
    { apply existsb_exists in Hleft. right. exact Hleft. }
    left.
    assert (Hgone : forall e, In e (pending (step st (Tick t))) ->
                              writer m e = false).
    { intros e He. destruct (writer m e) eqn:Hw; [| reflexivity].
      assert (Hex : existsb (writer m) (pending (step st (Tick t))) = true)
        by (apply existsb_exists; exists e; auto).
      congruence. }
    assert (Hdone : forall e, In e (pending st) -> writer m e = true ->
              Qle_bool (e_start e) t = true /\ completes t e = true /\
              e_vars e = [("opacity", 0)]).
    { intros e He Hw.
      assert (Hd : Qle_bool (e_start e) t = true).
      { destruct (Qle_bool (e_start e) t) eqn:Hd; [reflexivity |].
        rewrite <- (Hgone e); [exact Hw |].
        rewrite N2. apply in_or_app. right. apply List.filter_In.
        split; [exact He | rewrite Hd; reflexivity]. }
      split; [exact Hd |]. split.
      - destruct (completes t e) eqn:Hc; [reflexivity |].
        destruct (B2 e He Hd Hc) as (e' & He' & Hre).
        destruct (rescheduled_same m e e' Hre) as (_ & _ & _ & _ & Hw' & _).
        rewrite <- (Hgone e'); [congruence |].
        rewrite N2. apply in_or_app. left. exact He'.
      - destruct (Hsh e He) as [(Hfa & _) | Hoff].
        + apply Fading_vars. exact Hfa.
        + rewrite (onEdge_writer m e Hoff Hm) in Hw. discriminate. }
    set (due := sortByStart
                  (List.filter (fun e => Qle_bool (e_start e) t)
                               (rev (pending st)))).
    set (st1 := set_clock t
                  (set_pending
                     (List.filter (fun e => negb (Qle_bool (e_start e) t))
                                  (pending st)) st)).
    destruct (forEach_all_write t m [("opacity", 0)] due st1)
      as (st' & Hrun & Hh); try assumption.
    + apply isEdgeMat_In in Hm. apply isEdgeMat_lt in Hm.
      change (heap st1) with (heap st). lia.
    + apply List.NoDup_cons; [intros [] | apply List.NoDup_nil].
    + intros e He Hw. apply due_In in He. destruct He as [He _].
      destruct (Hdone e He Hw) as (_ & Hc & Hv). auto.
    + intros e He. apply due_In in He. destruct He as [He _].
      apply Hquiet. exact He.
    + destruct (Hfate m Hm) as [H0 | (e & He & Hw)].
      * left. constructor; [exact H0 | constructor].
      * right. exists e. split; [| exact Hw].
        apply due_In. split; [exact He |].
        destruct (Hdone e He Hw) as (Hd & _). exact Hd.
    + assert (Htick : handle (Tick t) st = Val tt st').
      { unfold handle, tick, bind, gets, modify. rewrite Hg. exact Hrun. }
      unfold opacityOf, step. rewrite Htick. simpl stateOf.
      inversion Hh as [| ? ? H0 _]; subst. exact H0.
Qed.

Lemma EdgePlan_withMouse rect ev st :
  Struct st -> EdgePlan st -> EdgePlan (withMouse rect ev st).
Proof.
  intros Hs (Hsh & Hord & Hph). split; [exact Hsh |]. split; [exact Hord |].
  destruct Hph as [Hex | (Hq & Hfate)]; [left; exact Hex | right].
  split; [exact Hq |]. intros m Hm.
  destruct (Hfate m Hm) as [H0 | Hw]; [left | right; exact Hw].
  unfold opacityOf, heapGet in *.
  rewrite withMouse_frame; [exact H0 | exact Hs |].
  intros ->. unfold edgeMats0 in Hm. simpl in Hm. intuition lia.
Qed.

Lemma transition_plan f st :
  Struct st -> (142 <= length (heap st))%nat ->
  currentState st = net \/ currentState st = menu ->
  Forall (Fade05 st) (pending st) ->
  exists st', transitionToMenuAndNavigate f st = Val tt st' /\ EdgePlan st'.
Proof.
  intros Hs Hl Hcs Hold.
  destruct st as [cs h objs fs cg eg m ca cl pend pu co pr].
  destruct Hs as (? & ? & ? & ? & ?). simpl in *. subst.
  assert (Hcalm : Forall (fun e => (opaques e = true -> e_start e <= cl) /\
                                   (fades e = true ->
                                    cl < e_start e /\ fadeStarter e)) pend).
  { eapply List.Forall_impl; [| exact Hold].
    intros e (Hf & _). unfold opaques, fades.
    rewrite (Fading_armed e Hf). split; discriminate. }
  destruct Hcs as [-> | ->].
  all: eexists; split; [pe_offsets; reflexivity |].
  all: split; [| split].
  1, 4: cbn [pending];
    repeat (constructor;
            [ right;
              first [ reflexivity
                    | cbv [onEdge e_child tw_target];
                      apply isEdgeMat_ge; exact Hl ]
            | ]);
    (eapply List.Forall_impl; [| exact Hold]); intros e He; left; exact He.
  1, 3: exists cl; cbn [pending];
    repeat (constructor;
            [ split;
              [ first [ intros H;
                        cbn [opaques fades armed e_child tw_from tw_onStart] in H;
                        discriminate H
                      | intros _; cbv [e_start after]; lra ]
              | first [ intros H;
                        cbn [opaques fades armed e_child tw_from tw_onStart] in H;
                        discriminate H
                      | intros _; split;
                        [ cbv [e_start after]; lra
                        | do 3 eexists; reflexivity ] ] ]
            | ]);
    exact Hcalm.
  all: left;
    exists (mkEntry (after cl 1.2)
              (CTween (mkTween (length h) [] 0.5 (Some cb_edgesFade) None)));
    split; [cbn [pending]; right; left; reflexivity | reflexivity].
Qed.

Lemma EdgeInv_click s0 rect ev st :
  Inv s0 st -> Motion s0 st -> EdgeInv st -> EdgeInv (step st (Click rect ev)).
Proof.
  intros HI HM HE.
  pose proof (Inv_withMouse s0 rect ev st HI) as HI1.
  pose proof (Motion_withMouse s0 rect ev st HI HM) as HM1.
  pose proof HI1 as (Hs1 & Hl1 & _ & _ & _ & Hc1 & _).
  pose proof HI as (Hs & _).
  assert (HE1 : EdgeInv (withMouse rect ev st)).
  { intros Hpre. apply EdgePlan_withMouse; [exact Hs |]. apply HE. exact Hpre. }
  unfold step, handle.
  rewrite (onCanvasClick_cases rect ev st (Inv_Good _ _ HI)). cbv zeta.
  destruct (intersectionsAt rect ev st !! 0%nat) as [first |]; [| exact HE1].
  destruct (isEdgeObject st (object first)); [exact HE1 |].
  change (currentState st) with (currentState (withMouse rect ev st)).
  change (faces st) with (faces (withMouse rect ev st)).
  set (st1 := withMouse rect ev st) in *.
  assert (Hmenu : forall face,
            currentState st1 = net \/ currentState st1 = menu ->
            Forall (Fade05 st1) (pending st1) ->
            EdgeInv (stateOf (transitionToMenuAndNavigate face st1))).
  { intros face Hcs Hold _.
    destruct (transition_plan face st1 Hs1 Hl1 Hcs Hold) as (st' & Hrun & Hplan).
    rewrite Hrun. exact Hplan. }
  destruct (currentState st1) eqn:Hcs.
  - unfold Motion in HM1. rewrite Hcs in HM1.
    assert (HF : inFlight st1 = [])
      by (unfold inFlight; rewrite HM1; reflexivity).
    destruct (unfold_launch s0 st1 HI1 HF)
      as (st' & Hrun & _ & Kc & _ & _ & _ & _ & Kf).
    rewrite Hrun. simpl stateOf. intros [Hm | (T & f & Hfl)].
    + congruence.
    + rewrite Kf in Hfl. discriminate.
  - destruct (List.find _ _) as [face |]; [| exact HE1].
    unfold Motion in HM1. rewrite Hcs in HM1. destruct HM1 as (Hp & _).
    apply Hmenu; [left; reflexivity | rewrite Hp; constructor].
  - exact HE1.
  - destruct (List.find _ _) as [face |]; [| exact HE1].
    unfold Motion in HM1. rewrite Hcs in HM1. destruct HM1 as (Hp & _).
    apply Hmenu; [right; reflexivity |].
    destruct (HE1 (or_introl Hcs)) as (Hsh & _).
    rewrite List.Forall_forall in Hsh, Hp.
    apply List.Forall_forall. intros e He.
    destruct (Hsh e He) as [Hf | Hoff]; [exact Hf |].
    rewrite (Fading_onEdge e (Hp e He)) in Hoff. discriminate.
Qed.

Lemma EdgeInv_step s0 st ev :
  Inv s0 st -> Motion s0 st -> EdgeInv st -> EdgeInv (step st ev).
Proof.
  intros HI HM HE. pose proof HI as (Hs & _).
  destruct ev as [rect e | rect e | now | t | w h].
  - apply EdgeInv_click with s0; assumption.
  - rewrite step_touch. destruct (touches e !! 0%nat) as [touch |].
    + apply EdgeInv_click with s0;
        [apply Inv_set_prevented; exact HI | exact HM | exact HE].
    + exact HE.
  - destruct (currentState st) eqn:Hcs.
    + unfold step, handle. rewrite (animate_idle_eq now st Hs Hcs).
      unfold Motion in HM. rewrite Hcs in HM.
      intros [Hm | (T & f & Hfl)].
      * simpl in Hm. congruence.
      * unfold inFlight in Hfl. simpl in Hfl. rewrite HM in Hfl. discriminate.
    + unfold step, handle, animate, bind, gets. rewrite Hcs. exact HE.
    + unfold step, handle, animate, bind, gets. rewrite Hcs. exact HE.
    + unfold step, handle, animate, bind, gets. rewrite Hcs. exact HE.
  - intros Hpre. apply EdgePlan_tick with s0; [exact HI |]. apply HE.
    destruct (step_control s0 st (Tick t) HI)
      as [(K1 & K2 & _) | [(_ & _ & _ & _ & [(? & ? & Habs) | (? & ? & Habs)])
          | [(_ & _ & _ & _ & [(? & ? & Habs) | (? & ? & Habs)])
            | (_ & T & cb & t' & HF & _ & _ & K1 & _ & K2 & _)]]];
      try discriminate.
    + rewrite K1, K2 in Hpre. exact Hpre.
    + rewrite K1, K2 in Hpre. destruct Hpre as [Hm | (T' & f & Hfl)];
        [| discriminate].
      right. destruct cb; try discriminate. eauto.
  - exact HE.
Qed.

Lemma EdgeInv_reachable st :
  Reachable st ->
  exists s0, Inv s0 st /\ Motion s0 st /\ EdgeInv st.
Proof.
  intros (w & h & now & Hr). exists (mounted w h now).
  induction Hr as [| st ev Hr (HI & HM & HE)].
  - split; [apply Inv_start |]. split.
    + unfold Motion. rewrite mounted_idle. apply mounted_pending.
    + intros [Hm | (T & f & Hfl)].
      * rewrite mounted_idle in Hm. discriminate.
      * unfold inFlight in Hfl. rewrite mounted_pending in Hfl. discriminate.
  - split; [apply Inv_step; exact HI |].
    split; [apply Motion_step; assumption |].
    apply EdgeInv_step with (mounted w h now); assumption.
Qed.

(** X16.  In Menu the edges end up transparent.  Every tween left on
    the timeline in Menu is an edge fade that started no later than now
    and lasts half a second; so a tick that comes at least 0.5 s of engine
    time later, with no face hit in between, leaves the state Menu, the
    timeline empty and every edge material at opacity 0. *)
Theorem menu_edges_fade_out st t :
  Reachable st -> currentState st = menu -> clock st + 0.5 <= t ->
  currentState (step st (Tick t)) = menu /\
  pending (step st (Tick t)) = [] /\
  Forall (fun m => opacityOf (step st (Tick t)) m = 0) (edgeMaterials st).
Proof.
  intros Hr Hmenu Ht.
  destruct (EdgeInv_reachable st Hr) as (s0 & HI & HM & HE).
  pose proof HI as (Hs & _ & _ & _ & _ & Hc & _).
  pose proof (HE (or_introl Hmenu)) as Hplan.
  pose proof (EdgePlan_tick s0 st t HI Hplan) as (_ & _ & Hph').
  destruct Hplan as (Hsh & _).
  unfold Motion in HM. rewrite Hmenu in HM. destruct HM as (Hp & _).
  rewrite List.Forall_forall in Hsh, Hp.
  assert (Hf05 : forall e, In e (pending st) -> Fade05 st e).
  { intros e He. destruct (Hsh e He) as [Hf | Hoff]; [exact Hf |].
    rewrite (Fading_onEdge e (Hp e He)) in Hoff. discriminate. }
  assert (Hg : Qle_bool (clock st) t = true) by (apply Qle_bool_iff; lra).
  assert (Hnil : pending (step st (Tick t)) = []).
  { apply no_In_nil. intros e He.
    assert (Hno : Forall (fun _ => False) (pending (step st (Tick t)))).
    { apply tick_entries; try assumption.
      - intros e0 H0 Hd. destruct (Hf05 e0 H0) as (_ & _ & Hst).
        assert (Hle : e_start e0 <= t) by lra.
        apply Qle_bool_iff in Hle. congruence.
      - intros e0 e' H0 _ Hc0 _. destruct (Hf05 e0 H0) as (Hfa & Hd & Hst).
        destruct Hfa as (m & s & d & from & _ & _ & ->).
        cbv [completes e_child e_start tw_duration] in Hc0.
        cbv [e_duration e_child tw_duration] in Hd. cbv [e_start] in Hst.
        rewrite Hd in Hc0.
        assert (Hle : s + 0.5 <= t) by lra.
        apply Qle_bool_iff in Hle. congruence.
      - intros e' e0 _ H0 _ Hf. unfold fades in Hf.
        rewrite (Fading_armed e0 (Hp e0 H0)) in Hf. discriminate. }
    rewrite List.Forall_forall in Hno. exact (Hno e He). }
  split.
  - destruct (step_tick s0 st t HI) as (_ & _ & _ & Hstay).
    unfold ControlInv in Hc. rewrite Hmenu in Hc.
    destruct (Hstay (or_introl Hc)) as (Kc & _). congruence.
  - split; [exact Hnil |].
    rewrite (edgeMaterials_eq st Hs). apply List.Forall_forall. intros m Hm.
    destruct Hph' as [(e & He & _) | (_ & Hfate)].
    + rewrite Hnil in He. destruct He.
    + destruct (Hfate m Hm) as [H0 | (e & He & _)]; [exact H0 |].
      rewrite Hnil in He. destruct He.
Qed.

(** *** At rest *)

(** X17.  Idle and Net are states of rest for the tween engine: nothing
    is on the timeline, so an engine tick only moves the clock forward (a
    tick from the past does nothing at all); no object, no state and no
    route push changes. *)
Theorem tick_at_rest st t :
  Reachable st -> currentState st = idle \/ currentState st = net ->
  handle (Tick t) st
  = Val tt (if Qle_bool (clock st) t then set_clock t st else st).
Proof.
  intros Hr Hcs.
  destruct (Motion_reachable st Hr) as (w & h & now & _ & HM).
  assert (Hp : pending st = []).
  { unfold Motion in HM. destruct Hcs as [Hc | Hc]; rewrite Hc in HM.
    - exact HM.
    - exact (proj1 HM). }
  unfold handle, tick, bind, gets, modify.
  destruct (Qle_bool (clock st) t); [| reflexivity].
  rewrite Hp. simpl.
  destruct st as [cs hp objs fs cg eg m ca cl pend pu co pr].
  simpl in Hp. subst pend. reflexivity.
Qed.

(** *** Touches *)

Lemma step_prevented s0 st ev :
  Inv s0 st ->
  prevented (step st ev)
  = (prevented st + (if isTouchStart ev then 1 else 0))%nat.
Proof.
  intros HI. destruct ev as [rect e | rect e | now | t | w h]; simpl.
  - destruct (click_outcome s0 rect e st HI) as (_ & _ & _ & _ & Hp & _).
    rewrite Hp. lia.
  - rewrite step_touch. destruct (touches e !! 0%nat) as [touch |].
    + destruct (click_outcome s0 rect
                  (mkMouseEvent (touch_clientX touch) (touch_clientY touch))
                  (set_prevented (S (prevented st)) st)
                  (Inv_set_prevented s0 _ st HI))
        as (_ & _ & _ & _ & Hp & _).
      rewrite Hp. simpl. lia.
    + simpl. lia.
  - destruct (animate_effect now st (Inv_Good _ _ HI)) as (st' & Hrun & Heff).
    unfold step, handle. rewrite Hrun.
    destruct Heff as (_ & _ & _ & P1 & _). simpl. rewrite P1. lia.
  - unfold step, handle. destruct (Qle_bool (clock st) t) eqn:Hg.
    + pose proof HI as (_ & _ & _ & _ & Hp & _).
      destruct (tick_spec t st (Inv_Good _ _ HI) Hp Hg)
        as (st' & dueC & Hrun & _ & _ & _ & _ & P1 & _).
      rewrite Hrun. simpl. simpl in P1. rewrite P1. lia.
    + rewrite (tick_late t st Hg). simpl. lia.
  - unfold step. simpl. lia.
Qed.

(** X18.  [preventDefault] is called once for every touchstart, also for
    one whose handler then throws, and for no other event: over any run the
    number of calls grows by the number of touchstart events. *)
Theorem prevent_default_counts_touches st evs :
  Reachable st ->
  prevented (run evs st)
  = (prevented st + length (List.filter isTouchStart evs))%nat.
Proof.
  intros Hr. destruct (Reachable_Inv st Hr) as (s0 & HI). clear Hr.
  revert st HI. induction evs as [| ev evs IH]; intros st HI.
  - simpl. lia.
  - simpl. rewrite (IH (step st ev) (Inv_step s0 st ev HI)).
    rewrite (step_prevented s0 st ev HI).
    destruct (isTouchStart ev); simpl; lia.
Qed.

End Component.

(** ** Worked examples

    Each claim on a concrete run: a 100 x 100 canvas, a window of
    800 x 600, and a ray caster that reports fixed intersections. *)

Lemma menu_transition_navigates_witness :
  let P := fixedHits [mkIntersection 1 16] in
  let st := step (step (mounted 800 600 0) (Click exampleRect exampleClick))
                 (Tick 1) in
  let st1 := step st (Click exampleRect exampleClick) in
  (Reachable st /\ currentState st = net /\
   intersectionsAt exampleRect exampleClick st !! 0%nat
     = Some (mkIntersection 1 16) /\
   In frontFace (faces st)) /\
  currentState
    (step (run [Tick 1.5; Click exampleRect exampleClick; Frame 40] st1)
          (Tick 2.7)) = menu /\
  pushes
    (step (run [Tick 1.5; Click exampleRect exampleClick; Frame 40] st1)
          (Tick 2.7)) = ["/web"].
Proof.
  intros P st st1.
  assert (Hr : Reachable st)
    by (exists 800, 600, 0; apply reach_step, reach_step, reach_start).
  assert (Hnet : currentState st = net) by (vm_compute; reflexivity).
  assert (Hhit : intersectionsAt exampleRect exampleClick st !! 0%nat
                 = Some (mkIntersection 1 16)) by (vm_compute; reflexivity).
  assert (Hin : In frontFace (faces st)) by (vm_compute; left; reflexivity).
  destruct (menu_transition_navigates st exampleRect exampleClick
              (mkIntersection 1 16) frontFace Hr (or_introl Hnet) Hhit Hin
              eq_refl) as (_ & _ & _ & _ & _ & _ & Hdone).
  destruct (Hdone [Tick 1.5; Click exampleRect exampleClick; Frame 40] 2.7)
    as (Hc & Hp).
  { repeat (constructor; [try exact I; vm_compute; reflexivity |]). constructor. }
  { vm_compute. discriminate. }
  split; [exact (conj Hr (conj Hnet (conj Hhit Hin))) |]. split; [exact Hc |].
  refine (eq_trans Hp _). vm_compute. reflexivity.
Defined.


Lemma idle_hit_unfolds_to_net_witness :
  let P := fixedHits [mkIntersection 1 16] in
  let st := mounted 800 600 0 in
  let st1 := step st (Click exampleRect exampleClick) in
  (Reachable st /\ currentState st = idle /\
   intersectionsAt exampleRect exampleClick st !! 0%nat
     = Some (mkIntersection 1 16) /\
   In frontFace (faces st)) /\
  currentState (run [Frame 16; Tick 0.5; Click exampleRect exampleClick] st1)
    = transitioning /\
  currentState
    (step (run [Frame 16; Tick 0.5; Click exampleRect exampleClick] st1)
          (Tick 1)) = net /\
  pushes
    (step (run [Frame 16; Tick 0.5; Click exampleRect exampleClick] st1)
          (Tick 1)) = [].
Proof.
  intros P st st1.
  assert (Hr : Reachable st) by (exists 800, 600, 0; apply reach_start).
  assert (Hidle : currentState st = idle) by (vm_compute; reflexivity).
  assert (Hhit : intersectionsAt exampleRect exampleClick st !! 0%nat
                 = Some (mkIntersection 1 16)) by (vm_compute; reflexivity).
  assert (Hin : In frontFace (faces st)) by (vm_compute; left; reflexivity).
  destruct (idle_hit_unfolds_to_net st exampleRect exampleClick
              (mkIntersection 1 16) frontFace Hr Hidle Hhit Hin eq_refl)
    as (_ & _ & Hquiet & Hdone).
  assert (Hb : before (clock st + 1)
                 [Frame 16; Tick 0.5; Click exampleRect exampleClick]).
  { repeat (constructor; [try exact I; vm_compute; reflexivity |]).
    constructor. }
  destruct (Hquiet _ Hb) as (Hq & _).
  destruct (Hdone _ 1 Hb) as (Hc & Hp).
  { vm_compute. discriminate. }
  split; [exact (conj Hr (conj Hidle (conj Hhit Hin))) |].
  split; [exact Hq |]. split; [exact Hc |].
  refine (eq_trans Hp _). vm_compute. reflexivity.
Defined.

Lemma events_ignored_while_transitioning_witness :
  let P := fixedHits [mkIntersection 1 16] in
  let st := step (mounted 800 600 0) (Click exampleRect exampleClick) in
  (Reachable st /\ currentState st = transitioning) /\
  handle (Click exampleRect exampleClick) st
    = Val tt (withMouse exampleRect exampleClick st) /\
  pending (step st (Click exampleRect exampleClick)) = pending st /\
  (length (inFlight st) <= 1)%nat.
Proof.
  intros P st.
  assert (Hr : Reachable st)
    by (exists 800, 600, 0; apply reach_step, reach_start).
  assert (Ht : currentState st = transitioning) by (vm_compute; reflexivity).
  destruct (events_ignored_while_transitioning st exampleRect exampleClick
              Hr Ht) as (Hrun & _ & _ & Hp & _ & _ & _ & Hone).
  split; [exact (conj Hr Ht) |]. split; [exact Hrun |].
  split; [exact Hp | exact (Hone st Hr)].
Defined.

Lemma misses_and_decorations_are_ignored_witness :
  let P := edgeOnRight in
  let st := step (step (mounted 800 600 0)
                       (Click exampleRect (mkMouseEvent 25 50)))
                 (Tick 1) in
  (Reachable st /\ currentState st = net /\
   intersectionsAt exampleRect (mkMouseEvent 75 50) st !! 0%nat
     = Some (mkIntersection 1 4) /\
   isEdgeObject st 4 = true) /\
  handle (Click exampleRect (mkMouseEvent 75 50)) st
    = Val tt (withMouse exampleRect (mkMouseEvent 75 50) st) /\
  currentState (step st (Click exampleRect (mkMouseEvent 75 50))) = net.
Proof.
  intros P st.
  assert (Hr : Reachable st)
    by (exists 800, 600, 0; apply reach_step, reach_step, reach_start).
  assert (Hnet : currentState st = net) by (vm_compute; reflexivity).
  assert (Hhit : intersectionsAt exampleRect (mkMouseEvent 75 50) st !! 0%nat
                 = Some (mkIntersection 1 4)) by (vm_compute; reflexivity).
  assert (Hedge : isEdgeObject st 4 = true) by (vm_compute; reflexivity).
  destruct (misses_and_decorations_are_ignored st exampleRect
              (mkMouseEvent 75 50) Hr
              (or_intror (ex_intro _ (mkIntersection 1 4) (conj Hhit Hedge))))
    as (Hrun & Hc & _).
  split; [exact (conj Hr (conj Hnet (conj Hhit Hedge))) |].
  split; [exact Hrun | exact (eq_trans Hc Hnet)].
Defined.

Lemma layout_table_constant_witness :
  let P := fixedHits [mkIntersection 1 16] in
  let st := step (step (step (step (mounted 800 600 0)
                                   (Click exampleRect exampleClick))
                             (Tick 1))
                       (Click exampleRect exampleClick))
                 (Tick 3) in
  (ReachableFrom (mounted 800 600 0) st /\ In frontFace (faces st) /\
   currentState st = menu) /\
  heap st !! menuPosition frontFace = Some (vec3 0 1.5 0) /\
  heap st !! netPosition frontFace = Some (vec3 (-0.5) 0 0).
Proof.
  intros P st.
  assert (Hr : ReachableFrom (mounted 800 600 0) st)
    by (apply reach_step, reach_step, reach_step, reach_step, reach_start).
  assert (Hin : In frontFace (faces st)) by (vm_compute; left; reflexivity).
  assert (Hmenu : currentState st = menu) by (vm_compute; reflexivity).
  destruct (layout_table_constant 800 600 0 st frontFace Hr Hin) as (_ & Hall).
  split; [exact (conj Hr (conj Hin Hmenu)) |].
  inversion Hall as [| ? ? _ H1]; subst.
  inversion H1 as [| ? ? _ H2]; subst.
  inversion H2 as [| ? ? [_ Hnet] H3]; subst.
  inversion H3 as [| ? ? _ H4]; subst.
  inversion H4 as [| ? ? [_ Hmen] _]; subst.
  split.
  - refine (eq_trans Hmen _). vm_compute. reflexivity.
  - refine (eq_trans Hnet _). vm_compute. reflexivity.
Defined.

Lemma transitioning_always_completes_witness :
  let P := fixedHits [mkIntersection 1 16] in
  let st := step (mounted 800 600 0) (Click exampleRect exampleClick) in
  (Reachable st /\ currentState st = transitioning) /\
  exists T cb,
    inFlight st = [mkEntry T (CCall cb)] /\ clock st < T /\
    (targetOf cb = net \/ targetOf cb = menu) /\
    forall evs t, before T evs -> T <= t ->
      currentState (step (run evs st) (Tick t)) = targetOf cb.
Proof.
  intros P st.
  assert (Hr : Reachable st)
    by (exists 800, 600, 0; apply reach_step, reach_start).
  assert (Ht : currentState st = transitioning) by (vm_compute; reflexivity).
  destruct (transitioning_always_completes st Hr) as (_ & _ & _ & Hdone).
  split; [exact (conj Hr Ht) | exact (Hdone Ht)].
Defined.

Lemma pushed_paths_are_routes_witness :
  let P := fixedHits [mkIntersection 1 16] in
  let st := step (step (step (step (mounted 800 600 0)
                                   (Click exampleRect exampleClick))
                             (Tick 1))
                       (Click exampleRect exampleClick))
                 (Tick 3) in
  (Reachable st /\ pushes st = ["/web"]) /\
  Forall (fun p => In p (map fst routes)) (pushes st).
Proof.
  intros P st.
  assert (Hr : Reachable st)
    by (exists 800, 600, 0;
        apply reach_step, reach_step, reach_step, reach_step, reach_start).
  assert (Hp : pushes st = ["/web"]) by (vm_compute; reflexivity).
  destruct (pushed_paths_are_routes st Hr) as (Hall & _).
  split; [exact (conj Hr Hp) | exact Hall].
Defined.

Lemma touch_is_click_witness :
  let P := fixedHits [mkIntersection 1 16] in
  let st := mounted 800 600 0 in
  let tev := mkTouchEvent [mkTouch 50 50] in
  (Reachable st /\ touches tev !! 0%nat = Some (mkTouch 50 50)) /\
  step st (TouchStart exampleRect tev)
    = set_prevented 1 (step st (Click exampleRect exampleClick)) /\
  currentState (step st (TouchStart exampleRect tev)) = transitioning.
Proof.
  intros P st tev.
  assert (Hr : Reachable st) by (exists 800, 600, 0; apply reach_start).
  destruct (touch_is_click st exampleRect tev (mkTouch 50 50) Hr eq_refl)
    as (_ & Hstep & _).
  split; [exact (conj Hr eq_refl) |]. split; [exact Hstep |].
  vm_compute. reflexivity.
Defined.

Lemma edges_fade_to_transparent_witness :
  let P := fixedHits [mkIntersection 1 16] in
  let st := step (step (mounted 800 600 0) (Click exampleRect exampleClick))
                 (Tick 1) in
  let st2 := step (run [Tick 1.5; Tick 2.2; Frame 20]
                       (step st (Click exampleRect exampleClick)))
                  (Tick 2.3) in
  (Reachable st /\ currentState st = net /\
   intersectionsAt exampleRect exampleClick st !! 0%nat
     = Some (mkIntersection 1 16) /\
   In frontFace (faces st)) /\
  length (edgeMaterials st) = 12%nat /\
  Forall (fun mat =>
            In (mkEntry 2.3
                  (CTween (mkTween mat [("opacity", 0)] 0.5 None None)))
               (pending st2))
         (edgeMaterials st).
Proof.
  intros P st st2.
  assert (Hr : Reachable st)
    by (exists 800, 600, 0; apply reach_step, reach_step, reach_start).
  assert (Hnet : currentState st = net) by (vm_compute; reflexivity).
  assert (Hhit : intersectionsAt exampleRect exampleClick st !! 0%nat
                 = Some (mkIntersection 1 16)) by (vm_compute; reflexivity).
  assert (Hin : In frontFace (faces st)) by (vm_compute; left; reflexivity).
  destruct (edges_fade_to_transparent st exampleRect exampleClick
              (mkIntersection 1 16) frontFace Hr (or_introl Hnet) Hhit Hin
              eq_refl) as (Hfade & _).
  destruct (Hfade [Tick 1.5; Tick 2.2; Frame 20] 2.3) as (Hlen & Hall).
  { repeat (constructor; [try exact I; vm_compute; discriminate |]).
    constructor. }
  { vm_compute. reflexivity. }
  split; [exact (conj Hr (conj Hnet (conj Hhit Hin))) |].
  split; [exact Hlen | exact Hall].
Defined.

Lemma nearest_mesh_decides_witness :
  let P := edgeOnRight in
  let st := step (step (mounted 800 600 0)
                       (Click exampleRect (mkMouseEvent 25 50)))
                 (Tick 1) in
  let ev := mkMouseEvent 75 50 in
  (Reachable st /\
   intersectionsAt exampleRect ev st
     = [mkIntersection 1 4; mkIntersection 2 16] /\
   isEdgeObject st 4 = true) /\
  selectedFace exampleRect ev st = None /\
  step st (Click exampleRect ev) = withMouse exampleRect ev st.
Proof.
  intros P st ev.
  assert (Hr : Reachable st)
    by (exists 800, 600, 0; apply reach_step, reach_step, reach_start).
  assert (Hhits : intersectionsAt exampleRect ev st
                  = [mkIntersection 1 4; mkIntersection 2 16])
    by (vm_compute; reflexivity).
  assert (Hedge : isEdgeObject st 4 = true) by (vm_compute; reflexivity).
  destruct (nearest_mesh_decides st exampleRect ev Hr) as (_ & _ & Hfirst & _).
  { intros i j a b Hij Hi Hj. rewrite Hhits in Hi, Hj.
    clear - Hij Hi Hj.
    destruct i as [| [| i]], j as [| [| j]]; simpl in Hi, Hj;
      try discriminate; try lia;
      injection Hi as <-; injection Hj as <-; vm_compute; discriminate. }
  destruct (Hfirst (mkIntersection 1 4)) as (_ & Hdrop & _).
  { rewrite Hhits. reflexivity. }
  split; [exact (conj Hr (conj Hhits Hedge)) | exact (Hdrop Hedge)].
Defined.

(** The specification's reading of C4 fails on this run.  The menu
    transition is started at engine time 1, so phase (c) starts at 2.2.
    At the first tick past that start (engine time 2.3) every edge
    material has exactly one opacity tween, and its target is 0; no edge
    is animated to 0.5; once the half second of the fade is over (engine
    time 2.8) all twelve opacities are 0. *)
Lemma halfopacity_counterexample :
  let P := fixedHits [mkIntersection 1 16] in
  let st := step (step (step (step (mounted 800 600 0)
                                   (Click exampleRect exampleClick))
                             (Tick 1))
                       (Click exampleRect exampleClick))
                 (Tick 2.3) in
  currentState st = transitioning /\
  length (edgeMaterials st) = 12%nat /\
  map (opacityTargets st) (edgeMaterials st) = repeat [0] 12 /\
  ~ (exists mat, In mat (edgeMaterials st) /\
                 Exists (fun q => q == 0.5) (opacityTargets st mat)) /\
  map (opacityOf (step st (Tick 2.8))) (edgeMaterials st) = repeat 0 12.
Proof.
  intros P st.
  assert (Htargets : map (opacityTargets st) (edgeMaterials st) = repeat [0] 12)
    by (vm_compute; reflexivity).
  split; [vm_compute; reflexivity |].
  split; [vm_compute; reflexivity |].
  split; [exact Htargets |].
  split; [| vm_compute; reflexivity].
  intros (mat & Hin & Hex).
  apply (in_map (opacityTargets st)) in Hin. rewrite Htargets in Hin.
  apply repeat_spec in Hin. rewrite Hin in Hex.
  inversion Hex as [? ? H0 | ? ? H0]; [discriminate H0 | inversion H0].
Qed.

(** The specification's reading of C5 fails on this run: in state Net the
    ray of a click meets an edge decoration at distance 1 and the front
    face behind it at distance 2.  Leaving decorations out, the nearest
    face is the front face; the handler selects nothing, the state stays
    Net, nothing is put in flight and no route is pushed. *)
Lemma edge_blocks_face_counterexample :
  let P := edgeOnRight in
  let st := step (step (mounted 800 600 0)
                       (Click exampleRect (mkMouseEvent 25 50)))
                 (Tick 1) in
  let ev := mkMouseEvent 75 50 in
  currentState st = net /\
  intersectionsAt exampleRect ev st
    = [mkIntersection 1 4; mkIntersection 2 16] /\
  isEdgeObject st 4 = true /\
  specNearestFace exampleRect ev st = Some frontFace /\
  selectedFace exampleRect ev st = None /\
  selectedFace exampleRect ev st <> specNearestFace exampleRect ev st /\
  currentState (step st (Click exampleRect ev)) = net /\
  inFlight (step st (Click exampleRect ev)) = [] /\
  pushes (step (step st (Click exampleRect ev)) (Tick 10)) = [].
Proof.
  intros P st ev.
  split; [vm_compute; reflexivity |].
  split; [vm_compute; reflexivity |].
  split; [vm_compute; reflexivity |].
  split; [vm_compute; reflexivity |].
  split; [vm_compute; reflexivity |].
  split; [vm_compute; discriminate |].
  split; [vm_compute; reflexivity |].
  split; [vm_compute; reflexivity |].
  vm_compute; reflexivity.
Qed.


Lemma handlers_throw_only_on_empty_touch_witness :
  let P := fixedHits [mkIntersection 1 16] in
  let st := step (mounted 800 600 0) (Click exampleRect exampleClick) in
  Reachable st /\
  returned (handle (TouchStart exampleRect (mkTouchEvent [])) st) = false /\
  handle (TouchStart exampleRect (mkTouchEvent [])) st
    = Throw "TypeError" (set_prevented (S (prevented st)) st).
Proof.
  intros P st.
  assert (Hr : Reachable st)
    by (exists 800, 600, 0; apply reach_step, reach_start).
  destruct (handlers_throw_only_on_empty_touch st
              (TouchStart exampleRect (mkTouchEvent [])) Hr)
    as ((_ & Hthrow) & Hstate).
  split; [exact Hr |]. split.
  - apply Hthrow. exists exampleRect, (mkTouchEvent []).
    split; reflexivity.
  - exact (Hstate exampleRect (mkTouchEvent []) eq_refl eq_refl).
Defined.

Lemma state_graph_witness :
  let P := fixedHits [mkIntersection 1 16] in
  let st := step (mounted 800 600 0) (Click exampleRect exampleClick) in
  Reachable st /\
  (currentState (step st (Tick 1)) = currentState st \/
   (currentState st <> transitioning /\
    currentState (step st (Tick 1)) = transitioning /\
    ((exists rect e, Tick 1 = Click rect e) \/
     (exists rect e, Tick 1 = TouchStart rect e))) \/
   (currentState st = transitioning /\
    (currentState (step st (Tick 1)) = net \/
     currentState (step st (Tick 1)) = menu) /\
    exists t, Tick 1 = Tick t)).
Proof.
  intros P st.
  assert (Hr : Reachable st)
    by (exists 800, 600, 0; apply reach_step, reach_start).
  exact (conj Hr (state_graph st (Tick 1) Hr)).
Defined.

Lemma push_only_on_entering_menu_witness :
  let P := fixedHits [mkIntersection 1 16] in
  let st := step (step (step (mounted 800 600 0)
                             (Click exampleRect exampleClick))
                       (Tick 1))
                 (Click exampleRect exampleClick) in
  (Reachable st /\
   map e_child (inFlight st) = [CCall (cb_menuNavigate frontFace)] /\
   currentState (step st (Tick 3)) = menu) /\
  pushes st = [] /\
  pushes (step st (Tick 3)) = ["/web"].
Proof.
  intros P st.
  assert (Hr : Reachable st)
    by (exists 800, 600, 0; apply reach_step, reach_step, reach_step, reach_start).
  assert (HF : map e_child (inFlight st)
               = [CCall (cb_menuNavigate frontFace)])
    by (vm_compute; reflexivity).
  assert (Hm : currentState (step st (Tick 3)) = menu)
    by (vm_compute; reflexivity).
  assert (Hp : pushes st = []) by (vm_compute; reflexivity).
  assert (Hn : currentState st <> menu) by (vm_compute; discriminate).
  split; [exact (conj Hr (conj HF Hm)) |]. split; [exact Hp |].
  destruct (push_only_on_entering_menu st (Tick 3) Hr)
    as [(_ & Hstay) | (t & T & f & _ & _ & _ & HF' & _ & Hpush)].
  - exfalso. exact (Hn (Hstay Hm)).
  - rewrite HF' in HF. cbn [map e_child] in HF. injection HF as Hf.
    rewrite Hpush, Hp, Hf. reflexivity.
Defined.

Lemma default_route_never_pushed_witness :
  let P := fixedHits [mkIntersection 1 16] in
  let st := step (step (step (step (mounted 800 600 0)
                                   (Click exampleRect exampleClick))
                             (Tick 1))
                       (Click exampleRect exampleClick))
                 (Tick 3) in
  Reachable st /\
  Forall (fun p => In p faceRoutePaths) (pushes st) /\
  ~ In "/" (pushes st).
Proof.
  intros P st.
  assert (Hr : Reachable st)
    by (exists 800, 600, 0;
        apply reach_step, reach_step, reach_step, reach_step, reach_start).
  destruct (default_route_never_pushed st Hr) as (Hall & Hno & _).
  exact (conj Hr (conj Hall Hno)).
Defined.

Lemma no_way_back_witness :
  let P := fixedHits [mkIntersection 1 16] in
  let st := step (step (mounted 800 600 0) (Click exampleRect exampleClick))
                 (Tick 1) in
  (Reachable st /\ currentState st <> idle) /\
  currentState
    (run [Frame 16; Click exampleRect exampleClick; Tick 5; Resize 640 480] st)
    <> idle.
Proof.
  intros P st.
  assert (Hr : Reachable st)
    by (exists 800, 600, 0; apply reach_step, reach_step, reach_start).
  assert (Hne : currentState st <> idle) by (vm_compute; discriminate).
  destruct (no_way_back st
              [Frame 16; Click exampleRect exampleClick; Tick 5; Resize 640 480]
              Hr) as (Hfwd & _).
  exact (conj (conj Hr Hne) (Hfwd Hne)).
Defined.

Lemma render_loop_only_in_idle_witness :
  let P := fixedHits [mkIntersection 1 16] in
  let st := mounted 800 600 0 in
  (Reachable st /\ currentState st = idle) /\
  heapGet (heap (step st (Frame 16))) (objPosition st (cubeGroup st)) "y"
    = Math_sin (16 * 0.002 * 0.8) * 0.1 /\
  pending (step st (Frame 16)) = pending st.
Proof.
  intros P st.
  assert (Hr : Reachable st) by (exists 800, 600, 0; apply reach_start).
  assert (Hidle : currentState st = idle) by (vm_compute; reflexivity).
  destruct (render_loop_only_in_idle st 16 Hr) as (_ & Hmove).
  destruct (Hmove Hidle) as (_ & Hp & _ & Hy & _).
  exact (conj (conj Hr Hidle) (conj Hy Hp)).
Defined.

Lemma scene_partition_witness :
  let P := fixedHits [mkIntersection 1 16] in
  let st := step (mounted 800 600 0) (Click exampleRect exampleClick) in
  let o := mkObject3D 75 76 77 (Some 73%nat) (Some 74%nat) false [] in
  (Reachable st /\ objects st !! 16%nat = Some o /\ geometry o <> None) /\
  length (edgeMaterials st) = 12%nat /\
  exists f, In f (faces st) /\ mesh f = 16%nat /\
            List.find (fun f' => Nat.eqb (mesh f') 16) (faces st) = Some f.
Proof.
  intros P st o.
  assert (Hr : Reachable st)
    by (exists 800, 600, 0; apply reach_step, reach_start).
  assert (Ho : objects st !! 16%nat = Some o) by (vm_compute; reflexivity).
  assert (Hg : geometry o <> None) by discriminate.
  destruct (scene_partition st 16 o Hr Ho Hg) as (_ & _ & Hlen & f & Hin & Hm & Hfind & _).
  split; [exact (conj Hr (conj Ho Hg)) |]. split; [exact Hlen |].
  exists f. exact (conj Hin (conj Hm Hfind)).
Defined.


Lemma net_layout_witness :
  let P := fixedHits [mkIntersection 1 16] in
  let st := step (step (step (mounted 800 600 0)
                             (Click exampleRect exampleClick))
                       (Tick 0.4))
                 (Tick 1) in
  (Reachable st /\ currentState st = net) /\
  pending st = [] /\
  readVec (heap st) (objScale st (cubeGroup st)) = vec3 1 1 1 /\
  Forall (fun m => opacityOf st m = 0) (edgeMaterials st).
Proof.
  intros P st.
  assert (Hr : Reachable st)
    by (exists 800, 600, 0; apply reach_step, reach_step, reach_step, reach_start).
  assert (Hnet : currentState st = net) by (vm_compute; reflexivity).
  destruct (net_layout st Hr Hnet) as (Hp & _ & _ & _ & _ & _ & Hsc & Hop).
  exact (conj (conj Hr Hnet) (conj Hp (conj Hsc Hop))).
Defined.

Lemma menu_layout_witness :
  let P := fixedHits [mkIntersection 1 16] in
  let st := step (step (step (step (step (mounted 800 600 0)
                                         (Click exampleRect exampleClick))
                                   (Tick 1))
                             (Click exampleRect exampleClick))
                       (Tick 2.3))
                 (Tick 2.7) in
  (Reachable st /\ currentState st = menu) /\
  readVec (heap st) (objScale st (cubeGroup st)) = vec3 0.5 0.5 0.5 /\
  readVec (heap st) (objPosition st (cubeGroup st)) = vec3 (-2.5) 1.5 0.
Proof.
  intros P st.
  assert (Hr : Reachable st)
    by (exists 800, 600, 0;
        apply reach_step, reach_step, reach_step, reach_step, reach_step,
              reach_start).
  assert (Hmenu : currentState st = menu) by (vm_compute; reflexivity).
  destruct (menu_layout st Hr Hmenu) as (_ & _ & Hsc & Hpos & _).
  exact (conj (conj Hr Hmenu) (conj Hsc Hpos)).
Defined.

Lemma nothing_pushed_before_menu_witness :
  let P := fixedHits [mkIntersection 1 16] in
  let st := step (step (mounted 800 600 0) (Click exampleRect exampleClick))
                 (Tick 1) in
  (Reachable st /\ currentState st = net) /\ pushes st = [].
Proof.
  intros P st.
  assert (Hr : Reachable st)
    by (exists 800, 600, 0; apply reach_step, reach_step, reach_start).
  assert (Hnet : currentState st = net) by (vm_compute; reflexivity).
  destruct (nothing_pushed_before_menu st Hr) as (Hpush & _).
  exact (conj (conj Hr Hnet) (Hpush (or_intror (or_introl Hnet)))).
Defined.


Lemma scene_constants_witness :
  let P := fixedHits [mkIntersection 1 16] in
  let st := step (step (step (mounted 800 600 0) (Frame 16))
                       (Click exampleRect exampleClick))
                 (Tick 0.5) in
  ReachableFrom (mounted 800 600 0) st /\
  Forall (fun f =>
            exists m, objMaterial st (mesh f) = Some m /\
                      heap st !! m
                      = Some [("color", faceColor (name f)); ("opacity", 1)])
         (faces st).
Proof.
  intros P st.
  assert (Hr : ReachableFrom (mounted 800 600 0) st)
    by (apply reach_step, reach_step, reach_step, reach_start).
  destruct (scene_constants 800 600 0 st Hr) as (_ & Hmat & _).
  exact (conj Hr Hmat).
Defined.

Lemma aspect_follows_window_witness :
  let P := fixedHits [mkIntersection 1 16] in
  let evs := [Click exampleRect exampleClick; Resize 640 480; Tick 1;
              Frame 16] in
  (~ 600 == 0 /\ tall evs) /\
  camera_aspect (run evs (mounted 800 600 0)) = 640 / 480 /\
  camera_aspect (run [Tick 1; Frame 16] (mounted 800 600 0)) = 800 / 600.
Proof.
  intros P evs.
  assert (Hh : ~ 600 == 0) by (vm_compute; discriminate).
  assert (Hz : ~ 480 == 0) by (vm_compute; discriminate).
  assert (Ht : tall evs)
    by (repeat (constructor; [first [exact I | exact Hz] |]); constructor).
  assert (Ht' : tall [Tick 1; Frame 16])
    by (repeat (constructor; [exact I |]); constructor).
  destruct (aspect_follows_window 800 600 0 evs Hh Ht) as (H1 & _).
  destruct (aspect_follows_window 800 600 0 [Tick 1; Frame 16] Hh Ht')
    as (H2 & _).
  exact (conj (conj Hh Ht) (conj H1 H2)).
Defined.


Lemma edges_opaque_while_folding_witness :
  let P := fixedHits [mkIntersection 1 16] in
  let st := step (step (mounted 800 600 0) (Click exampleRect exampleClick))
                 (Tick 1) in
  (Reachable st /\ currentState st = net /\
   selectedFace exampleRect exampleClick st = Some frontFace) /\
  Forall (fun m =>
            opacityOf
              (run [Frame 16; Tick 1.5; Click exampleRect exampleClick; Tick 2]
                   (step (step st (Click exampleRect exampleClick)) (Tick 1.1)))
              m = 1)
         (edgeMaterials st).
Proof.
  intros P st.
  assert (Hr : Reachable st)
    by (exists 800, 600, 0; apply reach_step, reach_step, reach_start).
  assert (Hnet : currentState st = net) by (vm_compute; reflexivity).
  assert (Hsel : selectedFace exampleRect exampleClick st = Some frontFace)
    by (vm_compute; reflexivity).
  assert (Ht1 : clock st <= 1.1) by (vm_compute; discriminate).
  assert (Ht2 : 1.1 < clock st + 1.2) by (vm_compute; reflexivity).
  assert (Hb : before (clock st + 1.2)
                 [Frame 16; Tick 1.5; Click exampleRect exampleClick; Tick 2]).
  { repeat (constructor; [try exact I; vm_compute; reflexivity |]).
    constructor. }
  exact (conj (conj Hr (conj Hnet Hsel))
           (edges_opaque_while_folding st exampleRect exampleClick frontFace
              1.1 _ Hr Hnet Hsel Ht1 Ht2 Hb)).
Defined.


(** A tick that lands exactly on the start of phase (c) starts no fade.
    The menu transition is started at engine time 1; the tick at 2.2
    leaves every edge opaque and no opacity tween on the timeline.  The
    fade starts with the next tick, here at 2.7, which also ends the
    transition, and is over half a second later. *)
Lemma fade_waits_for_next_tick :
  let P := fixedHits [mkIntersection 1 16] in
  let st := step (step (step (step (mounted 800 600 0)
                                   (Click exampleRect exampleClick))
                             (Tick 1))
                       (Click exampleRect exampleClick))
                 (Tick 2.2) in
  map (opacityTargets st) (edgeMaterials st) = repeat [] 12 /\
  map (opacityOf st) (edgeMaterials st) = repeat 1 12 /\
  currentState (step st (Tick 2.7)) = menu /\
  map (opacityTargets (step st (Tick 2.7))) (edgeMaterials st)
    = repeat [0] 12 /\
  map (opacityOf (step st (Tick 2.7))) (edgeMaterials st) = repeat 1 12 /\
  map (opacityOf (step (step st (Tick 2.7)) (Tick 3.2))) (edgeMaterials st)
    = repeat 0 12.
Proof.
  intros P st.
  split; [vm_compute; reflexivity |].
  split; [vm_compute; reflexivity |].
  split; [vm_compute; reflexivity |].
  split; [vm_compute; reflexivity |].
  split; [vm_compute; reflexivity |].
  vm_compute; reflexivity.
Qed.

(** From Menu the edges need not stay opaque while the cube folds: when a
    face is hit less than 0.5 s after Menu was reached, the fade tweens of
    the transition before are still on the timeline and go on writing the
    opacity.  Here Menu is reached at 2.7 and a face is hit at once; two
    ticks later every edge has opacity 3/5. *)
Lemma menu_refold_dims_edges :
  let P := fixedHits [mkIntersection 1 16] in
  let st := step (step (step (step (mounted 800 600 0)
                                   (Click exampleRect exampleClick))
                             (Tick 1))
                       (Click exampleRect exampleClick))
                 (Tick 2.7) in
  Reachable st /\ currentState st = menu /\
  selectedFace exampleRect exampleClick st = Some frontFace /\
  clock st <= 2.8 /\ 2.9 < clock st + 1.2 /\
  map (fun m =>
         Qred (opacityOf
                 (run [Tick 2.9]
                      (step (step st (Click exampleRect exampleClick))
                            (Tick 2.8))) m))
      (edgeMaterials st)
  = repeat (3 # 5) 12.
Proof.
  intros P st.
  split; [exists 800, 600, 0;
          apply reach_step, reach_step, reach_step, reach_step, reach_start |].
  split; [vm_compute; reflexivity |].
  split; [vm_compute; reflexivity |].
  split; [vm_compute; discriminate |].
  split; vm_compute; reflexivity.
Qed.


Lemma idle_pose_witness :
  let P := fixedHits [] in
  let st := run [Frame 16; Click exampleRect exampleClick; Tick 3; Frame 32]
                (mounted 800 600 0) in
  (Reachable st /\ currentState st = idle) /\
  heap st !! objRotation st (cubeGroup st)
    = Some [("x", - Math_atan (Math_sqrt 2)); ("y", Math_PI / 4); ("z", 0)].
Proof.
  intros P st.
  assert (Hr : Reachable st)
    by (exists 800, 600, 0;
        apply reach_step, reach_step, reach_step, reach_step, reach_start).
  assert (Hidle : currentState st = idle) by (vm_compute; reflexivity).
  destruct (idle_pose st Hr Hidle) as (Hrot & _).
  exact (conj (conj Hr Hidle) Hrot).
Defined.


Lemma click_stores_pointer_witness :
  let P := fixedHits [mkIntersection 1 16] in
  let st := step (mounted 800 600 0) (Click exampleRect exampleClick) in
  (Reachable st /\ 0 < rect_width exampleRect /\ 0 < rect_height exampleRect) /\
  heap (step st (Click exampleRect (mkMouseEvent 25 100))) !! mouse st
    = Some [("x", ndcX exampleRect (mkMouseEvent 25 100));
            ("y", ndcY exampleRect (mkMouseEvent 25 100))].
Proof.
  intros P st.
  assert (Hr : Reachable st)
    by (exists 800, 600, 0; apply reach_step, reach_start).
  assert (Hw : 0 < rect_width exampleRect) by reflexivity.
  assert (Hh : 0 < rect_height exampleRect) by reflexivity.
  destruct (click_stores_pointer st exampleRect (mkMouseEvent 25 100) Hr Hw Hh)
    as (Hstore & _).
  exact (conj (conj Hr (conj Hw Hh)) Hstore).
Defined.


Lemma menu_edges_fade_out_witness :
  let P := fixedHits [mkIntersection 1 16] in
  let st := step (step (step (step (mounted 800 600 0)
                                   (Click exampleRect exampleClick))
                             (Tick 1))
                       (Click exampleRect exampleClick))
                 (Tick 2.7) in
  (Reachable st /\ currentState st = menu /\ clock st + 0.5 <= 3.2) /\
  pending (step st (Tick 3.2)) = [] /\
  Forall (fun m => opacityOf (step st (Tick 3.2)) m = 0) (edgeMaterials st).
Proof.
  intros P st.
  assert (Hr : Reachable st)
    by (exists 800, 600, 0;
        apply reach_step, reach_step, reach_step, reach_step, reach_start).
  assert (Hmenu : currentState st = menu) by (vm_compute; reflexivity).
  assert (Ht : clock st + 0.5 <= 3.2) by (vm_compute; discriminate).
  destruct (menu_edges_fade_out st 3.2 Hr Hmenu Ht) as (_ & Hp & Hop).
  exact (conj (conj Hr (conj Hmenu Ht)) (conj Hp Hop)).
Defined.


Lemma tick_at_rest_witness :
  let P := fixedHits [mkIntersection 1 16] in
  let st := step (step (mounted 800 600 0) (Click exampleRect exampleClick))
                 (Tick 1) in
  (Reachable st /\ currentState st = net) /\
  handle (Tick 5) st = Val tt (set_clock 5 st).
Proof.
  intros P st.
  assert (Hr : Reachable st)
    by (exists 800, 600, 0; apply reach_step, reach_step, reach_start).
  assert (Hnet : currentState st = net) by (vm_compute; reflexivity).
  assert (Hg : Qle_bool (clock st) 5 = true) by (vm_compute; reflexivity).
  pose proof (tick_at_rest st 5 Hr (or_intror Hnet)) as H.
  rewrite Hg in H.
  exact (conj (conj Hr Hnet) H).
Defined.

Lemma prevent_default_counts_touches_witness :
  let P := fixedHits [mkIntersection 1 16] in
  let st := step (mounted 800 600 0) (Click exampleRect exampleClick) in
  Reachable st /\
  prevented
    (run [TouchStart exampleRect (mkTouchEvent []); Tick 1;
          TouchStart exampleRect (mkTouchEvent [mkTouch 50 50]); Frame 16] st)
  = (prevented st + 2)%nat.
Proof.
  intros P st.
  assert (Hr : Reachable st)
    by (exists 800, 600, 0; apply reach_step, reach_start).
  exact (conj Hr
           (prevent_default_counts_touches st
              [TouchStart exampleRect (mkTouchEvent []); Tick 1;
               TouchStart exampleRect (mkTouchEvent [mkTouch 50 50]); Frame 16]
              Hr)).
Defined.
